(** * Pi-Pico-OneWire-Interface: the driver of OneWire.c, embedded and verified

    The development follows the two halves of [OneWire.c]:

    - the transaction engine, which talks to the PIO state machine through
      its Tx and Rx FIFOs ([oneWire_reset] ... [oneWire_read_bytes]);
    - the discovery engine, which bit-bangs the GPIO pin
      ([oneWire_resetBB] ... [oneWire_search_rom]);

    and the functions of [DS18B20.c] that use them to find, address and
    read the thermometers ([get_DS18_rom] ... [convert_DS18_temp]).

    The C functions are written as programs over the calls they make on the
    Pico SDK ([pio_sm_put_blocking], [gpio_get], ...).  A program is a finite
    tree of such calls; what the hardware answers is given separately, by a
    handler over a hardware state.  C integers are [Z] with the wrap-around of
    their type written out. *)

From Stdlib Require Import ZArith Lia Bool Btauto.
From stdpp Require Import list sorting.

Local Open Scope Z_scope.

(** ** Fixed-width integers *)

Definition u8  (z : Z) : Z := z mod 2 ^ 8.
Definition u16 (z : Z) : Z := z mod 2 ^ 16.
Definition u32 (z : Z) : Z := z mod 2 ^ 32.
Definition u64 (z : Z) : Z := z mod 2 ^ 64.

(** ** Programs over SDK calls *)

Module Prog.

(** Why a program stops without returning: undefined behaviour of the C
    source (an access outside an array, a shift by the width of the type or
    more), or a loop of the model that used up its fuel. *)
Inductive abort : Type :=
| UndefinedBehaviour
| OutOfFuel.

Inductive prog (E : Type -> Type) (A : Type) : Type :=
| Ret (a : A)
| Abort (r : abort)
| Vis (X : Type) (e : E X) (k : X -> prog E A).

Arguments Ret {E A} a.
Arguments Abort {E A} r.
Arguments Vis {E A X} e k.

Fixpoint bind {E A B} (p : prog E A) (f : A -> prog E B) : prog E B :=
  match p with
  | Ret a => f a
  | Abort r => Abort r
  | Vis e k => Vis e (fun x => bind (k x) f)
  end.

Definition call {E X} (e : E X) : prog E X := Vis e Ret.

(** What a run ends in. [Blocks s]: a blocking SDK call never comes back in
    hardware state [s]. *)
Inductive outcome (S A : Type) : Type :=
| Returns (a : A) (s : S)
| Aborts (r : abort)
| Blocks (s : S).

Arguments Returns {S A} a s.
Arguments Aborts {S A} r.
Arguments Blocks {S A} s.

(** A handler answers one call in a hardware state; [None] when the call
    blocks for ever. *)
Definition handler (E : Type -> Type) (S : Type) : Type :=
  forall X, E X -> S -> option (X * S).

Fixpoint run {E S A} (h : handler E S) (p : prog E A) (s : S) : outcome S A :=
  match p with
  | Ret a => Returns a s
  | Abort r => Aborts r
  | Vis e k =>
      match h _ e s with
      | Some (x, s') => run h (k x) s'
      | None => Blocks s
      end
  end.

(** Control leaving a loop body: on to the next iteration, [break], or a
    [return] from the enclosing function. *)
Inductive ctl (St R : Type) : Type :=
| Continue (st : St)
| Break (st : St)
| Return (r : R).

Arguments Continue {St R} st.
Arguments Break {St R} st.
Arguments Return {St R} r.

(** [for (; cond; step) body]: the result is the loop state at exit, or the
    value returned from inside the body. *)
Fixpoint for_loop {E St R} (fuel : nat) (cond : St -> bool)
         (step : St -> St) (body : St -> prog E (ctl St R)) (st : St)
  : prog E (St + R) :=
  if cond st then
    match fuel with
    | O => Abort OutOfFuel
    | S fuel' =>
        bind (body st) (fun c =>
          match c with
          | Continue st' => for_loop fuel' cond step body (step st')
          | Break st' => Ret (inl st')
          | Return r => Ret (inr r)
          end)
    end
  else Ret (inl st).

(** A loop whose body neither breaks nor returns. *)
Fixpoint for_each {E St} (fuel : nat) (cond : St -> bool)
         (step : St -> St) (body : St -> prog E St) (st : St) : prog E St :=
  if cond st then
    match fuel with
    | O => Abort OutOfFuel
    | S fuel' => bind (body st) (fun st' => for_each fuel' cond step body (step st'))
    end
  else Ret st.

(** [a && b] of C: [b] is evaluated only when [a] holds. *)
Definition and_then {E} (a : bool) (b : prog E bool) : prog E bool :=
  if a then b else Ret false.

(** [a[i]] and [a[i] = v] on an array given by its contents. *)
Definition load {E} (a : list Z) (i : Z) : prog E Z :=
  if i <? 0 then Abort UndefinedBehaviour
  else match a !! Z.to_nat i with
       | Some v => Ret v
       | None => Abort UndefinedBehaviour
       end.

Definition store {E} (a : list Z) (i : Z) (v : Z) : prog E (list Z) :=
  if i <? 0 then Abort UndefinedBehaviour
  else match a !! Z.to_nat i with
       | Some _ => Ret (<[Z.to_nat i := v]> a)
       | None => Abort UndefinedBehaviour
       end.

(** [always P p]: whatever the hardware answers, [p] returns only values
    that satisfy [P]. *)
Fixpoint always {E A} (P : A -> Prop) (p : prog E A) : Prop :=
  match p with
  | Ret a => P a
  | Abort _ => True
  | Vis e k => forall x, always P (k x)
  end.

(** [a[i] = v] on an array of any element type. *)
Definition store_at {E T} (a : list T) (i : Z) (v : T) : prog E (list T) :=
  if i <? 0 then Abort UndefinedBehaviour
  else match a !! Z.to_nat i with
       | Some _ => Ret (<[Z.to_nat i := v]> a)
       | None => Abort UndefinedBehaviour
       end.

(** Programs that call two families of SDK functions, each answered by
    its own hardware. *)
Inductive sumE (E F : Type -> Type) (X : Type) : Type :=
| inlE (e : E X)
| inrE (f : F X).

Arguments inlE {E F X} e.
Arguments inrE {E F X} f.

Fixpoint translate {E F A} (into : forall X, E X -> F X) (p : prog E A) : prog F A :=
  match p with
  | Ret a => Ret a
  | Abort r => Abort r
  | Vis e k => Vis (into _ e) (fun x => translate into (k x))
  end.

Definition handle_both {E F S T} (h : handler E S) (g : handler F T)
  : handler (sumE E F) (S * T) :=
  fun X e st =>
    match e with
    | inlE e =>
        match h X e (fst st) with
        | Some (x, s') => Some (x, (s', snd st))
        | None => None
        end
    | inrE f =>
        match g X f (snd st) with
        | Some (x, t') => Some (x, (fst st, t'))
        | None => None
        end
    end.


Declare Scope prog_scope.
Delimit Scope prog_scope with prog.
Notation "x <- p ;; q" := (bind p (fun x => q))
  (at level 100, p at next level, right associativity) : prog_scope.
Notation "p ;; q" := (bind p (fun _ => q))
  (at level 100, right associativity) : prog_scope.

End Prog.

Import Prog.
Local Open Scope prog_scope.

(** ** OneWire.h *)

Definition ONE_WIRE_GPIO : Z := 7.

(** [typedef uint16_t oneWire_status;]: a value returned at this type. *)
Definition oneWire_status (v : Z) : Z := u16 v.

Definition ONE_WIRE_NO_ERROR : Z := 0.
Definition ONE_WIRE_POSSIBLE_FIFO_OVERFLOW : Z := -1.
Definition ONE_WIRE_NOT_ENOUGH_TX_FIFO_SPACE : Z := -2.
Definition ONE_WIRE_NOT_ENOUGH_DATA_IN_RX_FIFO : Z := -3.
Definition ONE_WIRE_READ_CRC_FAILURE : Z := -4.
Definition ONE_WIRE_SEARCH_ROM_FAILURE : Z := -5.
Definition ONE_WIRE_ILLEGAL_DATA_SIZE_REQ : Z := -6.

(** ** The transaction engine *)

Module Engine.

Definition ONE_WIRE_FIFODEPTH : Z := 4.

(** The SDK calls on the state machine [owp.pio], [owp.sm]. The two level
    queries return [uint], the FIFO words are [uint32_t]. *)
Inductive pioE : Type -> Type :=
| pio_sm_is_tx_fifo_full : pioE bool
| pio_sm_get_tx_fifo_level : pioE Z
| pio_sm_get_rx_fifo_level : pioE Z
| pio_sm_put_blocking (data : Z) : pioE unit
| pio_sm_get_blocking : pioE Z.

Definition oneWire_reset (wait : bool) : prog pioE Z :=
  full <- and_then (negb wait) (call pio_sm_is_tx_fifo_full) ;;
  if full then Ret (oneWire_status ONE_WIRE_NOT_ENOUGH_TX_FIFO_SPACE)
  else
    call (pio_sm_put_blocking 0x00000002) ;;
    Ret (oneWire_status ONE_WIRE_NO_ERROR).

Definition oneWire_wait_for_idle (wait : bool) : prog pioE Z :=
  full <- and_then (negb wait) (call pio_sm_is_tx_fifo_full) ;;
  if full then Ret (oneWire_status ONE_WIRE_NOT_ENOUGH_TX_FIFO_SPACE)
  else
    call (pio_sm_put_blocking 0x00000000) ;;
    Ret (oneWire_status ONE_WIRE_NO_ERROR).

Definition oneWire_write_byte (data : Z) (wait : bool) : prog pioE Z :=
  full <- and_then (negb wait) (call pio_sm_is_tx_fifo_full) ;;
  if full then Ret (oneWire_status ONE_WIRE_NOT_ENOUGH_TX_FIFO_SPACE)
  else
    call (pio_sm_put_blocking (u32 (Z.shiftl (u8 data) 6 + Z.shiftl 7 2 + 0x03))) ;;
    Ret (oneWire_status ONE_WIRE_NO_ERROR).

Definition oneWire_write_uint (data : Z) (wait : bool) : prog pioE Z :=
  full <- and_then (negb wait) (call pio_sm_is_tx_fifo_full) ;;
  if full then Ret (oneWire_status ONE_WIRE_NOT_ENOUGH_TX_FIFO_SPACE)
  else
    call (pio_sm_put_blocking (u32 (Z.shiftl (u16 data) 6 + Z.shiftl 15 2 + 0x03))) ;;
    Ret (oneWire_status ONE_WIRE_NO_ERROR).

(** The command word that asks the state machine for [num_bits] bits. *)
Definition read_cmd (num_bits : Z) : Z := u32 (Z.shiftl (u32 (num_bits - 1)) 2 + 1).

Definition oneWire_push_read_cmd (num_bits : Z) : prog pioE Z :=
  if (num_bits >? 32) || (num_bits <? 1)
  then Ret (oneWire_status ONE_WIRE_ILLEGAL_DATA_SIZE_REQ)
  else
    call (pio_sm_put_blocking (read_cmd num_bits)) ;;
    Ret (oneWire_status ONE_WIRE_NO_ERROR).

(** [x >> n] at a 32-bit type: undefined for [n >= 32]. *)
Definition shr32 {E} (x n : Z) : prog E Z :=
  if (0 <=? n) && (n <? 32) then Ret (Z.shiftr x n) else Abort UndefinedBehaviour.

(** The local [r] has type [oneWire_status]: the FIFO word is converted to
    16 bits when it is stored there. The shift count [32 - num_bits] is
    computed at [uint]. *)
Definition oneWire_pull_read_data (num_bits : Z) : prog pioE Z :=
  w <- call pio_sm_get_blocking ;;
  let r := oneWire_status w in
  v <- shr32 r (u32 (32 - num_bits)) ;;
  Ret (u32 v).

(** The three single-value reads end without a [return] statement on the
    path that reads: the result is then [None], no status is returned.
    The second component is the object [*data] after the call. *)
Definition oneWire_read_byte (data : Z) (wait : bool) : prog pioE (option Z * Z) :=
  full <- and_then (negb wait) (call pio_sm_is_tx_fifo_full) ;;
  if full then Ret (Some (oneWire_status ONE_WIRE_NOT_ENOUGH_TX_FIFO_SPACE), data)
  else
    r <- oneWire_push_read_cmd 8 ;;
    if negb (r =? ONE_WIRE_NO_ERROR) then Ret (Some r, data)
    else
      v <- oneWire_pull_read_data 8 ;;
      Ret (None, u8 (Z.land v 0xFF)).

Definition oneWire_read_uint (data : Z) (wait : bool) : prog pioE (option Z * Z) :=
  full <- and_then (negb wait) (call pio_sm_is_tx_fifo_full) ;;
  if full then Ret (Some (oneWire_status ONE_WIRE_NOT_ENOUGH_TX_FIFO_SPACE), data)
  else
    r <- oneWire_push_read_cmd 16 ;;
    if negb (r =? ONE_WIRE_NO_ERROR) then Ret (Some r, data)
    else
      v <- oneWire_pull_read_data 16 ;;
      Ret (None, u16 (Z.land v 0xFFFF)).

Definition oneWire_read_ulong (data : Z) (wait : bool) : prog pioE (option Z * Z) :=
  full <- and_then (negb wait) (call pio_sm_is_tx_fifo_full) ;;
  if full then Ret (Some (oneWire_status ONE_WIRE_NOT_ENOUGH_TX_FIFO_SPACE), data)
  else
    r <- oneWire_push_read_cmd 32 ;;
    if negb (r =? ONE_WIRE_NO_ERROR) then Ret (Some r, data)
    else
      v <- oneWire_pull_read_data 32 ;;
      Ret (None, u32 v).

(** *** CRC *)

(** One turn of the inner loop of [oneWire_CRC], on [(crc, t)]. *)
Definition crc_bit (ct : Z * Z) : Z * Z :=
  let '(crc, t) := ct in
  let crc := u8 (Z.lxor crc (Z.land t 1)) in
  let pxor := if negb (Z.land crc 1 =? 0) then 0x18 else 0 in
  let crc := u8 (Z.lxor crc pxor) in
  let crc := u8 (Z.lor (Z.shiftr crc 1) (Z.shiftl crc 7)) in
  let t := u8 (Z.shiftr t 1) in
  (crc, t).

(** [for (int j = 0; j < 8; j++)]: the bound is a constant, the loop is
    unrolled by [Nat.iter]. *)
Definition crc_byte (crc t : Z) : Z := fst (Nat.iter 8 crc_bit (crc, u8 t)).

(** The outer loop of [oneWire_CRC], on [(i, crc)]. *)
Definition crc_loop {E} (fuel : nat) (a : list Z) (len : Z) : Z * Z -> prog E (Z * Z) :=
  for_each fuel
    (fun '(i, crc) => i <? len)
    (fun '(i, crc) => (i + 1, crc))
    (fun '(i, crc) => t <- load a i ;; Ret (i, crc_byte crc t)).

Definition oneWire_CRC {E} (a : list Z) (len : Z) : prog E Z :=
  st <- crc_loop (Z.to_nat len) a len (0, 0) ;;
  let crc := snd st in
  if negb (crc =? 0) then Ret (oneWire_status ONE_WIRE_READ_CRC_FAILURE)
  else Ret (oneWire_status ONE_WIRE_NO_ERROR).

(** *** Reading several bytes *)

(** The free space is computed at [uint]: [pio_sm_get_tx_fifo_level]
    returns [uint], so the subtraction wraps and [num_pushes] is converted
    to [uint] for the comparison. *)
Definition oneWire_push_read_bytes_cmd (num : Z) (wait : bool) : prog pioE Z :=
  if num >? 16 then Ret (oneWire_status ONE_WIRE_POSSIBLE_FIFO_OVERFLOW)
  else
    let num_pushes := num + 3 in
    short <- and_then (negb wait)
               (level <- call pio_sm_get_tx_fifo_level ;;
                Ret (u32 num_pushes >? u32 (ONE_WIRE_FIFODEPTH - u32 (level * 4)))) ;;
    if short then Ret (oneWire_status ONE_WIRE_NOT_ENOUGH_TX_FIFO_SPACE)
    else
      i <- for_each 5
             (fun i => i <=? num - 4)
             (fun i => i + 4)
             (fun i => (call (pio_sm_put_blocking (u32 (Z.shiftl 31 2 + 1))) ;; Ret i))
             0 ;;
      let remainder := num - i in
      (if remainder >? 0
       then call (pio_sm_put_blocking (u32 (Z.shiftl (remainder * 8 - 1) 2 + 1)))
       else Ret tt) ;;
      Ret (oneWire_status ONE_WIRE_NO_ERROR).

(** Byte [k] of the union [u] whose [uint32_t] member holds [l], on the
    little-endian Cortex-M0+. *)
Definition union_byte (l k : Z) : Z := Z.land (Z.shiftr l (8 * k)) 0xFF.

(** [for (int k = 0; k < n; k++) data[i+k] = u.a[k];] *)
Definition copy_union {E} (data : list Z) (i l n : Z) : prog E (list Z) :=
  st <- for_each 4
          (fun '(k, data) => k <? n)
          (fun '(k, data) => (k + 1, data))
          (fun '(k, data) => data' <- store data (i + k) (union_byte l k) ;; Ret (k, data'))
          (0, data) ;;
  Ret (snd st).

(** The loop over whole words of [oneWire_pull_read_bytes], on [(i, data)]. *)
Definition pull_words (data : list Z) (num : Z) : prog pioE (Z * list Z) :=
  for_each 5
    (fun '(i, data) => i <=? num - 4)
    (fun '(i, data) => (i + 4, data))
    (fun '(i, data) =>
       l <- call pio_sm_get_blocking ;;
       data' <- copy_union data i l 4 ;;
       Ret (i, data'))
    (0, data).

(** The last, partial word. *)
Definition pull_remainder (data : list Z) (i remainder : Z) : prog pioE (list Z) :=
  if remainder >? 0
  then
    l <- call pio_sm_get_blocking ;;
    l <- shr32 l (32 - remainder * 8) ;;
    copy_union data i l remainder
  else Ret data.

Definition oneWire_pull_read_bytes (data : list Z) (num : Z) (wait : bool)
  : prog pioE (Z * list Z) :=
  if num >? 16 then Ret (oneWire_status ONE_WIRE_ILLEGAL_DATA_SIZE_REQ, data)
  else
    let num_pullsx4 := num + 3 in
    short <- and_then (negb wait)
               (level <- call pio_sm_get_rx_fifo_level ;;
                Ret (u32 num_pullsx4 >? u32 (level * 4))) ;;
    if short then Ret (oneWire_status ONE_WIRE_NOT_ENOUGH_DATA_IN_RX_FIFO, data)
    else
      st <- pull_words data num ;;
      let remainder := num - fst st in
      data <- pull_remainder (snd st) (fst st) remainder ;;
      r <- oneWire_CRC data num ;;
      Ret (r, data).

Definition oneWire_read_bytes (data : list Z) (num : Z) : prog pioE (Z * list Z) :=
  r <- oneWire_push_read_bytes_cmd num true ;;
  if negb (r =? ONE_WIRE_NO_ERROR) then Ret (r, data)
  else oneWire_pull_read_bytes data num true.

(** *** The two FIFOs, seen from the processor

    Oldest word first. Nothing but the calls of the processor moves a
    word in this model: a blocking call that finds the Tx FIFO full or the
    Rx FIFO empty does not come back. *)
Record Fifos : Type := mkFifos { tx : list Z; rx : list Z }.

Definition fifo : handler pioE Fifos :=
  fun X e =>
    match e in pioE X return Fifos -> option (X * Fifos) with
    | pio_sm_is_tx_fifo_full =>
        fun s => Some (ONE_WIRE_FIFODEPTH <=? Z.of_nat (length (tx s)), s)
    | pio_sm_get_tx_fifo_level => fun s => Some (Z.of_nat (length (tx s)), s)
    | pio_sm_get_rx_fifo_level => fun s => Some (Z.of_nat (length (rx s)), s)
    | pio_sm_put_blocking w =>
        fun s =>
          if Z.of_nat (length (tx s)) <? ONE_WIRE_FIFODEPTH
          then Some (tt, mkFifos (tx s ++ [w]) (rx s))
          else None
    | pio_sm_get_blocking =>
        fun s =>
          match rx s with
          | w :: rest => Some (w, mkFifos (tx s) rest)
          | [] => None
          end
    end.

(** *** A state machine at work

    The state machine as a program that waits for it sees it: every
    command written to the Tx FIFO is taken, in order, and the response
    words arrive in the order given. [sent] are the commands taken so far,
    [replies] the response words still to be pulled. *)
Record Machine : Type := mkMachine { sent : list Z; replies : list Z }.

Definition machine : handler pioE Machine :=
  fun X e =>
    match e in pioE X return Machine -> option (X * Machine) with
    | pio_sm_is_tx_fifo_full => fun s => Some (false, s)
    | pio_sm_get_tx_fifo_level => fun s => Some (0, s)
    | pio_sm_get_rx_fifo_level => fun s => Some (Z.of_nat (length (replies s)), s)
    | pio_sm_put_blocking w => fun s => Some (tt, mkMachine (sent s ++ [w]) (replies s))
    | pio_sm_get_blocking =>
        fun s =>
          match replies s with
          | w :: rest => Some (w, mkMachine (sent s) rest)
          | [] => None
          end
    end.

End Engine.


(** ** The discovery engine *)

Module Discovery.

(** The SDK calls on the pin. *)
Inductive gpioE : Type -> Type :=
| gpio_init (gpio : Z) : gpioE unit
| gpio_set_dir (gpio : Z) (out : bool) : gpioE unit
| gpio_put (gpio : Z) (value : bool) : gpioE unit
| gpio_get (gpio : Z) : gpioE bool
| busy_wait_us_32 (delay_us : Z) : gpioE unit.

Definition GPIO_IN : bool := false.
Definition GPIO_OUT : bool := true.

Definition ONE_WIRE_RESET_PULSE : Z := 500.
Definition ONE_WIRE_PRESENCE_WAIT : Z := 500.
Definition ONE_WIRE_PRESENCE_CT : Z := 30.
Definition ONE_WIRE_WRITE_0 : Z := 60.
Definition ONE_WIRE_POST_WRITE_0 : Z := 5.
Definition ONE_WIRE_WRITE_1 : Z := 5.
Definition ONE_WIRE_POST_WRITE_1 : Z := 60.
Definition ONE_WIRE_READ_PULSE : Z := 4.
Definition ONE_WIRE_READ_SAMPLE : Z := 8.
Definition ONE_WIRE_POST_READ : Z := 53.

Definition init_OneWireBB : prog gpioE unit :=
  call (gpio_init ONE_WIRE_GPIO) ;;
  call (gpio_set_dir ONE_WIRE_GPIO GPIO_IN) ;;
  call (gpio_put ONE_WIRE_GPIO false).

(** The state at the exit of a loop whose body has no [return]. *)
Definition exit_state {St} (r : St + Empty_set) : St :=
  match r with
  | inl st => st
  | inr e => match e with end
  end.

(** The polling loop of [oneWire_resetBB], on [(i, found)]. *)
Definition poll_presence : prog gpioE (Z * bool + Empty_set) :=
  for_loop 8
    (fun '(i, found) => i <? 8)
    (fun '(i, found) => (i + 1, found))
    (fun '(i, found) =>
       level <- call (gpio_get ONE_WIRE_GPIO) ;;
       if Bool.eqb false level then Ret (Break (i, true))
       else (call (busy_wait_us_32 ONE_WIRE_PRESENCE_CT) ;; Ret (Continue (i, found))))
    (0, false).

Definition oneWire_resetBB : prog gpioE bool :=
  call (gpio_set_dir ONE_WIRE_GPIO GPIO_OUT) ;;
  call (busy_wait_us_32 ONE_WIRE_RESET_PULSE) ;;
  call (gpio_set_dir ONE_WIRE_GPIO GPIO_IN) ;;
  call (busy_wait_us_32 ONE_WIRE_PRESENCE_CT) ;;
  st <- poll_presence ;;
  let '(i, found) := exit_state st in
  call (busy_wait_us_32 (u32 (ONE_WIRE_PRESENCE_WAIT - ONE_WIRE_PRESENCE_CT * (8 - i)))) ;;
  Ret found.

Definition write_1_sequence : prog gpioE unit :=
  call (gpio_set_dir ONE_WIRE_GPIO GPIO_OUT) ;;
  call (busy_wait_us_32 ONE_WIRE_WRITE_1) ;;
  call (gpio_set_dir ONE_WIRE_GPIO GPIO_IN) ;;
  call (busy_wait_us_32 ONE_WIRE_POST_WRITE_1).

Definition write_0_sequence : prog gpioE unit :=
  call (gpio_set_dir ONE_WIRE_GPIO GPIO_OUT) ;;
  call (busy_wait_us_32 ONE_WIRE_WRITE_0) ;;
  call (gpio_set_dir ONE_WIRE_GPIO GPIO_IN) ;;
  call (busy_wait_us_32 ONE_WIRE_POST_WRITE_0).

Definition oneWire_write_byteBB (data : Z) : prog gpioE bool :=
  for_each 8
    (fun b => b <=? 128)
    (fun b => Z.shiftl b 1)
    (fun b =>
       (if negb (Z.land b (u8 data) =? 0) then write_1_sequence else write_0_sequence) ;;
       Ret b)
    1 ;;
  Ret true.

Definition oneWire_read_bitBB : prog gpioE bool :=
  call (gpio_set_dir ONE_WIRE_GPIO GPIO_OUT) ;;
  call (busy_wait_us_32 ONE_WIRE_READ_PULSE) ;;
  call (gpio_set_dir ONE_WIRE_GPIO GPIO_IN) ;;
  call (busy_wait_us_32 ONE_WIRE_READ_SAMPLE) ;;
  bit <- call (gpio_get ONE_WIRE_GPIO) ;;
  call (busy_wait_us_32 ONE_WIRE_POST_READ) ;;
  Ret bit.

Definition oneWire_write_bitBB (bit : bool) : prog gpioE unit :=
  if bit then write_1_sequence else write_0_sequence.

(** [1ULL << bit] and [~x] at [uint64_t]. *)
Definition bit64 (bit : Z) : Z := u64 (Z.shiftl 1 bit).
Definition not64 (x : Z) : Z := u64 (Z.lnot x).

(** The 64-bit walk of one pass, on [(bit, (current, discrepancy))]; it
    returns from the function when both reads give 1. *)
Definition walk_bit (st : Z * (Z * Z)) : prog gpioE (ctl (Z * (Z * Z)) Z) :=
  let '(bit, (current, discrepancy)) := st in
  wo1 <- oneWire_read_bitBB ;;
  wo2 <- oneWire_read_bitBB ;;
  if xorb wo1 wo2 then
    let current :=
      if wo1 then Z.lor current (bit64 bit) else Z.land current (not64 (bit64 bit)) in
    let discrepancy := Z.land discrepancy (not64 (bit64 bit)) in
    oneWire_write_bitBB wo1 ;;
    Ret (Continue (bit, (current, discrepancy)))
  else if Bool.eqb wo1 false && Bool.eqb wo2 false then
    if negb (Z.land discrepancy (bit64 bit) =? 0) then
      oneWire_write_bitBB (negb (Z.land current (bit64 bit) =? 0)) ;;
      Ret (Continue (bit, (current, discrepancy)))
    else
      let current := Z.lor current (bit64 bit) in
      oneWire_write_bitBB true ;;
      let discrepancy := Z.lor discrepancy (bit64 bit) in
      Ret (Continue (bit, (current, discrepancy)))
  else Ret (Return ONE_WIRE_SEARCH_ROM_FAILURE).

Definition walk (current discrepancy : Z) : prog gpioE (Z * (Z * Z) + Z) :=
  for_loop 64
    (fun st => fst st <? 64)
    (fun '(bit, cd) => (bit + 1, cd))
    walk_bit
    (0, (current, discrepancy)).

(** The loop that deals with the discrepancies after a pass, from bit 63
    down, on [(bit, (current, discrepancy))]. *)
Definition settle_bit (st : Z * (Z * Z)) : ctl (Z * (Z * Z)) Empty_set :=
  let '(bit, (current, discrepancy)) := st in
  if negb (Z.land discrepancy (bit64 bit) =? 0) then
    if negb (Z.land current (bit64 bit) =? 0) then
      Break (bit, (Z.land current (not64 (bit64 bit)), discrepancy))
    else Continue (bit, (current, Z.land discrepancy (not64 (bit64 bit))))
  else Continue (bit, (current, discrepancy)).

Definition settle (current discrepancy : Z) : prog gpioE (Z * (Z * Z) + Empty_set) :=
  for_loop 64
    (fun st => fst st >=? 0)
    (fun '(bit, cd) => (bit - 1, cd))
    (fun st => Ret (settle_bit st))
    (63, (current, discrepancy)).

(** The variables of [oneWire_search_rom] and the caller's array. *)
Record search_state : Type := mkSearch {
  nextdev : Z;
  current : Z;
  discrepancy : Z;
  done : bool;
  devs : list Z
}.

(** One turn of [while (!done)]. A [return] carries the value returned and
    the caller's array. *)
Definition search_pass (st : search_state) : prog gpioE (ctl search_state (Z * list Z)) :=
  found <- oneWire_resetBB ;;
  if negb found then Ret (Return (0, devs st))
  else
    oneWire_write_byteBB 0xF0 ;;
    w <- walk (current st) (discrepancy st) ;;
    match w with
    | inr r => Ret (Return (r, devs st))
    | inl (_, (current, discrepancy)) =>
        devs <- store (devs st) (nextdev st) current ;;
        let nextdev := nextdev st + 1 in
        s <- settle current discrepancy ;;
        let '(bit, (current, discrepancy)) := exit_state s in
        let done := if bit <? 0 then true else done st in
        Ret (Continue (mkSearch nextdev current discrepancy done devs))
    end.

Definition search_loop (fuel : nat) (st : search_state)
  : prog gpioE (search_state + Z * list Z) :=
  for_loop fuel (fun st => negb (done st)) (fun st => st) search_pass st.

(** [fuel] bounds the number of passes. The result is the value returned
    and the caller's array. *)
Definition oneWire_search_rom (fuel : nat) (devs : list Z) : prog gpioE (Z * list Z) :=
  init_OneWireBB ;;
  let st := mkSearch 0 0 0 false devs in
  call (busy_wait_us_32 100) ;;
  r <- search_loop fuel st ;;
  match r with
  | inl st => Ret (nextdev st, Discovery.devs st)
  | inr r => Ret r
  end.

(** *** The line and the devices on it

    What the pin meets: a pulled-up line with devices that follow the 1-Wire
    protocol. A low pulse of 480 us or more is a reset, which the devices on
    the line answer with a presence pulse; a low pulse under 15 us starts a
    read slot or writes a 1, a longer one writes a 0. After the Search ROM
    command (0xF0), each device still taking part sends a bit of its ROM
    code, then the complement of that bit, then drops out unless the bit the
    master writes is its own. What the master samples is the wired AND of
    what the devices send. [population n] are the ROM codes of the devices on
    the line at the reset number [n]. *)
Inductive search_step : Type := SendBit | SendComplement | TakeDirection.

Inductive bus_phase : Type :=
| Idle
| Command (bits : list bool) (present : list Z)
| Searching (bit : Z) (step : search_step) (active : list Z).

Record Bus : Type := mkBus {
  latch : bool;
  driving : option Z;
  level : bool;
  phase : bus_phase;
  resets : nat
}.

Definition RESET_LOW_MIN : Z := 480.
Definition SLOT_SAMPLE : Z := 15.
Definition SEARCH_ROM : Z := 0xF0.

Definition command_value (bits : list bool) : Z :=
  fold_right (fun b acc => Z.b2z b + 2 * acc) 0 bits.

Definition wired_and (f : Z -> bool) (active : list Z) : bool := forallb f active.

Definition end_of_slot (short : bool) (b : Bus) : Bus :=
  match phase b with
  | Idle => mkBus (latch b) None true Idle (resets b)
  | Command bits present =>
      let bits := bits ++ [short] in
      let next :=
        if (length bits =? 8)%nat
        then if command_value bits =? SEARCH_ROM then Searching 0 SendBit present else Idle
        else Command bits present in
      mkBus (latch b) None true next (resets b)
  | Searching bit SendBit active =>
      mkBus (latch b) None (wired_and (fun rom => Z.testbit rom bit) active)
            (Searching bit SendComplement active) (resets b)
  | Searching bit SendComplement active =>
      mkBus (latch b) None (wired_and (fun rom => negb (Z.testbit rom bit)) active)
            (Searching bit TakeDirection active) (resets b)
  | Searching bit TakeDirection active =>
      let active := filter (fun rom => Z.testbit rom bit = short) active in
      mkBus (latch b) None true
            (if bit + 1 <? 64 then Searching (bit + 1) SendBit active else Idle)
            (resets b)
  end.

(** Whether some device pulls the line low after a reset. *)
Definition presence_pulse (present : list Z) : bool :=
  match present with
  | [] => false
  | _ :: _ => true
  end.

Definition end_of_low_pulse (population : nat -> list Z) (t : Z) (b : Bus) : Bus :=
  if RESET_LOW_MIN <=? t then
    let present := population (resets b) in
    mkBus (latch b) None (negb (presence_pulse present)) (Command [] present) (S (resets b))
  else end_of_slot (t <? SLOT_SAMPLE) b.

Definition bus (population : nat -> list Z) : handler gpioE Bus :=
  fun X e =>
    match e in gpioE X return Bus -> option (X * Bus) with
    | gpio_init _ =>
        fun b => Some (tt, mkBus false None (level b) (phase b) (resets b))
    | gpio_put _ v =>
        fun b => Some (tt, mkBus v (driving b) (level b) (phase b) (resets b))
    | gpio_set_dir _ out =>
        fun b =>
          match out, driving b with
          | true, None => Some (tt, mkBus (latch b) (Some 0) (level b) (phase b) (resets b))
          | true, Some _ => Some (tt, b)
          | false, None => Some (tt, b)
          | false, Some t =>
              if latch b
              then Some (tt, mkBus (latch b) None (level b) (phase b) (resets b))
              else Some (tt, end_of_low_pulse population t b)
          end
    | busy_wait_us_32 us =>
        fun b =>
          Some (tt, mkBus (latch b) (option_map (Z.add us) (driving b))
                          (level b) (phase b) (resets b))
    | gpio_get _ =>
        fun b =>
          match driving b with
          | Some _ => Some (latch b, b)
          | None => Some (level b, b)
          end
    end.

(** The line before the first call: released, high, devices idle. *)
Definition power_up : Bus := mkBus false None true Idle 0.

Definition static (roms : list Z) : nat -> list Z := fun _ => roms.

End Discovery.

(** ** The thermometer program: DS18B20.c *)

Module DS18B20.
Import Engine Discovery.

(** [DS18B20dev_t]: [family_code], [rom_crc] and [temperature] are
    [uint16_t], [serial_num] is [uint64_t], the other fields [uint8_t]. *)
Record DS18B20dev_t : Type := mkDev {
  family_code : Z;
  rom_crc : Z;
  serial_num : Z;
  temperature : Z;
  alarm_th : Z;
  alarm_tl : Z;
  config : Z
}.

(** The [uint64_t] member [d] of a union with eight bytes [a], on the
    little-endian Cortex-M0+: [d] from the bytes, and the bytes from [d]. *)
Definition union_d (a : list Z) : Z := fold_right (fun b d => b + 256 * d) 0 a.
Definition union_a (d : Z) : list Z := map (union_byte d) (seqZ 0 8).

(** [u_a] are the bytes of the local union [u] at entry, which C leaves
    unspecified. The result is the value returned and [*dev] after the
    call. *)
Definition get_DS18_rom (u_a : list Z) (dev : DS18B20dev_t)
  : prog pioE (bool * DS18B20dev_t) :=
  oneWire_write_byte 0x33 true ;;
  r <- oneWire_read_bytes u_a 8 ;;
  let '(stat, u_a) := r in
  bad <- (if negb (stat =? ONE_WIRE_NO_ERROR) then Ret true
          else a0 <- load u_a 0 ;; Ret (negb (a0 =? 0x28))) ;;
  if bad then
    Ret (false, mkDev 0 (rom_crc dev) (serial_num dev) (temperature dev)
                      (alarm_th dev) (alarm_tl dev) (config dev))
  else
    let serial := Z.land (Z.shiftr (union_d u_a) 8) 0xFFFFFFFFFFFF in
    a7 <- load u_a 7 ;;
    Ret (true, mkDev 0x28 (u16 a7) serial (temperature dev)
                     (alarm_th dev) (alarm_tl dev) (config dev)).

Definition send_DS18_match_rom (dev : DS18B20dev_t) : prog pioE unit :=
  let u_a := union_a (u64 (Z.shiftl (serial_num dev) 8)) in
  u_a <- store u_a 0 (u8 (family_code dev)) ;;
  u_a <- store u_a 7 (u8 (rom_crc dev)) ;;
  oneWire_write_byte 0x55 true ;;
  for_each 4
    (fun i => i <? 8)
    (fun i => i + 2)
    (fun i =>
       hi <- load u_a (i + 1) ;;
       lo <- load u_a i ;;
       oneWire_write_uint (u16 (Z.shiftl (u16 hi) 8 + lo)) true ;;
       Ret i)
    0 ;;
  Ret tt.

Definition send_DS18_skip_rom : prog pioE unit :=
  oneWire_write_byte 0xCC true ;;
  Ret tt.

(** The three fields that [search_DS18_rom] sets from a ROM code. *)
Definition rom_fields (rom : Z) (dev : DS18B20dev_t) : DS18B20dev_t :=
  mkDev (u16 (Z.land rom 0xFF))
        (u16 (Z.land (Z.shiftr rom 56) 0xFF))
        (Z.land (Z.shiftr rom 8) 0xFFFFFFFFFFFF)
        (temperature dev) (alarm_th dev) (alarm_tl dev) (config dev).

(** [malloc(sizeof(DS18B20dev_t))]: [None] for a null pointer, otherwise an
    object whose contents are whatever the heap held. *)
Inductive heapE : Type -> Type :=
| malloc_dev : heapE (option DS18B20dev_t).

(** The caller's array of pointers is given by what each entry points
    to; [None] for a pointer that cannot be dereferenced. One turn of the
    loop of [search_DS18_rom], on [(i, devs)]: *)
Definition new_dev (roms : list Z) (st : Z * list (option DS18B20dev_t))
  : prog (sumE gpioE heapE) (Z * list (option DS18B20dev_t)) :=
  let '(i, devs) := st in
  p <- call (inrE malloc_dev) ;;
  devs <- store_at devs i p ;;
  match p with
  | None => Abort UndefinedBehaviour
  | Some dev =>
      rom <- load roms i ;;
      devs <- store_at devs i (Some (rom_fields rom dev)) ;;
      Ret (i, devs)
  end.

(** [roms] are the entries of the local array [roms[16]] at entry. *)
Definition search_DS18_rom (fuel : nat) (roms : list Z) (devs : list (option DS18B20dev_t))
  : prog (sumE gpioE heapE) (Z * list (option DS18B20dev_t)) :=
  r <- translate (@inlE gpioE heapE) (oneWire_search_rom fuel roms) ;;
  let '(num_roms, roms) := r in
  st <- for_each (Z.to_nat num_roms)
          (fun '(i, devs) => i <? num_roms)
          (fun '(i, devs) => (i + 1, devs))
          (new_dev roms)
          (0, devs) ;;
  Ret (num_roms, snd st).

Definition get_DS18_scratch (u_a : list Z) (dev : DS18B20dev_t)
  : prog pioE (bool * DS18B20dev_t) :=
  send_DS18_match_rom dev ;;
  oneWire_write_byte 0xBE true ;;
  r <- oneWire_read_bytes u_a 9 ;;
  let '(stat, u_a) := r in
  if negb (stat =? ONE_WIRE_NO_ERROR) then Ret (false, dev)
  else
    a1 <- load u_a 1 ;;
    a0 <- load u_a 0 ;;
    a2 <- load u_a 2 ;;
    a3 <- load u_a 3 ;;
    a4 <- load u_a 4 ;;
    Ret (true, mkDev (family_code dev) (rom_crc dev) (serial_num dev)
                     (u16 (Z.lor (Z.shiftl a1 8) a0)) (u8 a2) (u8 a3) (u8 a4)).

(** [wait] is not used by the function. *)
Definition convert_DS18_temp (wait : bool) : prog (sumE pioE gpioE) bool :=
  translate (@inlE pioE gpioE) send_DS18_skip_rom ;;
  translate (@inlE pioE gpioE) (oneWire_write_byte 0x44 true) ;;
  call (inrE (busy_wait_us_32 100)) ;;
  translate (@inlE pioE gpioE) (oneWire_wait_for_idle true) ;;
  Ret true.

(** A heap that hands out the objects of a list, then null pointers. *)
Definition heap : handler heapE (list (option DS18B20dev_t)) :=
  fun X e =>
    match e in heapE X return list (option DS18B20dev_t)
                              -> option (X * list (option DS18B20dev_t)) with
    | malloc_dev =>
        fun s =>
          match s with
          | p :: rest => Some (p, rest)
          | [] => Some (None, [])
          end
    end.

End DS18B20.

(** ** What the discovery engine is checked against *)

Module DiscoverySpec.
Import Discovery.

Definition word64 (z : Z) : Prop := 0 <= z < 2 ^ 64.

(** Bit [p] of a ROM code or of one of the two bitmaps. *)
Definition tb (z : Z) (p : nat) : bool := Z.testbit z (Z.of_nat p).

(** The three operations of [oneWire_search_rom] on its bitmaps. *)
Definition flagged (x : Z) (p : nat) : bool :=
  negb (Z.land x (bit64 (Z.of_nat p)) =? 0).
Definition set_bit (x : Z) (p : nat) : Z := Z.lor x (bit64 (Z.of_nat p)).
Definition clear_bit (x : Z) (p : nat) : Z := Z.land x (not64 (bit64 (Z.of_nat p))).

(** *** The search without the pin

    One bit of the walk, for the devices [active] still taking part: the
    devices that stay, and the two bitmaps. [None] when both reads give 1. *)
Definition walk_step (p : nat) (active : list Z) (current discrepancy : Z)
  : option (list Z * (Z * Z)) :=
  let wo1 := wired_and (fun rom => tb rom p) active in
  let wo2 := wired_and (fun rom => negb (tb rom p)) active in
  if xorb wo1 wo2 then
    Some (filter (fun rom => tb rom p = wo1) active,
          (if wo1 then set_bit current p else clear_bit current p,
           clear_bit discrepancy p))
  else if Bool.eqb wo1 false && Bool.eqb wo2 false then
    if flagged discrepancy p then
      Some (filter (fun rom => tb rom p = flagged current p) active,
            (current, discrepancy))
    else
      Some (filter (fun rom => tb rom p = true) active,
            (set_bit current p, set_bit discrepancy p))
  else None.

(** [n] bits of the walk from bit [p] on. *)
Fixpoint walk_from (n : nat) (p : nat) (active : list Z) (current discrepancy : Z)
  : option (Z * Z) :=
  match n with
  | O => Some (current, discrepancy)
  | S n' =>
      match walk_step p active current discrepancy with
      | Some (active', (current', discrepancy')) =>
          walk_from n' (S p) active' current' discrepancy'
      | None => None
      end
  end.

(** The loop over the discrepancies, from bit [n - 1] down to bit 0: the two
    bitmaps, and whether the loop ran to its end (no [break]). *)
Fixpoint settle_from (n : nat) (current discrepancy : Z) : Z * Z * bool :=
  match n with
  | O => (current, discrepancy, true)
  | S p =>
      if flagged discrepancy p then
        if flagged current p then (clear_bit current p, discrepancy, false)
        else settle_from p current (clear_bit discrepancy p)
      else settle_from p current discrepancy
  end.

(** The passes over a line with the devices [roms]: the ROM codes recorded,
    in order. [None] when the fuel runs out or a walk fails. *)
Fixpoint passes (fuel : nat) (roms : list Z) (current discrepancy : Z)
  : option (list Z) :=
  match fuel with
  | O => None
  | S fuel' =>
      match walk_from 64 0 roms current discrepancy with
      | Some (current, discrepancy) =>
          let '(current', discrepancy', finished) := settle_from 64 current discrepancy in
          if finished then Some [current]
          else option_map (cons current) (passes fuel' roms current' discrepancy')
      | None => None
      end
  end.

(** [k] passes none of which ends the search: the two bitmaps after them
    and the ROM codes recorded. *)
Fixpoint unfinished (k : nat) (roms : list Z) (current discrepancy : Z)
  : option (Z * Z * list Z) :=
  match k with
  | O => Some (current, discrepancy, [])
  | S k' =>
      match walk_from 64 0 roms current discrepancy with
      | Some (current, discrepancy) =>
          let '(current', discrepancy', finished) := settle_from 64 current discrepancy in
          if finished then None
          else
            match unfinished k' roms current' discrepancy' with
            | Some (c, d, found) => Some (c, d, current :: found)
            | None => None
            end
      | None => None
      end
  end.

(** The values that [oneWire_search_rom] and the status-returning calls use
    for errors. *)
Definition error_codes : list Z :=
  [ONE_WIRE_POSSIBLE_FIFO_OVERFLOW; ONE_WIRE_NOT_ENOUGH_TX_FIFO_SPACE;
   ONE_WIRE_NOT_ENOUGH_DATA_IN_RX_FIFO; ONE_WIRE_READ_CRC_FAILURE;
   ONE_WIRE_SEARCH_ROM_FAILURE; ONE_WIRE_ILLEGAL_DATA_SIZE_REQ].

(** The rest of a search, seen from inside the loop over the discrepancies
    of a pass, when bits [k] and above have been dealt with. *)
Definition finish (fuel : nat) (roms : list Z) (k : nat) (current discrepancy : Z)
  : option (list Z) :=
  let '(current', discrepancy', finished) := settle_from k current discrepancy in
  if finished then Some [] else passes fuel roms current' discrepancy'.

(** *** The trie of the ROM codes

    A node at depth [k] is a set of devices that agree on bits 0 .. k-1. It
    is a branch point when some of them have bit [k] set and some have it
    clear. [depth] counts the bits left. *)
Definition ones (k : nat) (node : list Z) : list Z := filter (fun rom => tb rom k = true) node.
Definition zeros (k : nat) (node : list Z) : list Z := filter (fun rom => tb rom k = false) node.

Fixpoint branch_points (depth k : nat) (node : list Z) : nat :=
  match depth with
  | O => 0
  | S depth' =>
      match ones k node, zeros k node with
      | [], _ => branch_points depth' (S k) node
      | _, [] => branch_points depth' (S k) node
      | n1, n0 => (1 + branch_points depth' (S k) n1 + branch_points depth' (S k) n0)%nat
      end
  end.

(** The leaves under a node, the branch with the bit set first. *)
Fixpoint leaves (depth k : nat) (node : list Z) : list Z :=
  match depth with
  | O => take 1 node
  | S depth' =>
      match ones k node, zeros k node with
      | [], n0 => leaves depth' (S k) n0
      | n1, [] => leaves depth' (S k) n1
      | n1, n0 => leaves depth' (S k) n1 ++ leaves depth' (S k) n0
      end
  end.

(** What the two reads of a bit give at a node that is not empty. *)
Inductive reads (p : nat) (node : list Z) : bool -> bool -> Prop :=
| AllSet : zeros p node = [] -> ones p node = node -> reads p node true false
| AllClear : ones p node = [] -> zeros p node = node -> reads p node false true
| Disagree : ones p node <> [] -> zeros p node <> [] -> reads p node false false.

(** The devices that agree with [current] on bits 0 .. k-1. *)
Fixpoint active_at (roms : list Z) (current : Z) (k : nat) : list Z :=
  match k with
  | O => roms
  | S p => filter (fun rom => tb rom p = tb current p) (active_at roms current p)
  end.

(** [current] and [discrepancy] as a pass leaves them for the bits under
    [k], on the way down to a node at depth [k]: where the devices on the
    way agree on a bit, [current] has that bit and there is no flag; where
    they disagree, there is a flag. *)
Definition agree_below (k : nat) (x y : Z) : Prop :=
  forall q, (q < k)%nat -> tb x q = tb y q.

Definition on_path (roms : list Z) (current discrepancy : Z) (k : nat) : Prop :=
  forall p, (p < k)%nat ->
    let node := active_at roms current p in
    (zeros p node = [] -> tb current p = true /\ tb discrepancy p = false)
    /\ (ones p node = [] -> tb current p = false /\ tb discrepancy p = false)
    /\ (ones p node <> [] -> zeros p node <> [] -> tb discrepancy p = true).

Definition no_flags_from (k : nat) (discrepancy : Z) : Prop :=
  forall p, (k <= p)%nat -> (p < 64)%nat -> tb discrepancy p = false.

(** The line between two slots of a search, before bit [p]: released, high,
    the devices of [active] about to send bit [p], or idle after bit 63. *)
Definition walking (p : nat) (active : list Z) (resets : nat) : Bus :=
  mkBus false None true
        (if Z.of_nat p <? 64 then Searching (Z.of_nat p) SendBit active else Idle)
        resets.

(** The entries [nd], [nd + 1], ... of the caller's array overwritten. *)
Fixpoint record (devs : list Z) (nd : nat) (found : list Z) : list Z :=
  match found with
  | [] => devs
  | rom :: found' => record (<[nd := rom]> devs) (S nd) found'
  end.

(** The order of the search: [a] comes before [b] when, at the first bit
    where they differ, [a] has the 1. *)
Definition before (a b : Z) : Prop :=
  exists k, (k < 64)%nat /\ agree_below k a b /\ tb a k = true /\ tb b k = false.

End DiscoverySpec.
(** ** What the transaction engine is checked against *)

Module EngineSpec.
Import Engine.

(** The checksum of a block: [crc] at the end of the loops of
    [oneWire_CRC]. *)
Definition crc8 (block : list Z) : Z := fold_left crc_byte block 0.

Definition crc_status (crc : Z) : Z :=
  if crc =? 0 then oneWire_status ONE_WIRE_NO_ERROR
  else oneWire_status ONE_WIRE_READ_CRC_FAILURE.

(** The number of 32-bit words that carry [n] bytes, and the room left in
    a Tx FIFO that holds [level] words. *)
Definition words_needed (n : Z) : Z := (n + 3) / 4.
Definition free_slots (level : Z) : Z := ONE_WIRE_FIFODEPTH - level.

(** A Tx FIFO that holds [level] words. *)
Definition tx_of_level (level : Z) : list Z := replicate (Z.to_nat level) 0.

(** The read commands for [n] bytes: whole words, then the rest. *)
Definition read_cmds (n : Z) : list Z :=
  replicate (Z.to_nat (n / 4)) (read_cmd 32)
  ++ (if n mod 4 =? 0 then [] else [read_cmd (n mod 4 * 8)]).

(** The bytes that [num] bytes' worth of response words carry: four per
    whole word, low byte first; the last, partial word holds its bytes in
    its top bits. *)
Definition bytes_of_word (l n : Z) : list Z := map (union_byte l) (seqZ 0 n).

Fixpoint received (num : Z) (ws : list Z) : list Z :=
  match ws with
  | [] => []
  | w :: ws' =>
      if 4 <=? num then bytes_of_word w 4 ++ received (num - 4) ws'
      else bytes_of_word (Z.shiftr w (32 - num * 8)) num
  end.

(** The response words that carry a block of bytes, the way [received]
    reads them: the value of up to four bytes, low byte first; a last word
    with fewer than four bytes holds them in its top bits. *)
Definition word_of_bytes (bytes : list Z) : Z :=
  fold_right (fun b acc => b + 256 * acc) 0 bytes.

Fixpoint words_of_block (block : list Z) : list Z :=
  match block with
  | [] => []
  | b0 :: b1 :: b2 :: b3 :: rest => word_of_bytes [b0; b1; b2; b3] :: words_of_block rest
  | partial =>
      [Z.shiftl (word_of_bytes partial) (32 - Z.of_nat (length partial) * 8)]
  end.

Definition byte (b : Z) : Prop := 0 <= b < 256.


(** The command words that [oneWire_write_byte] and [oneWire_write_uint]
    write for a value. *)
Definition write_byte_cmd (data : Z) : Z := u32 (Z.shiftl (u8 data) 6 + Z.shiftl 7 2 + 0x03).
Definition write_uint_cmd (data : Z) : Z := u32 (Z.shiftl (u16 data) 6 + Z.shiftl 15 2 + 0x03).

(** Writing the words of a list to the Tx FIFO, one call each. *)
Fixpoint push_all (ws : list Z) : prog pioE unit :=
  match ws with
  | [] => Ret tt
  | w :: ws' => call (pio_sm_put_blocking w) ;; push_all ws'
  end.

(** The calls that take [wait], made with [wait = false], with the status
    they return and the caller's buffer after the call. *)
Inductive nb_call : Type :=
| CallReset
| CallWaitForIdle
| CallWriteByte (data : Z)
| CallWriteUint (data : Z)
| CallPushReadBytes (num : Z)
| CallPullReadBytes (data : list Z) (num : Z).

Definition buffer_of (c : nb_call) : list Z :=
  match c with
  | CallPullReadBytes data _ => data
  | _ => []
  end.

Definition perform (c : nb_call) : prog pioE (Z * list Z) :=
  match c with
  | CallReset => r <- oneWire_reset false ;; Ret (r, [])
  | CallWaitForIdle => r <- oneWire_wait_for_idle false ;; Ret (r, [])
  | CallWriteByte d => r <- oneWire_write_byte d false ;; Ret (r, [])
  | CallWriteUint d => r <- oneWire_write_uint d false ;; Ret (r, [])
  | CallPushReadBytes n => r <- oneWire_push_read_bytes_cmd n false ;; Ret (r, [])
  | CallPullReadBytes data n => oneWire_pull_read_bytes data n false
  end.

Definition resource_exhaustion (status : Z) : Prop :=
  status = oneWire_status ONE_WIRE_NOT_ENOUGH_TX_FIFO_SPACE
  \/ status = oneWire_status ONE_WIRE_NOT_ENOUGH_DATA_IN_RX_FIFO.

(** Hardware on which asking for a FIFO level changes nothing. *)
Class Observing {S : Type} (h : handler pioE S) : Prop := {
  full_observes : forall s b s',
    h _ pio_sm_is_tx_fifo_full s = Some (b, s') -> s' = s;
  tx_level_observes : forall s n s',
    h _ pio_sm_get_tx_fifo_level s = Some (n, s') -> s' = s;
  rx_level_observes : forall s n s',
    h _ pio_sm_get_rx_fifo_level s = Some (n, s') -> s' = s
}.

(** *** The checksum as the specification words it

    The running checksum and each input byte are eight bits, least
    significant first. *)
Module Reference.

Definition bits8 (z : Z) : list bool := map (Z.testbit z) [0; 1; 2; 3; 4; 5; 6; 7].

Definition of_bits (bs : list bool) : Z :=
  fold_right (fun b acc => Z.b2z b + 2 * acc) 0 bs.

Definition polynomial : list bool := bits8 0x18.

Definition xor_into_low (c : list bool) (b : bool) : list bool :=
  match c with
  | c0 :: cs => xorb c0 b :: cs
  | [] => []
  end.

Definition low_bit (c : list bool) : bool :=
  match c with
  | c0 :: _ => c0
  | [] => false
  end.

Definition rotate_right (c : list bool) : list bool :=
  match c with
  | c0 :: cs => cs ++ [c0]
  | [] => []
  end.

Definition step (c : list bool) (b : bool) : list bool :=
  let c := xor_into_low c b in
  let c := if low_bit c then zip_with xorb c polynomial else c in
  rotate_right c.

Definition checksum (block : list Z) : list bool :=
  fold_left (fun c byte => fold_left step (bits8 byte) c) block (bits8 0).

End Reference.

End EngineSpec.

(** ** What the thermometer program is checked against *)

Module DS18B20Spec.
Import Engine EngineSpec DS18B20.

(** The eight bytes of a ROM code, low byte first: the family code, six
    bytes of serial number, the CRC. *)
Definition rom_bytes (rom : Z) : list Z := map (union_byte rom) (seqZ 0 8).

(** The Match ROM command followed by eight bytes, two to a 16-bit
    write, the first of the two in the low half. *)
Definition match_rom_cmds (bytes : list Z) : list Z :=
  write_byte_cmd 0x55
  :: map (fun i => write_uint_cmd (bytes !!! (2 * i)%nat + 256 * bytes !!! (2 * i + 1)%nat))
         [0%nat; 1%nat; 2%nat; 3%nat].

(** The eight bytes that [send_DS18_match_rom] sends for a device. *)
Definition dev_bytes (dev : DS18B20dev_t) : list Z :=
  u8 (family_code dev)
  :: map (union_byte (u64 (Z.shiftl (serial_num dev) 8))) (seqZ 1 6)
  ++ [u8 (rom_crc dev)].


End DS18B20Spec.

(** * Facts *)

(** ** Running programs *)

Section RunFacts.
Context {E : Type -> Type} {S : Type} (h : handler E S).

Lemma run_bind {A B} (p : prog E A) (f : A -> prog E B) (s : S) :
  run h (bind p f) s =
  match run h p s with
  | Returns a s' => run h (f a) s'
  | Aborts r => Aborts r
  | Blocks s' => Blocks s'
  end.
Proof.
  revert s; induction p as [a|r|X e k IH]; intros s; simpl; try reflexivity.
  destruct (h X e s) as [[x s']|]; [apply IH | reflexivity].
Qed.

Lemma run_always {A} (P : A -> Prop) (p : prog E A) (s s' : S) (a : A) :
  always P p -> run h p s = Returns a s' -> P a.
Proof.
  revert s; induction p as [a0|r|X e k IH]; simpl; intros s HP Hrun.
  - injection Hrun as -> _. exact HP.
  - discriminate.
  - destruct (h X e s) as [[x s1]|]; [eauto | discriminate].
Qed.
End RunFacts.

Lemma always_bind {E A B} (P : B -> Prop) (p : prog E A) (f : A -> prog E B) :
  always (fun a => always P (f a)) p -> always P (bind p f).
Proof. induction p as [a|r|X e k IH]; simpl; auto. Qed.

Lemma always_weaken {E A} (P Q : A -> Prop) (p : prog E A) :
  (forall a, P a -> Q a) -> always P p -> always Q p.
Proof. intros HPQ; induction p as [a|r|X e k IH]; simpl; auto. Qed.

Lemma always_trivial {E A} (p : prog E A) : always (fun _ => True) p.
Proof. induction p as [a|r|X e k IH]; simpl; auto. Qed.


Lemma for_each_S {E St} (fuel : nat) (cond : St -> bool) (step : St -> St)
      (body : St -> prog E St) (st : St) :
  for_each (S fuel) cond step body st
  = if cond st
    then bind (body st) (fun st' => for_each fuel cond step body (step st'))
    else Ret st.
Proof. reflexivity. Qed.

Lemma for_each_0 {E St} (cond : St -> bool) (step : St -> St)
      (body : St -> prog E St) (st : St) :
  for_each 0 cond step body st = if cond st then Abort OutOfFuel else Ret st.
Proof. reflexivity. Qed.

Lemma for_loop_S {E St R} (fuel : nat) (cond : St -> bool) (step : St -> St)
      (body : St -> prog E (ctl St R)) (st : St) :
  for_loop (S fuel) cond step body st
  = if cond st
    then bind (body st) (fun c =>
           match c with
           | Continue st' => for_loop fuel cond step body (step st')
           | Break st' => Ret (inl st')
           | Return r => Ret (inr r)
           end)
    else Ret (inl st).
Proof. reflexivity. Qed.

Lemma run_bind_returns {E S A B} (h : handler E S) (p : prog E A)
      (f : A -> prog E B) (s s' : S) (b : B) :
  run h (bind p f) s = Returns b s' ->
  exists a s1, run h p s = Returns a s1 /\ run h (f a) s1 = Returns b s'.
Proof.
  rewrite run_bind. destruct (run h p s) as [a s1|r|s1]; try discriminate.
  intros H. exists a, s1. split; [reflexivity|exact H].
Qed.

Lemma run_call_returns {E S X} (h : handler E S) (e : E X) (s s' : S) (x : X) :
  run h (call e) s = Returns x s' -> h X e s = Some (x, s').
Proof.
  unfold call; simpl. destruct (h X e s) as [[x0 s0]|]; [|discriminate].
  intros [= -> ->]. reflexivity.
Qed.

Lemma always_and {E A} (P Q : A -> Prop) (p : prog E A) :
  always P p -> always Q p -> always (fun a => P a /\ Q a) p.
Proof. induction p as [a|r|X e k IH]; simpl; auto. Qed.



Lemma always_bind_any {E A B} (P : B -> Prop) (p : prog E A) (f : A -> prog E B) :
  (forall a, always P (f a)) -> always P (bind p f).
Proof.
  intros Hf. apply always_bind. eapply always_weaken; [|apply always_trivial].
  intros a _. apply Hf.
Qed.

(** A loop that keeps an invariant, for the values it returns. *)
Lemma for_loop_always {E St R} (I : St -> Prop) (Q : St + R -> Prop)
      (cond : St -> bool) (step : St -> St) (body : St -> prog E (ctl St R)) :
  (forall st, I st -> cond st = true ->
              always (fun c => match c with
                               | Continue st' => I (step st')
                               | Break st' => Q (inl st')
                               | Return r => Q (inr r)
                               end) (body st)) ->
  (forall st, I st -> cond st = false -> Q (inl st)) ->
  forall (fuel : nat) (st : St), I st -> always Q (for_loop fuel cond step body st).
Proof.
  intros Hbody Hexit. induction fuel as [|fuel IH]; intros st Hst.
  - cbn [for_loop]. destruct (cond st) eqn:Hc; cbn [always]; auto.
  - rewrite for_loop_S. destruct (cond st) eqn:Hc; [|cbn [always]; auto].
    apply always_bind. eapply always_weaken; [|apply (Hbody st Hst Hc)].
    intros [st'|st'|r] Hpost; cbn [always]; auto.
Qed.

Lemma run_translate_l {E F S T A} (h : handler E S) (g : handler F T)
      (p : prog E A) (t : T) :
  forall s : S,
    run (handle_both h g) (translate (@inlE E F) p) (s, t)
    = match run h p s with
      | Returns a s' => Returns a (s', t)
      | Aborts r => Aborts r
      | Blocks s' => Blocks (s', t)
      end.
Proof.
  induction p as [a|r|X e k IH]; intros s; cbn [translate run]; try reflexivity.
  cbn [handle_both fst snd].
  destruct (h X e s) as [[x s']|]; [apply IH | reflexivity].
Qed.

Lemma always_translate {E F A} (into : forall X, E X -> F X) (P : A -> Prop)
      (p : prog E A) :
  always P p -> always P (translate into p).
Proof. induction p as [a|r|X e k IH]; cbn [translate always]; auto. Qed.

(** ** The transaction engine *)

Module EngineFacts.
Import Engine EngineSpec.

(** Cases over a bounded integer. *)
Ltac cases_between n lo hi :=
  let rec go k :=
    match eval cbv in (k <=? hi) with
    | true =>
        let H := fresh in
        let k' := eval cbv in (k + 1) in
        destruct (Z.eq_dec n k) as [->|H]; [ | go k' ]
    | false => exfalso; lia
    end in
  go constr:(lo).

(** [oneWire_pull_read_data] keeps the low 16 bits of the FIFO word and
    shifts those. *)
Lemma pull_read_data_run (num_bits w : Z) (t r : list Z) :
  1 <= num_bits <= 32 ->
  run fifo (oneWire_pull_read_data num_bits) (mkFifos t (w :: r))
  = Returns (u32 (Z.shiftr (w mod 2 ^ 16) (32 - num_bits))) (mkFifos t r).
Proof.
  intros H. cases_between num_bits 1 32; reflexivity.
Qed.

(** C1 (the code departs from it): the word [0xAB000000] answers a read of 8
    bits. Its top 8 bits, right-justified, are [0xAB]; the call returns 0,
    because the word passes through a 16-bit local before the shift. *)
Theorem pull_read_data_loses_high_half :
  run fifo (oneWire_pull_read_data 8) (mkFifos [] [0xAB000000])
  = Returns 0 (mkFifos [] [])
  /\ Z.shiftr 0xAB000000 (32 - 8) = 0xAB.
Proof. split; reflexivity. Qed.

(** The status of a non-blocking [oneWire_push_read_bytes_cmd], for each
    level of the Tx FIFO. *)
Lemma push_read_bytes_cmd_nonblocking_status (n level : Z) :
  1 <= n <= 16 -> 0 <= level <= 4 ->
  (exists s, run fifo (oneWire_push_read_bytes_cmd n false) (mkFifos (tx_of_level level) [])
     = Returns (oneWire_status ONE_WIRE_NOT_ENOUGH_TX_FIFO_SPACE) s)
  <-> (level = 0 /\ 2 <= n) \/ level = 1.
Proof.
  intros Hn Hl.
  cases_between level 0 4; cases_between n 1 16; split; intros Hc;
    solve [ destruct Hc as [s Hs]; vm_compute in Hs; discriminate Hs
          | lia
          | eexists; reflexivity ].
Qed.

(** C2 (the code departs from it): two bytes need one command word and the
    empty Tx FIFO has four free slots, yet the non-blocking call reports
    that there is not enough room, and pushes nothing. *)
Theorem push_read_bytes_cmd_refuses_empty_fifo :
  run fifo (oneWire_push_read_bytes_cmd 2 false) (mkFifos [] [])
  = Returns (oneWire_status ONE_WIRE_NOT_ENOUGH_TX_FIFO_SPACE) (mkFifos [] [])
  /\ words_needed 2 = 1 /\ free_slots 0 = 4.
Proof. repeat split; reflexivity. Qed.

(** The single-value reads return a status on their error paths only. *)
Ltac single_read_never_zero :=
  match goal with
  | |- always ?P (bind (and_then (negb ?wait) ?q) ?k) =>
      assert (forall full : bool, always P (k full)) as Hrest;
      [ intros [|]; cbv beta iota;
        [ discriminate
        | cbn [bind call always oneWire_push_read_cmd oneWire_pull_read_data
               Z.gtb Z.ltb Z.compare Pos.compare Pos.compare_cont orb];
          intros _ w; unfold shr32; cbn; discriminate ]
      | destruct wait; cbn [negb and_then bind call always];
        [ exact (Hrest false) | exact Hrest ] ]
  end.

Lemma read_byte_never_zero (data : Z) (wait : bool) :
  always (fun r => fst r <> Some (oneWire_status ONE_WIRE_NO_ERROR))
         (oneWire_read_byte data wait).
Proof. unfold oneWire_read_byte. single_read_never_zero. Qed.

Lemma read_uint_never_zero (data : Z) (wait : bool) :
  always (fun r => fst r <> Some (oneWire_status ONE_WIRE_NO_ERROR))
         (oneWire_read_uint data wait).
Proof. unfold oneWire_read_uint. single_read_never_zero. Qed.

Lemma read_ulong_never_zero (data : Z) (wait : bool) :
  always (fun r => fst r <> Some (oneWire_status ONE_WIRE_NO_ERROR))
         (oneWire_read_ulong data wait).
Proof. unfold oneWire_read_ulong. single_read_never_zero. Qed.

(** C3 (the code departs from it): with room in the Tx FIFO and a response
    word in the Rx FIFO, each of the three single-value reads pushes its
    command, pulls the word, writes through its pointer, and reaches the
    end of its body: no status is returned, where 0 is documented. On no
    hardware and for no value of [wait] does one of them return status 0. *)
Theorem single_reads_return_no_status :
  (run fifo (oneWire_read_byte 0xEE true) (mkFifos [] [0x12345678])
   = Returns (None, 0) (mkFifos [read_cmd 8] [])
   /\ run fifo (oneWire_read_uint 0xEEEE true) (mkFifos [] [0x12345678])
      = Returns (None, 0) (mkFifos [read_cmd 16] [])
   /\ run fifo (oneWire_read_ulong 0xEEEEEEEE true) (mkFifos [] [0x12345678])
      = Returns (None, 0x5678) (mkFifos [read_cmd 32] []))
  /\ (forall (S : Type) (h : handler pioE S) (data : Z) (wait : bool) (s s' : S)
             (status : option Z) (data' : Z),
         run h (oneWire_read_byte data wait) s = Returns (status, data') s'
         \/ run h (oneWire_read_uint data wait) s = Returns (status, data') s'
         \/ run h (oneWire_read_ulong data wait) s = Returns (status, data') s' ->
         status <> Some (oneWire_status ONE_WIRE_NO_ERROR)).
Proof.
  split; [repeat split; reflexivity|].
  intros S h data wait s s' status data' [Hrun|[Hrun|Hrun]].
  - exact (run_always h _ _ _ _ _ (read_byte_never_zero data wait) Hrun).
  - exact (run_always h _ _ _ _ _ (read_uint_never_zero data wait) Hrun).
  - exact (run_always h _ _ _ _ _ (read_ulong_never_zero data wait) Hrun).
Qed.

Lemma single_reads_return_no_status_witness :
  @None Z <> Some (oneWire_status ONE_WIRE_NO_ERROR).
Proof.
  apply (proj2 single_reads_return_no_status Fifos fifo 0xEE true
               (mkFifos [] [0x12345678]) (mkFifos [read_cmd 8] []) None 0).
  left. reflexivity.
Defined.

(** C6: for 1 <= n <= 16 the blocking [oneWire_push_read_bytes_cmd] is the
    program that writes the words of [read_cmds n] to the Tx FIFO, in
    order, makes no other call, and returns 0; [oneWire_read_bytes] starts
    with exactly these writes. [read_cmds n] is floor(n/4) commands for 32
    bits followed, when n mod 4 is not 0, by one command for (n mod 4) * 8
    bits: ceil(n/4) words. *)
Theorem push_read_bytes_cmd_words (n : Z) (data : list Z) :
  1 <= n <= 16 ->
  oneWire_push_read_bytes_cmd n true
  = (push_all (read_cmds n) ;; Ret (oneWire_status ONE_WIRE_NO_ERROR))
  /\ oneWire_read_bytes data n
     = (push_all (read_cmds n) ;; oneWire_pull_read_bytes data n true)
  /\ Z.of_nat (length (read_cmds n)) = words_needed n
  /\ (forall k, (k < Z.to_nat (n / 4))%nat -> read_cmds n !! k = Some (read_cmd 32))
  /\ (n mod 4 <> 0 -> read_cmds n !! Z.to_nat (n / 4) = Some (read_cmd (n mod 4 * 8))).
Proof.
  intros Hn.
  cases_between n 1 16; (split; [reflexivity|]); (split; [reflexivity|]);
    (split; [reflexivity|]); split.
  all: try (intros Hm; first [reflexivity | exfalso; apply Hm; reflexivity]).
  all: intros k Hk; vm_compute in Hk.
  all: repeat (destruct k as [|k]; [reflexivity|]); lia.
Qed.

Lemma push_read_bytes_cmd_words_witness :
  oneWire_push_read_bytes_cmd 9 true
  = (push_all [read_cmd 32; read_cmd 32; read_cmd 8] ;;
     Ret (oneWire_status ONE_WIRE_NO_ERROR)).
Proof.
  exact (proj1 (push_read_bytes_cmd_words 9 [] ltac:(lia))).
Defined.

(** *** The checksum *)

Lemma crc8_snoc (block : list Z) (b : Z) :
  crc8 (block ++ [b]) = crc_byte (crc8 block) b.
Proof. unfold crc8. rewrite fold_left_app. reflexivity. Qed.

Lemma crc_loop_step {E} (a : list Z) (len : Z) (fuel : nat) (i crc : Z) :
  @crc_loop E (S fuel) a len (i, crc)
  = if i <? len
    then t <- load a i ;; crc_loop fuel a len (i + 1, crc_byte crc t)
    else Ret (i, crc).
Proof.
  unfold crc_loop. rewrite for_each_S. cbv beta iota.
  destruct (i <? len); [|reflexivity].
  unfold load. destruct (i <? 0); [reflexivity|].
  destruct (a !! Z.to_nat i); reflexivity.
Qed.

Lemma crc_loop_eq {E} (a : list Z) (len : Z) (fuel : nat) (i : Z) :
  0 <= i <= len -> len <= Z.of_nat (length a) -> fuel = Z.to_nat (len - i) ->
  @crc_loop E fuel a len (i, crc8 (take (Z.to_nat i) a))
  = Ret (len, crc8 (take (Z.to_nat len) a)).
Proof.
  revert i; induction fuel as [|fuel IH]; intros i Hi Hlen Hfuel.
  - assert (i = len) as -> by lia.
    unfold crc_loop. rewrite for_each_0. cbv beta iota.
    rewrite Z.ltb_irrefl. reflexivity.
  - rewrite crc_loop_step.
    destruct (Z.ltb_spec i len) as [Hlt|]; [|lia].
    unfold load. destruct (Z.ltb_spec i 0) as [|_]; [lia|].
    destruct (a !! Z.to_nat i) as [t|] eqn:Ht.
    2:{ apply lookup_ge_None in Ht. lia. }
    cbn [bind]. rewrite <- crc8_snoc, <- (take_S_r _ _ _ Ht).
    replace (S (Z.to_nat i)) with (Z.to_nat (i + 1)) by lia.
    apply IH; lia.
Qed.

(** [oneWire_CRC] on the first [len] bytes of an array that holds them. *)
Lemma oneWire_CRC_eq {E} (a : list Z) (len : Z) :
  len <= Z.of_nat (length a) ->
  @oneWire_CRC E a len = Ret (crc_status (crc8 (take (Z.to_nat len) a))).
Proof.
  intros Hlen. unfold oneWire_CRC.
  destruct (Z.le_gt_cases 0 len) as [Hpos|Hneg].
  - pose proof (@crc_loop_eq E a len (Z.to_nat len) 0) as Hloop.
    change (crc8 (take (Z.to_nat 0) a)) with 0 in Hloop.
    rewrite Hloop by lia. cbn [bind snd].
    unfold crc_status.
    destruct (crc8 _ =? 0); reflexivity.
  - replace (Z.to_nat len) with O by lia.
    unfold crc_loop. rewrite for_each_0. cbv beta iota.
    destruct (Z.ltb_spec 0 len); [lia|]. reflexivity.
Qed.

Lemma crc_bit_range (ct : Z * Z) : 0 <= fst (crc_bit ct) < 256.
Proof.
  destruct ct as [crc t]. unfold crc_bit. cbv zeta. cbn [fst].
  apply Z.mod_pos_bound. reflexivity.
Qed.

Lemma crc_byte_range (crc t : Z) : 0 <= crc_byte crc t < 256.
Proof.
  unfold crc_byte. change 8%nat with (S 7). rewrite Nat.iter_succ.
  apply crc_bit_range.
Qed.

Lemma crc8_range (block : list Z) : 0 <= crc8 block < 256.
Proof.
  destruct block as [|b block _] using rev_ind.
  - unfold crc8; cbn [fold_left]; lia.
  - rewrite crc8_snoc. apply crc_byte_range.
Qed.

(** Feeding the register its own value clears it. *)
Lemma crc_byte_self (c : Z) : 0 <= c < 256 -> crc_byte c c = 0.
Proof.
  intros Hc.
  assert (forallb (fun c => crc_byte c c =? 0) (seqZ 0 256) = true) as Hall
    by (vm_compute; reflexivity).
  rewrite forallb_forall in Hall.
  apply Z.eqb_eq, Hall, list_elem_of_In, elem_of_seqZ. lia.
Qed.

Lemma crc8_append_own_checksum (block : list Z) :
  crc8 (block ++ [crc8 block]) = 0.
Proof. rewrite crc8_snoc. apply crc_byte_self, crc8_range. Qed.

(** *** The checksum of the code and the checksum of the specification *)

Lemma byte_cases (P : Z -> Prop) (f : Z -> bool) :
  (forall c, f c = true -> P c) ->
  forallb f (seqZ 0 256) = true ->
  forall c, 0 <= c < 256 -> P c.
Proof.
  intros Hf Hall c Hc. apply Hf.
  rewrite forallb_forall in Hall.
  apply Hall, list_elem_of_In, elem_of_seqZ. lia.
Qed.

Lemma bits8_u8 (t : Z) : Reference.bits8 (u8 t) = Reference.bits8 t.
Proof.
  unfold Reference.bits8, u8. cbn [map].
  rewrite !Z.mod_pow2_bits_low by lia. reflexivity.
Qed.

Lemma crc_byte_u8 (c t : Z) : crc_byte c (u8 t) = crc_byte c t.
Proof. unfold crc_byte, u8. rewrite Z.mod_mod by lia. reflexivity. Qed.

Lemma of_bits_bits8 (c : Z) : 0 <= c < 256 -> Reference.of_bits (Reference.bits8 c) = c.
Proof.
  revert c. apply (byte_cases _ (fun c => Reference.of_bits (Reference.bits8 c) =? c)).
  - intros c. apply Z.eqb_eq.
  - vm_compute. reflexivity.
Qed.

(** One step of the specification against one turn of the inner loop: the
    register of the code after the turn depends on the input byte through
    its low bit only; 256 x 2 cases. *)
Lemma crc_bit_low (c t : Z) :
  fst (crc_bit (c, t)) = fst (crc_bit (c, Z.b2z (Z.testbit t 0))).
Proof.
  unfold crc_bit. cbv zeta. cbn [fst].
  assert (Z.land t 1 = Z.b2z (Z.testbit t 0)) as Hlow.
  { change 1 with (Z.ones 1). rewrite Z.land_ones by lia.
    rewrite Z.bit0_mod. reflexivity. }
  rewrite Hlow.
  destruct (Z.testbit t 0); reflexivity.
Qed.

Lemma crc_bit_reference (c t : Z) :
  0 <= c < 256 ->
  Reference.bits8 (fst (crc_bit (c, t)))
  = Reference.step (Reference.bits8 c) (Z.testbit t 0).
Proof.
  intros Hc. rewrite crc_bit_low.
  pose (ok := fun (b : bool) (c : Z) =>
                bool_decide (Reference.bits8 (fst (crc_bit (c, Z.b2z b)))
                             = Reference.step (Reference.bits8 c) b)).
  assert (ok (Z.testbit t 0) c = true) as Hok.
  { revert c Hc.
    apply (byte_cases (fun c => ok (Z.testbit t 0) c = true) (ok (Z.testbit t 0))); auto.
    destruct (Z.testbit t 0); vm_compute; reflexivity. }
  exact (bool_decide_eq_true_1 _ Hok).
Qed.

Lemma crc_bit_snd (c t : Z) : snd (crc_bit (c, t)) = u8 (Z.shiftr t 1).
Proof. reflexivity. Qed.

(** The state of the inner loop after [n] turns. *)
Lemma crc_bits_reference (n : nat) (c t : Z) :
  (n <= 8)%nat -> 0 <= c < 256 ->
  let st := Nat.iter n crc_bit (c, u8 t) in
  0 <= fst st < 256
  /\ Reference.bits8 (fst st)
     = fold_left Reference.step (take n (Reference.bits8 t)) (Reference.bits8 c)
  /\ forall j, 0 <= j -> j + Z.of_nat n < 8 ->
               Z.testbit (snd st) j = Z.testbit t (j + Z.of_nat n).
Proof.
  intros Hn Hc. induction n as [|n IH].
  - cbv zeta. change (Nat.iter 0 crc_bit (c, u8 t)) with (c, u8 t).
    cbn [take fst snd fold_left]. split; [lia|]. split; [reflexivity|].
    intros j Hj Hj8. unfold u8. rewrite Z.mod_pow2_bits_low by lia.
    f_equal; lia.
  - cbv zeta in *. rewrite Nat.iter_succ.
    destruct IH as (Hr & Hb & Ht); [lia|].
    destruct (Nat.iter n crc_bit (c, u8 t)) as [cn tn]. cbn [fst snd] in *.
    split; [apply crc_bit_range|]. split.
    + rewrite crc_bit_reference by exact Hr.
      assert (Reference.bits8 t !! n = Some (Z.testbit t (Z.of_nat n))) as Hnth.
      { unfold Reference.bits8.
        do 8 (destruct n as [|n]; [reflexivity|]). lia. }
      rewrite (take_S_r _ _ _ Hnth), fold_left_app, <- Hb. cbn [fold_left].
      rewrite (Ht 0) by lia. reflexivity.
    + intros j Hj Hj8. rewrite crc_bit_snd. unfold u8.
      rewrite Z.mod_pow2_bits_low by lia.
      rewrite Z.shiftr_spec by lia. rewrite Ht by lia. f_equal; lia.
Qed.

Lemma crc_byte_reference (c t : Z) :
  0 <= c < 256 ->
  fold_left Reference.step (Reference.bits8 t) (Reference.bits8 c)
  = Reference.bits8 (crc_byte c t).
Proof.
  intros Hc.
  destruct (crc_bits_reference 8 c t) as (_ & Hb & _); [lia|exact Hc|].
  unfold crc_byte. rewrite Hb. reflexivity.
Qed.

Lemma checksum_reference (block : list Z) :
  Reference.checksum block = Reference.bits8 (crc8 block).
Proof.
  induction block as [|b block IH] using rev_ind.
  - reflexivity.
  - rewrite crc8_snoc. unfold Reference.checksum in *.
    rewrite fold_left_app. cbn [fold_left]. rewrite IH.
    apply crc_byte_reference, crc8_range.
Qed.

Lemma checksum_zero (block : list Z) :
  Reference.checksum block = replicate 8 false <-> crc8 block = 0.
Proof.
  rewrite checksum_reference. split.
  - intros H. rewrite <- (of_bits_bits8 (crc8 block)) by apply crc8_range.
    rewrite H. reflexivity.
  - intros ->. reflexivity.
Qed.

(** C7: on an array that holds [len] bytes, [oneWire_CRC] returns 0 when
    the checksum of the specification, run over the first [len] bytes, ends
    with all eight bits clear, and the CRC-failure status otherwise. The
    specification's checksum takes each byte least significant bit first,
    exclusive-ors the bit into the low bit of the register, exclusive-ors
    0x18 into the register when the low bit is then set, and rotates the
    register right by one. *)
Theorem oneWire_CRC_refines_reference {E} (a : list Z) (len : Z) :
  0 <= len <= Z.of_nat (length a) ->
  @oneWire_CRC E a len
  = Ret (if decide (Reference.checksum (take (Z.to_nat len) a) = replicate 8 false)
         then oneWire_status ONE_WIRE_NO_ERROR
         else oneWire_status ONE_WIRE_READ_CRC_FAILURE).
Proof.
  intros Hlen. rewrite oneWire_CRC_eq by lia. unfold crc_status.
  destruct (decide _) as [Hz|Hnz].
  - apply checksum_zero in Hz. rewrite Hz. reflexivity.
  - destruct (Z.eqb_spec (crc8 (take (Z.to_nat len) a)) 0) as [Hz|_]; [|reflexivity].
    exfalso. apply Hnz, checksum_zero, Hz.
Qed.

Lemma oneWire_CRC_refines_reference_witness :
  @oneWire_CRC pioE [0x02; 0x1C; 0xB8; 0x01; 0x00; 0x00; 0x00; 0xA2] 8
  = Ret (oneWire_status ONE_WIRE_NO_ERROR).
Proof.
  exact (oneWire_CRC_refines_reference
           [0x02; 0x1C; 0xB8; 0x01; 0x00; 0x00; 0x00; 0xA2] 8
           ltac:(cbn; lia)).
Defined.

(** *** Non-blocking calls *)

#[export] Instance fifo_observing : Observing fifo.
Proof.
  split; intros s x s' H; simpl in H; injection H as _ <-; reflexivity.
Qed.

Lemma no_error_not_exhaustion : ~ resource_exhaustion (oneWire_status ONE_WIRE_NO_ERROR).
Proof. intros [H|H]; vm_compute in H; discriminate. Qed.

Lemma crc_status_not_exhaustion (crc : Z) : ~ resource_exhaustion (crc_status crc).
Proof.
  unfold crc_status. destruct (crc =? 0); intros [H|H]; vm_compute in H; discriminate.
Qed.

(** Whatever the hardware answers, and also on an array that is too
    short, [oneWire_CRC] returns the status of the checksum of the first
    [len] bytes when it returns. *)
Lemma crc_loop_always {E} (a : list Z) (len : Z) (fuel : nat) (i : Z) :
  0 <= i <= Z.max len 0 -> i <= Z.of_nat (length a) ->
  always (fun st => snd st = crc8 (take (Z.to_nat len) a))
         (@crc_loop E fuel a len (i, crc8 (take (Z.to_nat i) a))).
Proof.
  revert i; induction fuel as [|fuel IH]; intros i Hi Hlen.
  - unfold crc_loop. rewrite for_each_0. cbv beta iota.
    destruct (Z.ltb_spec i len); [exact I|].
    cbn [always snd]. f_equal. f_equal. lia.
  - rewrite crc_loop_step.
    destruct (Z.ltb_spec i len) as [Hlt|].
    2:{ cbn [always snd]. f_equal. f_equal. lia. }
    unfold load. destruct (Z.ltb_spec i 0) as [|_]; [exact I|].
    destruct (a !! Z.to_nat i) as [t|] eqn:Ht; [|exact I].
    cbn [bind]. rewrite <- crc8_snoc, <- (take_S_r _ _ _ Ht).
    replace (S (Z.to_nat i)) with (Z.to_nat (i + 1)) by lia.
    apply lookup_lt_Some in Ht. apply IH; lia.
Qed.

Lemma oneWire_CRC_always {E} (a : list Z) (len : Z) :
  always (fun r => r = crc_status (crc8 (take (Z.to_nat len) a))) (@oneWire_CRC E a len).
Proof.
  unfold oneWire_CRC. apply always_bind.
  pose proof (@crc_loop_always E a len (Z.to_nat len) 0) as Hloop.
  change (crc8 (take (Z.to_nat 0) a)) with 0 in Hloop.
  eapply always_weaken; [|apply Hloop; lia].
  intros [i crc] Hcrc. cbn [snd] in *. rewrite Hcrc. unfold crc_status.
  destruct (crc8 _ =? 0); reflexivity.
Qed.

(** What [oneWire_pull_read_bytes] returns, on any hardware: one of its two
    early errors with the buffer as it was, or the status of the checksum
    of the first [num] bytes of the buffer as the call leaves it. *)
Lemma pull_read_bytes_always (data : list Z) (num : Z) (wait : bool) :
  always (fun '(r, data') =>
            (r = oneWire_status ONE_WIRE_ILLEGAL_DATA_SIZE_REQ /\ 16 < num /\ data' = data)
            \/ (r = oneWire_status ONE_WIRE_NOT_ENOUGH_DATA_IN_RX_FIFO
                /\ wait = false /\ data' = data)
            \/ (num <= 16 /\ r = crc_status (crc8 (take (Z.to_nat num) data'))))
         (oneWire_pull_read_bytes data num wait).
Proof.
  unfold oneWire_pull_read_bytes.
  destruct (Z.gtb_spec num 16) as [Hbig|Hsmall].
  { left. repeat split; [lia]. }
  assert (forall short : bool,
             (short = true -> wait = false) ->
             always (fun '(r, data') =>
               (r = oneWire_status ONE_WIRE_ILLEGAL_DATA_SIZE_REQ /\ 16 < num /\ data' = data)
               \/ (r = oneWire_status ONE_WIRE_NOT_ENOUGH_DATA_IN_RX_FIFO
                   /\ wait = false /\ data' = data)
               \/ (num <= 16 /\ r = crc_status (crc8 (take (Z.to_nat num) data'))))
             (if short
              then Ret (oneWire_status ONE_WIRE_NOT_ENOUGH_DATA_IN_RX_FIFO, data)
              else st <- pull_words data num ;;
                   data0 <- pull_remainder (snd st) (fst st) (num - fst st) ;;
                   r <- oneWire_CRC data0 num ;; Ret (r, data0))) as Hrest.
  { intros [|] Hw.
    - right; left. auto.
    - apply always_bind. eapply always_weaken; [|apply always_trivial].
      intros st _. apply always_bind. eapply always_weaken; [|apply always_trivial].
      intros data0 _. apply always_bind.
      eapply always_weaken; [|apply oneWire_CRC_always].
      intros r ->. right; right. split; [lia|reflexivity]. }
  destruct wait; cbn [negb and_then bind].
  - apply (Hrest false). discriminate.
  - unfold call. cbn [bind always]. intros level. apply Hrest. reflexivity.
Qed.

Section Untouched.
Context {S : Type} (h : handler pioE S) `{!Observing h}.

(** The guard shared by the four single-word calls. *)
Lemma guarded_put_untouched (w : Z) (s s' : S) (status : Z) :
  run h (full <- and_then (negb false) (call pio_sm_is_tx_fifo_full) ;;
         if full then Ret (oneWire_status ONE_WIRE_NOT_ENOUGH_TX_FIFO_SPACE)
         else (call (pio_sm_put_blocking w) ;; Ret (oneWire_status ONE_WIRE_NO_ERROR))) s
  = Returns status s' ->
  resource_exhaustion status -> s' = s.
Proof.
  intros Hrun Hres.
  apply run_bind_returns in Hrun as (full & s1 & Hfull & Hrest).
  apply run_call_returns, full_observes in Hfull as ->.
  destruct full.
  - injection Hrest as _ <-. reflexivity.
  - apply run_bind_returns in Hrest as (_ & s2 & _ & Hret).
    injection Hret as <- _.
    destruct (no_error_not_exhaustion Hres).
Qed.

Lemma push_read_bytes_cmd_untouched (num : Z) (s s' : S) (status : Z) :
  run h (oneWire_push_read_bytes_cmd num false) s = Returns status s' ->
  resource_exhaustion status -> s' = s.
Proof.
  unfold oneWire_push_read_bytes_cmd. intros Hrun Hres.
  destruct (num >? 16).
  { injection Hrun as _ <-. reflexivity. }
  apply run_bind_returns in Hrun as (short & s1 & Hshort & Hrest).
  cbn [negb and_then] in Hshort.
  apply run_bind_returns in Hshort as (level & s0 & Hlevel & Hcmp).
  apply run_call_returns, tx_level_observes in Hlevel as ->.
  injection Hcmp as _ <-.
  destruct short.
  - injection Hrest as _ <-. reflexivity.
  - exfalso. apply run_bind_returns in Hrest as (i & s2 & _ & Hrest).
    apply run_bind_returns in Hrest as (u & s3 & _ & Hret).
    injection Hret as <- _. exact (no_error_not_exhaustion Hres).
Qed.

Lemma pull_read_bytes_untouched (data : list Z) (num : Z) (s s' : S)
      (status : Z) (data' : list Z) :
  run h (oneWire_pull_read_bytes data num false) s = Returns (status, data') s' ->
  resource_exhaustion status -> s' = s /\ data' = data.
Proof.
  unfold oneWire_pull_read_bytes. intros Hrun Hres.
  destruct (num >? 16).
  { injection Hrun as _ <- <-. split; reflexivity. }
  apply run_bind_returns in Hrun as (short & s1 & Hshort & Hrest).
  cbn [negb and_then] in Hshort.
  apply run_bind_returns in Hshort as (level & s0 & Hlevel & Hcmp).
  apply run_call_returns, rx_level_observes in Hlevel as ->.
  injection Hcmp as _ <-.
  destruct short.
  - injection Hrest as _ <- <-. split; reflexivity.
  - exfalso. apply run_bind_returns in Hrest as (st & s2 & _ & Hrest).
    apply run_bind_returns in Hrest as (data0 & s3 & _ & Hrest).
    apply run_bind_returns in Hrest as (r & s4 & Hcrc & Hret).
    injection Hret as <- _ _.
    apply (run_always h _ _ _ _ _ (oneWire_CRC_always data0 num)) in Hcrc.
    subst r. exact (crc_status_not_exhaustion _ Hres).
Qed.

(** C4: on hardware where asking for a FIFO level changes nothing, a
    call made with wait = false (reset, wait for idle, write byte, write
    word, push read-bytes command, pull read bytes) that returns
    NotEnoughTxFifoSpace or NotEnoughDataInRxFifo leaves the hardware in
    the state it found, so that no word was pushed or pulled, and
    leaves the caller's buffer as it was. *)
Theorem nonblocking_error_leaves_hardware_untouched
        (c : nb_call) (s s' : S) (status : Z) (buf : list Z) :
  run h (perform c) s = Returns (status, buf) s' ->
  resource_exhaustion status ->
  s' = s /\ buf = buffer_of c.
Proof.
  intros Hrun Hres. destruct c as [| |d|d|n|data n]; cbn [perform buffer_of] in *.
  1-5: apply run_bind_returns in Hrun as (r & s1 & Hcall & Hret);
       injection Hret as <- <- <-; split; [|reflexivity].
  - exact (guarded_put_untouched _ _ _ _ Hcall Hres).
  - exact (guarded_put_untouched _ _ _ _ Hcall Hres).
  - exact (guarded_put_untouched _ _ _ _ Hcall Hres).
  - exact (guarded_put_untouched _ _ _ _ Hcall Hres).
  - exact (push_read_bytes_cmd_untouched _ _ _ _ Hcall Hres).
  - exact (pull_read_bytes_untouched _ _ _ _ _ _ Hrun Hres).
Qed.
End Untouched.

Lemma nonblocking_error_leaves_hardware_untouched_witness :
  run fifo (perform (CallPullReadBytes [7; 7] 2)) (mkFifos [1; 2] [])
  = Returns (oneWire_status ONE_WIRE_NOT_ENOUGH_DATA_IN_RX_FIFO, [7; 7]) (mkFifos [1; 2] [])
  /\ (mkFifos [1; 2] [] = mkFifos [1; 2] [] /\ [7; 7] = buffer_of (CallPullReadBytes [7; 7] 2)).
Proof.
  split; [reflexivity|].
  apply (nonblocking_error_leaves_hardware_untouched fifo
           (CallPullReadBytes [7; 7] 2) (mkFifos [1; 2] []) (mkFifos [1; 2] [])
           (oneWire_status ONE_WIRE_NOT_ENOUGH_DATA_IN_RX_FIFO) [7; 7]).
  - reflexivity.
  - right. reflexivity.
Defined.

(** *** Reading a block *)

Lemma pull_read_bytes_run (data : list Z) (num : Z) (ws t r : list Z) :
  0 <= num <= 16 ->
  Z.of_nat (length ws) = words_needed num ->
  num <= Z.of_nat (length data) ->
  run fifo (oneWire_pull_read_bytes data num true) (mkFifos t (ws ++ r))
  = Returns (crc_status (crc8 (received num ws)),
             received num ws ++ drop (Z.to_nat num) data)
            (mkFifos t r).
Proof.
  intros Hnum Hws Hdata.
  unfold oneWire_pull_read_bytes.
  destruct (Z.gtb_spec num 16) as [|_]; [lia|].
  cbn [negb and_then bind].
  rewrite run_bind.
  cases_between num 0 16.
  all: match type of Hws with _ = ?k => let k' := eval vm_compute in k in change k with k' in Hws end.
  all: repeat (destruct ws as [|? ws]; [cbn [length] in Hws; lia|]; cbn [length] in Hws).
  all: destruct ws; [clear Hws|cbn [length] in Hws; lia].
  all: repeat (destruct data as [|? data]; [cbn [length] in Hdata; lia|];
               cbn [length] in Hdata).
  all: clear Hdata Hnum.
  all: cbn [app].
  all: match goal with
       | |- context [run fifo (pull_words ?d ?n) ?s] =>
           let v := eval cbv -[union_byte] in (run fifo (pull_words d n) s) in
           change (run fifo (pull_words d n) s) with v
       end.
  all: cbv beta iota; cbn [fst snd]; rewrite run_bind.
  all: match goal with
       | |- context [run fifo (pull_remainder ?d ?i ?m) ?s] =>
           let v := eval cbv -[union_byte Z.shiftr] in (run fifo (pull_remainder d i m) s) in
           change (run fifo (pull_remainder d i m) s) with v
       end.
  all: cbv beta iota; rewrite oneWire_CRC_eq by (cbn [length]; lia).
  all: cbn [bind run].
  all: reflexivity.
Qed.

Lemma crc_status_failure (block : list Z) :
  crc_status (crc8 block) = oneWire_status ONE_WIRE_READ_CRC_FAILURE
  <-> Reference.checksum block <> replicate 8 false.
Proof.
  rewrite checksum_zero. unfold crc_status.
  destruct (Z.eqb_spec (crc8 block) 0) as [Hz|Hnz].
  - split; [intros H; vm_compute in H; discriminate | intros H; contradiction].
  - split; [intros _; exact Hnz | reflexivity].
Qed.

Lemma crc_status_success (block : list Z) :
  crc_status (crc8 block) = oneWire_status ONE_WIRE_NO_ERROR
  <-> Reference.checksum block = replicate 8 false.
Proof.
  rewrite checksum_zero. unfold crc_status.
  destruct (Z.eqb_spec (crc8 block) 0) as [Hz|Hnz].
  - split; [intros _; exact Hz | reflexivity].
  - split; [intros H; vm_compute in H; discriminate | intros H; contradiction].
Qed.

Lemma checksum_value (block : list Z) :
  Reference.of_bits (Reference.checksum block) = crc8 block.
Proof. rewrite checksum_reference. apply of_bits_bits8, crc8_range. Qed.


(** *** A block through the Rx FIFO *)

Lemma union_byte_word (b0 b1 b2 b3 : Z) :
  byte b0 -> byte b1 -> byte b2 -> byte b3 ->
  bytes_of_word (word_of_bytes [b0; b1; b2; b3]) 4 = [b0; b1; b2; b3].
Proof.
  unfold byte. intros H0 H1 H2 H3.
  unfold bytes_of_word, union_byte, word_of_bytes.
  change (seqZ 0 4) with [0; 1; 2; 3]. cbn [map fold_right].
  change 255 with (Z.ones 8). rewrite !Z.land_ones, !Z.shiftr_div_pow2 by lia.
  change (2 ^ (8 * 0)) with 1. change (2 ^ (8 * 1)) with 256.
  change (2 ^ (8 * 2)) with 65536. change (2 ^ (8 * 3)) with 16777216.
  change (2 ^ 8) with 256.
  repeat f_equal; Z.div_mod_to_equations; lia.
Qed.

Lemma union_byte_partial (partial : list Z) :
  Forall byte partial -> (1 <= length partial <= 3)%nat ->
  bytes_of_word
    (Z.shiftr (Z.shiftl (word_of_bytes partial) (32 - Z.of_nat (length partial) * 8))
              (32 - Z.of_nat (length partial) * 8))
    (Z.of_nat (length partial))
  = partial.
Proof.
  intros Hbytes Hlen.
  rewrite Z.shiftr_shiftl_l by lia. rewrite Z.sub_diag, Z.shiftl_0_r.
  destruct partial as [|b0 [|b1 [|b2 [|b3 rest]]]]; cbn [length] in Hlen; try lia.
  all: repeat match goal with
              | H : Forall byte (_ :: _) |- _ => apply Forall_cons in H as [? H]
              end.
  all: unfold byte in *.
  all: unfold bytes_of_word, union_byte, word_of_bytes.
  all: cbn [length fold_right].
  - change (seqZ 0 (Z.of_nat 1)) with [0]. cbn [map].
    change 255 with (Z.ones 8). rewrite !Z.land_ones, !Z.shiftr_div_pow2 by lia.
    change (2 ^ (8 * 0)) with 1. change (2 ^ 8) with 256.
    repeat f_equal; Z.div_mod_to_equations; lia.
  - change (seqZ 0 (Z.of_nat 2)) with [0; 1]. cbn [map].
    change 255 with (Z.ones 8). rewrite !Z.land_ones, !Z.shiftr_div_pow2 by lia.
    change (2 ^ (8 * 0)) with 1. change (2 ^ (8 * 1)) with 256. change (2 ^ 8) with 256.
    repeat f_equal; Z.div_mod_to_equations; lia.
  - change (seqZ 0 (Z.of_nat 3)) with [0; 1; 2]. cbn [map].
    change 255 with (Z.ones 8). rewrite !Z.land_ones, !Z.shiftr_div_pow2 by lia.
    change (2 ^ (8 * 0)) with 1. change (2 ^ (8 * 1)) with 256.
    change (2 ^ (8 * 2)) with 65536. change (2 ^ 8) with 256.
    repeat f_equal; Z.div_mod_to_equations; lia.
Qed.

Lemma received_words_of_block (block : list Z) :
  Forall byte block -> (length block <= 16)%nat ->
  received (Z.of_nat (length block)) (words_of_block block) = block
  /\ Z.of_nat (length (words_of_block block)) = words_needed (Z.of_nat (length block)).
Proof.
  intros Hbytes Hlen.
  assert (forall b0 b1 b2 b3 rest,
             Forall byte (b0 :: b1 :: b2 :: b3 :: rest) ->
             received (Z.of_nat (length rest)) (words_of_block rest) = rest ->
             received (Z.of_nat (length (b0 :: b1 :: b2 :: b3 :: rest)))
                      (words_of_block (b0 :: b1 :: b2 :: b3 :: rest))
             = b0 :: b1 :: b2 :: b3 :: rest) as Hwhole.
  { intros b0 b1 b2 b3 rest Hb Hrest.
    apply Forall_cons in Hb as [H0 Hb]. apply Forall_cons in Hb as [H1 Hb].
    apply Forall_cons in Hb as [H2 Hb]. apply Forall_cons in Hb as [H3 Hb].
    cbn [words_of_block received].
    destruct (Z.leb_spec 4 (Z.of_nat (length (b0 :: b1 :: b2 :: b3 :: rest))))
      as [_|Hshort]; [|cbn [length] in Hshort; lia].
    rewrite union_byte_word by assumption.
    replace (Z.of_nat (length (b0 :: b1 :: b2 :: b3 :: rest)) - 4)
      with (Z.of_nat (length rest)) by (cbn [length]; lia).
    rewrite Hrest. reflexivity. }
  assert (forall partial,
             Forall byte partial -> (length partial <= 3)%nat ->
             received (Z.of_nat (length partial)) (words_of_block partial) = partial)
    as Hpartial.
  { intros partial Hb Hl.
    destruct partial as [|b0 rest0]; [reflexivity|].
    pose proof (union_byte_partial (b0 :: rest0) Hb) as Hu.
    destruct rest0 as [|b1 [|b2 [|b3 rest]]]; cbn [length] in Hl; try lia;
      (cbn [words_of_block received];
       match goal with
       | |- context [4 <=? ?n] =>
           destruct (Z.leb_spec 4 n) as [Hbig|_]; [cbn [length] in Hbig; lia|]
       end;
       apply Hu; cbn [length]; lia). }
  split.
  - do 4 (destruct block as [|? [|? [|? [|? block]]]];
          [apply Hpartial; [assumption|cbn [length]; lia]..|];
          apply Hwhole; [assumption|];
          repeat match goal with
                 | H : Forall byte (_ :: _) |- _ => apply Forall_cons in H as [_ H]
                 end;
          cbn [length] in Hlen).
    destruct block; [reflexivity|cbn [length] in Hlen; lia].
  - do 17 (destruct block as [|? block]; [reflexivity|]).
    cbn [length] in Hlen. lia.
Qed.

Lemma pull_read_bytes_round_trip (block data t r : list Z) :
  Forall byte block -> (length block < 16)%nat ->
  (length block < length data)%nat ->
  run fifo
      (oneWire_pull_read_bytes data (Z.of_nat (length block) + 1) true)
      (mkFifos t (words_of_block (block ++ [crc8 block]) ++ r))
  = Returns (oneWire_status ONE_WIRE_NO_ERROR,
             (block ++ [crc8 block]) ++ drop (S (length block)) data)
            (mkFifos t r).
Proof.
  intros Hbytes Hlen Hdata.
  assert (Forall byte (block ++ [crc8 block])) as Hsent.
  { apply Forall_app. split; [assumption|].
    constructor; [apply crc8_range | constructor]. }
  assert (length (block ++ [crc8 block]) = S (length block)) as Hl.
  { rewrite length_app. cbn [length]. lia. }
  destruct (received_words_of_block (block ++ [crc8 block]) Hsent) as [Hrecv Hwords];
    [lia|].
  rewrite Hl in Hrecv, Hwords.
  replace (Z.of_nat (length block) + 1) with (Z.of_nat (S (length block))) by lia.
  rewrite pull_read_bytes_run by (assumption || lia).
  rewrite Hrecv, crc8_append_own_checksum, Nat2Z.id. reflexivity.
Qed.

(** C5: [oneWire_pull_read_bytes], as [oneWire_read_bytes] calls it, with
    the response words of a block of [num] bytes in the Rx FIFO, pulls
    them, leaves the block in the buffer, and returns ReadCrcFailure
    exactly when the CRC-8 of the whole block, last byte included, is not
    zero, and 0 exactly when it is zero. On any hardware and for either
    value of [wait], a call that returns ReadCrcFailure leaves a block
    whose CRC-8 is not zero, and a call that returns anything but its two
    early errors with such a block returns ReadCrcFailure. Round trip: a
    block followed by its CRC-8 byte passes [oneWire_CRC] with status 0,
    and when the words that carry such a block of at most 16 bytes are in
    the Rx FIFO, the call returns 0 with the block in the buffer. *)
Theorem read_bytes_crc_status :
  (forall (data : list Z) (num : Z) (ws t r : list Z),
      0 <= num <= 16 ->
      Z.of_nat (length ws) = words_needed num ->
      num <= Z.of_nat (length data) ->
      exists status,
        run fifo (oneWire_pull_read_bytes data num true) (mkFifos t (ws ++ r))
        = Returns (status, received num ws ++ drop (Z.to_nat num) data) (mkFifos t r)
        /\ (status = oneWire_status ONE_WIRE_READ_CRC_FAILURE
            <-> Reference.checksum (received num ws) <> replicate 8 false)
        /\ (status = oneWire_status ONE_WIRE_NO_ERROR
            <-> Reference.checksum (received num ws) = replicate 8 false))
  /\ (forall (S : Type) (h : handler pioE S) (data : list Z) (num : Z) (wait : bool)
             (s s' : S) (status : Z) (data' : list Z),
         run h (oneWire_pull_read_bytes data num wait) s = Returns (status, data') s' ->
         (status = oneWire_status ONE_WIRE_READ_CRC_FAILURE ->
          Reference.checksum (take (Z.to_nat num) data') <> replicate 8 false)
         /\ (status <> oneWire_status ONE_WIRE_ILLEGAL_DATA_SIZE_REQ ->
             status <> oneWire_status ONE_WIRE_NOT_ENOUGH_DATA_IN_RX_FIFO ->
             Reference.checksum (take (Z.to_nat num) data') <> replicate 8 false ->
             status = oneWire_status ONE_WIRE_READ_CRC_FAILURE))
  /\ (forall block : list Z,
         @oneWire_CRC pioE
           (block ++ [Reference.of_bits (Reference.checksum block)])
           (Z.of_nat (length block) + 1)
         = Ret (oneWire_status ONE_WIRE_NO_ERROR))
  /\ (forall block data t r : list Z,
         Forall byte block -> (length block < 16)%nat ->
         (length block < length data)%nat ->
         let sent := block ++ [Reference.of_bits (Reference.checksum block)] in
         run fifo
             (oneWire_pull_read_bytes data (Z.of_nat (length block) + 1) true)
             (mkFifos t (words_of_block sent ++ r))
         = Returns (oneWire_status ONE_WIRE_NO_ERROR,
                    sent ++ drop (S (length block)) data)
                   (mkFifos t r)).
Proof.
  split; [|split; [|split]].
  - intros data num ws t r Hnum Hws Hdata.
    exists (crc_status (crc8 (received num ws))).
    split; [apply pull_read_bytes_run; assumption|].
    split; [apply crc_status_failure | apply crc_status_success].
  - intros S h data num wait s s' status data' Hrun.
    pose proof (run_always h _ _ _ _ _ (pull_read_bytes_always data num wait) Hrun)
      as Hpost. cbv beta iota in Hpost.
    destruct Hpost as [(-> & _ & _)|[(-> & _ & _)|(_ & ->)]].
    + split; [intros H; vm_compute in H; discriminate | intros H; contradiction].
    + split; [intros H; vm_compute in H; discriminate | intros _ H; contradiction].
    + split; [apply crc_status_failure | intros _ _; apply crc_status_failure].
  - intros block. rewrite checksum_value.
    rewrite oneWire_CRC_eq by (rewrite length_app; cbn [length]; lia).
    replace (Z.to_nat (Z.of_nat (length block) + 1)) with (length (block ++ [crc8 block]))
      by (rewrite length_app; cbn [length]; lia).
    rewrite firstn_all, crc8_append_own_checksum. reflexivity.
  - intros block data t r Hbytes Hlen Hdata. cbv zeta.
    rewrite checksum_value. apply pull_read_bytes_round_trip; assumption.
Qed.

Lemma read_bytes_crc_status_witness :
  (exists status,
    run fifo (oneWire_pull_read_bytes (replicate 8 0) 8 true)
        (mkFifos [] ([0x01B81C02; 0xA2000000] ++ []))
    = Returns (status, received 8 [0x01B81C02; 0xA2000000] ++ drop (Z.to_nat 8) (replicate 8 0))
              (mkFifos [] [])
    /\ (status = oneWire_status ONE_WIRE_READ_CRC_FAILURE
        <-> Reference.checksum (received 8 [0x01B81C02; 0xA2000000]) <> replicate 8 false)
    /\ (status = oneWire_status ONE_WIRE_NO_ERROR
        <-> Reference.checksum (received 8 [0x01B81C02; 0xA2000000]) = replicate 8 false))
  /\ (let block := [0x50; 0x05; 0x4B; 0x46; 0x7F; 0xFF; 0x0C; 0x10] in
      let sent := block ++ [Reference.of_bits (Reference.checksum block)] in
      run fifo
          (oneWire_pull_read_bytes (replicate 9 0) (Z.of_nat (length block) + 1) true)
          (mkFifos [] (words_of_block sent ++ []))
      = Returns (oneWire_status ONE_WIRE_NO_ERROR,
                 sent ++ drop (S (length block)) (replicate 9 0))
                (mkFifos [] [])).
Proof.
  split.
  - apply (proj1 read_bytes_crc_status (replicate 8 0) 8 [0x01B81C02; 0xA2000000] [] []).
    + lia.
    + reflexivity.
    + cbn; lia.
  - apply (proj2 (proj2 (proj2 read_bytes_crc_status))
             [0x50; 0x05; 0x4B; 0x46; 0x7F; 0xFF; 0x0C; 0x10] (replicate 9 0) [] []).
    + repeat (constructor; [unfold byte; lia|]). constructor.
    + cbn; lia.
    + cbn; lia.
Defined.

(** *** The block reads against a Tx FIFO that nothing drains *)

Lemma push_read_bytes_cmd_eq (n : Z) :
  1 <= n <= 16 ->
  oneWire_push_read_bytes_cmd n true
  = (push_all (read_cmds n) ;; Ret (oneWire_status ONE_WIRE_NO_ERROR)).
Proof. intros Hn. cases_between n 1 16; reflexivity. Qed.

Lemma read_cmds_length (n : Z) :
  1 <= n <= 16 -> Z.of_nat (length (read_cmds n)) = words_needed n.
Proof. intros Hn. cases_between n 1 16; reflexivity. Qed.

Lemma push_all_run {A} (ws : list Z) (k : prog pioE A) (r : list Z) :
  forall t : list Z,
    (length t <= 4)%nat ->
    run fifo (push_all ws ;; k) (mkFifos t r)
    = if (length t + length ws <=? 4)%nat
      then run fifo k (mkFifos (t ++ ws) r)
      else Blocks (mkFifos (t ++ take (4 - length t) ws) r).
Proof.
  induction ws as [|w ws IH]; intros t Ht.
  - cbn [push_all bind length]. rewrite Nat.add_0_r, app_nil_r.
    destruct (Nat.leb_spec (length t) 4); [reflexivity|lia].
  - cbn [push_all bind call run fifo tx rx length].
    unfold ONE_WIRE_FIFODEPTH.
    destruct (Z.ltb_spec (Z.of_nat (length t)) 4) as [Hroom|Hfull].
    + specialize (IH (t ++ [w])). cbn [bind] in IH. rewrite IH by (rewrite length_app; cbn; lia).
      rewrite length_app. cbn [length].
      replace (length t + 1 + length ws)%nat with (length t + S (length ws))%nat by lia.
      destruct (Nat.leb_spec (length t + S (length ws)) 4).
      * rewrite <- app_assoc. reflexivity.
      * rewrite <- app_assoc. cbn [app].
        replace (4 - length t)%nat with (S (4 - (length t + 1)))%nat by lia.
        reflexivity.
    + destruct (Nat.leb_spec (length t + S (length ws)) 4); [lia|].
      replace (4 - length t)%nat with 0%nat by lia.
      rewrite take_0, app_nil_r. reflexivity.
Qed.

(** X1: a blocking [oneWire_push_read_bytes_cmd] for 1 to 16 bytes returns 0
    with its ceil(n/4) commands at the end of the Tx FIFO when they fit the
    free slots; on a FIFO that nothing drains it hangs when they do not,
    after the commands that fit. On an empty FIFO it always returns. *)
Theorem push_read_bytes_cmd_blocking (n : Z) (t r : list Z) :
  1 <= n <= 16 -> (length t <= 4)%nat ->
  run fifo (oneWire_push_read_bytes_cmd n true) (mkFifos t r)
  = (if words_needed n <=? free_slots (Z.of_nat (length t))
     then Returns (oneWire_status ONE_WIRE_NO_ERROR) (mkFifos (t ++ read_cmds n) r)
     else Blocks (mkFifos (t ++ take (4 - length t) (read_cmds n)) r))
  /\ words_needed n <= free_slots 0.
Proof.
  intros Hn Ht. split.
  - rewrite push_read_bytes_cmd_eq, push_all_run by assumption.
    pose proof (read_cmds_length n Hn) as Hlen. unfold free_slots, ONE_WIRE_FIFODEPTH.
    destruct (Nat.leb_spec (length t + length (read_cmds n)) 4);
      destruct (Z.leb_spec (words_needed n) (4 - Z.of_nat (length t)));
      try lia; reflexivity.
  - unfold words_needed, free_slots, ONE_WIRE_FIFODEPTH.
    assert ((n + 3) / 4 < 5) by (apply Z.div_lt_upper_bound; lia). lia.
Qed.

Lemma push_read_bytes_cmd_blocking_witness :
  run fifo (oneWire_push_read_bytes_cmd 9 true) (mkFifos [0; 0] [])
  = Blocks (mkFifos [0; 0; read_cmd 32; read_cmd 32] []).
Proof.
  exact (proj1 (push_read_bytes_cmd_blocking 9 [0; 0] [] ltac:(lia) ltac:(cbn; lia))).
Defined.

Lemma push_read_bytes_cmd_guard (n : Z) (t r : list Z) :
  1 <= n <= 16 -> (length t <= 4)%nat ->
  run fifo (oneWire_push_read_bytes_cmd n false) (mkFifos t r)
  = if (Z.of_nat (length t) =? 0) && (2 <=? n) || (Z.of_nat (length t) =? 1)
    then Returns (oneWire_status ONE_WIRE_NOT_ENOUGH_TX_FIFO_SPACE) (mkFifos t r)
    else run fifo (oneWire_push_read_bytes_cmd n true) (mkFifos t r).
Proof.
  intros Hn Ht.
  do 5 (destruct t as [|? t]; [cases_between n 1 16; reflexivity|]).
  cbn [length] in Ht. lia.
Qed.

(** X2: with wait = false and 1 to 16 bytes asked, [oneWire_push_read_bytes_cmd]
    returns NotEnoughTxFifoSpace, pushing nothing, exactly when the Tx FIFO
    is empty and more than one byte is asked, or holds one word. With two
    words or more in the FIFO it does what the blocking call does: on a
    FIFO that nothing drains it hangs when its commands do not fit, and so
    always on a full FIFO. *)
Theorem push_read_bytes_cmd_nonblocking (n : Z) (t r : list Z) :
  1 <= n <= 16 -> (length t <= 4)%nat ->
  run fifo (oneWire_push_read_bytes_cmd n false) (mkFifos t r)
  = (if (Z.of_nat (length t) =? 0) && (2 <=? n) || (Z.of_nat (length t) =? 1)
     then Returns (oneWire_status ONE_WIRE_NOT_ENOUGH_TX_FIFO_SPACE) (mkFifos t r)
     else if words_needed n <=? free_slots (Z.of_nat (length t))
     then Returns (oneWire_status ONE_WIRE_NO_ERROR) (mkFifos (t ++ read_cmds n) r)
     else Blocks (mkFifos (t ++ take (4 - length t) (read_cmds n)) r))
  /\ (length t = 4%nat ->
      run fifo (oneWire_push_read_bytes_cmd n false) (mkFifos t r) = Blocks (mkFifos t r)).
Proof.
  intros Hn Ht.
  assert (run fifo (oneWire_push_read_bytes_cmd n false) (mkFifos t r)
          = if (Z.of_nat (length t) =? 0) && (2 <=? n) || (Z.of_nat (length t) =? 1)
            then Returns (oneWire_status ONE_WIRE_NOT_ENOUGH_TX_FIFO_SPACE) (mkFifos t r)
            else if words_needed n <=? free_slots (Z.of_nat (length t))
            then Returns (oneWire_status ONE_WIRE_NO_ERROR) (mkFifos (t ++ read_cmds n) r)
            else Blocks (mkFifos (t ++ take (4 - length t) (read_cmds n)) r)) as Hrun.
  { rewrite push_read_bytes_cmd_guard by assumption.
    rewrite push_read_bytes_cmd_eq, push_all_run by assumption.
    pose proof (read_cmds_length n Hn) as Hlen. unfold free_slots, ONE_WIRE_FIFODEPTH.
    destruct (Nat.leb_spec (length t + length (read_cmds n)) 4);
      destruct (Z.leb_spec (words_needed n) (4 - Z.of_nat (length t)));
      try lia; reflexivity. }
  split; [exact Hrun|].
  intros Hfull. rewrite Hrun, Hfull.
  assert (1 <= words_needed n).
  { unfold words_needed. apply Z.div_le_lower_bound; lia. }
  change (Z.of_nat 4 =? 0) with false. change (Z.of_nat 4 =? 1) with false.
  cbn [andb orb]. unfold free_slots, ONE_WIRE_FIFODEPTH.
  destruct (Z.leb_spec (words_needed n) (4 - Z.of_nat 4)); [lia|].
  change (4 - 4)%nat with 0%nat. rewrite take_0, app_nil_r. reflexivity.
Qed.

Lemma push_read_bytes_cmd_nonblocking_witness :
  run fifo (oneWire_push_read_bytes_cmd 1 false) (mkFifos [0; 0; 0; 0] [])
  = Blocks (mkFifos [0; 0; 0; 0] []).
Proof.
  apply (proj2 (push_read_bytes_cmd_nonblocking 1 [0; 0; 0; 0] [] ltac:(lia) ltac:(cbn; lia))).
  reflexivity.
Defined.

(** X3: with wait = false and 1 to 16 bytes asked, [oneWire_pull_read_bytes]
    returns NotEnoughDataInRxFifo, pulling nothing, exactly when four times
    the number of words in the Rx FIFO is less than num + 3, and otherwise
    does what the blocking call does. So when the Rx FIFO holds exactly the
    ceil(num/4) response words of the request, the call is refused unless
    num is 1, 5, 9 or 13. *)
Theorem pull_read_bytes_nonblocking (data : list Z) (num : Z) (t ws : list Z) :
  1 <= num <= 16 -> (length ws <= 8)%nat ->
  run fifo (oneWire_pull_read_bytes data num false) (mkFifos t ws)
  = (if Z.of_nat (length ws) * 4 <? num + 3
     then Returns (oneWire_status ONE_WIRE_NOT_ENOUGH_DATA_IN_RX_FIFO, data) (mkFifos t ws)
     else run fifo (oneWire_pull_read_bytes data num true) (mkFifos t ws))
  /\ (Z.of_nat (length ws) = words_needed num ->
      (Z.of_nat (length ws) * 4 <? num + 3) = negb (num mod 4 =? 1)).
Proof.
  intros Hnum Hrx. split.
  - unfold oneWire_pull_read_bytes.
    destruct (Z.gtb_spec num 16) as [|_]; [lia|].
    cbn [negb and_then].
    rewrite !run_bind. cbn [bind call run fifo rx].
    assert ((u32 (num + 3) >? u32 (Z.of_nat (length ws) * 4))
            = (Z.of_nat (length ws) * 4 <? num + 3)) as ->.
    { unfold u32. rewrite (Z.mod_small (num + 3)), (Z.mod_small (Z.of_nat (length ws) * 4)) by lia.
      apply Z.gtb_ltb. }
    destruct (Z.of_nat (length ws) * 4 <? num + 3); reflexivity.
  - intros Hws. rewrite Hws. cases_between num 1 16; reflexivity.
Qed.

Lemma pull_read_bytes_nonblocking_witness :
  run fifo (oneWire_pull_read_bytes (replicate 8 0) 8 false)
      (mkFifos [] [0x01B81C02; 0xA2000000])
  = Returns (oneWire_status ONE_WIRE_NOT_ENOUGH_DATA_IN_RX_FIFO, replicate 8 0)
            (mkFifos [] [0x01B81C02; 0xA2000000]).
Proof.
  exact (proj1 (pull_read_bytes_nonblocking (replicate 8 0) 8 [] [0x01B81C02; 0xA2000000]
                  ltac:(lia) ltac:(cbn; lia))).
Defined.



(** *** The buffer of [oneWire_pull_read_bytes] *)










(** X6: when the buffer is shorter than the [num] bytes asked (1 to 16) and
    the response words are in the Rx FIFO, [oneWire_pull_read_bytes] writes
    past the end of the buffer: the function has no bound on the buffer
    other than [num] itself. *)
Theorem pull_read_bytes_overruns_short_buffer (data : list Z) (num : Z) (ws t r : list Z) :
  1 <= num <= 16 ->
  Z.of_nat (length data) < num ->
  Z.of_nat (length ws) = words_needed num ->
  run fifo (oneWire_pull_read_bytes data num true) (mkFifos t (ws ++ r))
  = Aborts UndefinedBehaviour.
Proof.
  intros Hnum Hshort Hws. unfold words_needed in Hws.
  cases_between num 1 16; vm_compute in Hws.
  all: repeat (destruct ws as [|? ws]; [discriminate Hws|]).
  all: try (destruct ws; [|discriminate Hws]).
  all: clear Hws.
  all: do 16 (destruct data as [|? data]; [reflexivity|]; cbn [length] in Hshort; try lia).
Qed.

Lemma pull_read_bytes_overruns_short_buffer_witness :
  run fifo (oneWire_pull_read_bytes (replicate 8 0) 9 true)
      (mkFifos [] ([1; 2; 3] ++ []))
  = Aborts UndefinedBehaviour.
Proof.
  apply (pull_read_bytes_overruns_short_buffer (replicate 8 0) 9 [1; 2; 3] [] []).
  - lia.
  - cbn; lia.
  - reflexivity.
Defined.

(** *** What the checksum detects *)

Lemma step_closed (c0 c1 c2 c3 c4 c5 c6 c7 b : bool) :
  Reference.step [c0; c1; c2; c3; c4; c5; c6; c7] b
  = [c1; c2; xorb c3 (xorb c0 b); xorb c4 (xorb c0 b); c5; c6; c7; xorb c0 b].
Proof. destruct c0, c1, c2, c3, c4, c5, c6, c7, b; reflexivity. Qed.

Lemma bits8_lxor (c t : Z) :
  Reference.bits8 (Z.lxor c t) = zip_with xorb (Reference.bits8 c) (Reference.bits8 t).
Proof. unfold Reference.bits8. cbn [map zip_with]. rewrite !Z.lxor_spec. reflexivity. Qed.

Lemma bits8_inj (x y : Z) :
  byte x -> byte y -> Reference.bits8 x = Reference.bits8 y -> x = y.
Proof.
  intros Hx Hy Hbits.
  rewrite <- (of_bits_bits8 x Hx), <- (of_bits_bits8 y Hy), Hbits. reflexivity.
Qed.

Lemma log2_byte (x : Z) : byte x -> Z.log2 x < 8.
Proof.
  unfold byte. intros Hx.
  destruct (Z.eq_dec x 0) as [->|Hnz]; [reflexivity|].
  apply Z.log2_lt_pow2; [lia|]. change (2 ^ 8) with 256. lia.
Qed.

Lemma lxor_byte (x y : Z) : byte x -> byte y -> byte (Z.lxor x y).
Proof.
  intros Hx Hy.
  pose proof (log2_byte x Hx). pose proof (log2_byte y Hy).
  unfold byte in *. split; [apply Z.lxor_nonneg; lia|].
  destruct (Z.eq_dec (Z.lxor x y) 0) as [->|Hnz]; [lia|].
  assert (0 < Z.lxor x y) by (pose proof (proj2 (Z.lxor_nonneg x y)); lia).
  change 256 with (2 ^ 8). apply Z.log2_lt_pow2; [assumption|].
  pose proof (Z.log2_lxor x y ltac:(lia) ltac:(lia)) as Hlog.
  lia.
Qed.

(** Feeding a byte to the register is feeding zero to the register
    exclusive-ored with the byte. *)
Lemma crc_byte_xor (c t : Z) :
  byte c -> crc_byte c t = crc_byte (Z.lxor c (u8 t)) 0.
Proof.
  intros Hc.
  assert (byte (u8 t)) as Ht by (apply Z.mod_pos_bound; reflexivity).
  pose proof (lxor_byte c (u8 t) Hc Ht) as Hx.
  apply bits8_inj; [apply crc_byte_range | apply crc_byte_range |].
  rewrite <- !crc_byte_reference by assumption.
  rewrite bits8_lxor, bits8_u8.
  unfold Reference.bits8. cbn [map zip_with fold_left].
  generalize (Z.testbit c 0) (Z.testbit c 1) (Z.testbit c 2) (Z.testbit c 3)
             (Z.testbit c 4) (Z.testbit c 5) (Z.testbit c 6) (Z.testbit c 7).
  generalize (Z.testbit t 0) (Z.testbit t 1) (Z.testbit t 2) (Z.testbit t 3)
             (Z.testbit t 4) (Z.testbit t 5) (Z.testbit t 6) (Z.testbit t 7).
  intros t0 t1 t2 t3 t4 t5 t6 t7 c0 c1 c2 c3 c4 c5 c6 c7.
  change (Z.testbit 0 _) with false.
  rewrite !step_closed.
  repeat (apply (f_equal2 cons); [btauto|]). reflexivity.
Qed.

Lemma crc_feed_zero_injective (x y : Z) :
  byte x -> byte y -> crc_byte x 0 = crc_byte y 0 -> x = y.
Proof.
  intros Hx Hy Heq.
  assert (NoDup (map (fun x => crc_byte x 0) (seqZ 0 256))) as Htable.
  { assert (bool_decide (NoDup (map (fun x => crc_byte x 0) (seqZ 0 256))) = true) as Hb
      by (vm_compute; reflexivity).
    exact (bool_decide_eq_true_1 _ Hb). }
  assert (forall z, byte z -> seqZ 0 256 !! Z.to_nat z = Some z) as Hat.
  { intros z Hz. unfold byte in Hz. apply lookup_seqZ. lia. }
  pose proof (proj1 (NoDup_alt _) Htable (Z.to_nat x) (Z.to_nat y) (crc_byte x 0)) as Hidx.
  rewrite !list_lookup_fmap, !Hat in Hidx by assumption.
  cbn [fmap option_fmap option_map] in Hidx.
  unfold byte in *.
  assert (Z.to_nat x = Z.to_nat y) by (apply Hidx; [reflexivity | f_equal; congruence]).
  lia.
Qed.

Lemma crc_byte_eq (s s' x x' : Z) :
  byte s -> byte s' ->
  crc_byte s x = crc_byte s' x' -> Z.lxor s (u8 x) = Z.lxor s' (u8 x').
Proof.
  intros Hs Hs' Heq.
  assert (byte (u8 x)) by (apply Z.mod_pos_bound; reflexivity).
  assert (byte (u8 x')) by (apply Z.mod_pos_bound; reflexivity).
  rewrite (crc_byte_xor s x), (crc_byte_xor s' x') in Heq by assumption.
  apply crc_feed_zero_injective in Heq; [exact Heq | |]; apply lxor_byte; assumption.
Qed.

Lemma fold_left_cons {A B} (f : A -> B -> A) (x : B) (l : list B) (s : A) :
  fold_left f (x :: l) s = fold_left f l (f s x).
Proof. reflexivity. Qed.

Lemma lxor_cancel_r (a b x : Z) : Z.lxor a x = Z.lxor b x -> a = b.
Proof.
  intros Heq. apply (f_equal (fun z => Z.lxor z x)) in Heq.
  rewrite !Z.lxor_assoc, Z.lxor_nilpotent, !Z.lxor_0_r in Heq. exact Heq.
Qed.

Lemma lxor_cancel_l (a x y : Z) : Z.lxor a x = Z.lxor a y -> x = y.
Proof. rewrite !(Z.lxor_comm a). apply lxor_cancel_r. Qed.

Lemma crc_fold_injective (block : list Z) :
  forall s s', byte s -> byte s' ->
               fold_left crc_byte block s = fold_left crc_byte block s' -> s = s'.
Proof.
  induction block as [|x block IH]; intros s s' Hs Hs' Heq; [exact Heq|].
  rewrite !fold_left_cons in Heq.
  pose proof (IH _ _ (crc_byte_range s x) (crc_byte_range s' x) Heq) as Hstep.
  exact (lxor_cancel_r _ _ _ (crc_byte_eq s s' x x Hs Hs' Hstep)).
Qed.

Lemma crc8_split (before after : list Z) (x : Z) :
  crc8 (before ++ x :: after) = fold_left crc_byte after (crc_byte (crc8 before) x).
Proof. unfold crc8. rewrite fold_left_app. apply fold_left_cons. Qed.

Lemma crc8_corrupt_byte (before after : list Z) (x b : Z) :
  u8 b <> u8 x ->
  crc8 (before ++ x :: after) = 0 -> crc8 (before ++ b :: after) <> 0.
Proof.
  intros Hdiff Hgood Hbad. rewrite crc8_split in Hgood, Hbad.
  rewrite <- Hbad in Hgood.
  pose proof (crc_fold_injective after _ _
                (crc_byte_range (crc8 before) x) (crc_byte_range (crc8 before) b) Hgood)
    as Hstep.
  pose proof (crc_byte_eq _ _ _ _ (crc8_range before) (crc8_range before) Hstep) as Hx.
  apply lxor_cancel_l in Hx. congruence.
Qed.

(** X7: the checksum detects every change confined to one byte, and so
    every single-bit error: when [oneWire_CRC] returns 0 on the first [len]
    bytes of an array, it returns ReadCrcFailure on the array with any one
    of these bytes changed to another value. *)
Theorem oneWire_CRC_detects_corrupt_byte {E} (a : list Z) (len : Z) (i : nat) (x b : Z) :
  len <= Z.of_nat (length a) ->
  Z.of_nat i < len ->
  a !! i = Some x ->
  u8 b <> u8 x ->
  @oneWire_CRC E a len = Ret (oneWire_status ONE_WIRE_NO_ERROR) ->
  @oneWire_CRC E (<[i := b]> a) len = Ret (oneWire_status ONE_WIRE_READ_CRC_FAILURE).
Proof.
  intros Hlen Hi Hx Hdiff Hgood.
  rewrite oneWire_CRC_eq in Hgood by assumption.
  rewrite oneWire_CRC_eq by (rewrite length_insert; assumption).
  assert ((take (Z.to_nat len) a) !! i = Some x) as Hx'
    by (rewrite lookup_take_lt by lia; exact Hx).
  rewrite take_insert_lt by lia.
  rewrite <- (take_drop_middle _ _ _ Hx') in Hgood.
  rewrite insert_take_drop by (rewrite length_take; lia).
  assert (crc8 (take i (take (Z.to_nat len) a) ++ x :: drop (S i) (take (Z.to_nat len) a)) = 0)
    as Hzero.
  { unfold crc_status in Hgood.
    destruct (Z.eqb_spec (crc8 (take i (take (Z.to_nat len) a)
                                ++ x :: drop (S i) (take (Z.to_nat len) a))) 0);
      [assumption | discriminate Hgood]. }
  pose proof (crc8_corrupt_byte _ _ x b Hdiff Hzero) as Hbad.
  unfold crc_status.
  destruct (Z.eqb_spec (crc8 (take i (take (Z.to_nat len) a)
                              ++ b :: drop (S i) (take (Z.to_nat len) a))) 0);
    [contradiction | reflexivity].
Qed.

Lemma oneWire_CRC_detects_corrupt_byte_witness :
  @oneWire_CRC pioE (<[2%nat := 0xB9]> [0x02; 0x1C; 0xB8; 0x01; 0x00; 0x00; 0x00; 0xA2]) 8
  = Ret (oneWire_status ONE_WIRE_READ_CRC_FAILURE).
Proof.
  apply (oneWire_CRC_detects_corrupt_byte
           [0x02; 0x1C; 0xB8; 0x01; 0x00; 0x00; 0x00; 0xA2] 8 2 0xB8 0xB9).
  - cbn; lia.
  - lia.
  - reflexivity.
  - vm_compute. discriminate.
  - vm_compute. reflexivity.
Defined.

(** X8: a response of all-zero words passes the check, for every length
    of 0 to 16 bytes: [oneWire_pull_read_bytes] returns 0 and leaves [num]
    zero bytes in the buffer. *)
Theorem pull_read_bytes_accepts_zeros (data : list Z) (num : Z) (t r : list Z) :
  0 <= num <= 16 -> num <= Z.of_nat (length data) ->
  run fifo (oneWire_pull_read_bytes data num true)
      (mkFifos t (replicate (Z.to_nat (words_needed num)) 0 ++ r))
  = Returns (oneWire_status ONE_WIRE_NO_ERROR,
             replicate (Z.to_nat num) 0 ++ drop (Z.to_nat num) data)
            (mkFifos t r).
Proof.
  intros Hnum Hlen.
  rewrite pull_read_bytes_run; try assumption.
  - cases_between num 0 16; reflexivity.
  - rewrite length_replicate.
    assert (0 <= words_needed num) by (apply Z.div_pos; lia). lia.
Qed.

Lemma pull_read_bytes_accepts_zeros_witness :
  run fifo (oneWire_pull_read_bytes (replicate 9 7) 9 true)
      (mkFifos [] (replicate (Z.to_nat (words_needed 9)) 0 ++ []))
  = Returns (oneWire_status ONE_WIRE_NO_ERROR,
             replicate (Z.to_nat 9) 0 ++ drop (Z.to_nat 9) (replicate 9 7))
            (mkFifos [] []).
Proof.
  apply (pull_read_bytes_accepts_zeros (replicate 9 7) 9 [] []).
  - lia.
  - rewrite length_replicate. lia.
Defined.

(** *** The single-value reads *)

Section SingleReads.
Context {S : Type} (h : handler pioE S) `{!Observing h}.

Lemma guarded_read_run (data : Z) (wait : bool) (rest : prog pioE (option Z * Z))
      (s s' : S) (status : option Z) (data' : Z) :
  always (fun r => fst r = None) rest ->
  run h (full <- and_then (negb wait) (call pio_sm_is_tx_fifo_full) ;;
         if full then Ret (Some (oneWire_status ONE_WIRE_NOT_ENOUGH_TX_FIFO_SPACE), data)
         else rest) s
  = Returns (status, data') s' ->
  status = None
  \/ (status = Some (oneWire_status ONE_WIRE_NOT_ENOUGH_TX_FIFO_SPACE)
      /\ wait = false /\ data' = data /\ s' = s).
Proof.
  intros Hrest Hrun. destruct wait; cbn [negb and_then bind call run] in Hrun.
  - left. exact (run_always h _ _ _ _ _ Hrest Hrun).
  - destruct (h bool pio_sm_is_tx_fifo_full s) as [[full s1]|] eqn:Hfull; [|discriminate].
    apply full_observes in Hfull. subst s1.
    destruct full.
    + cbn [run] in Hrun. injection Hrun as <- <- <-. right. auto.
    + left. exact (run_always h _ _ _ _ _ Hrest Hrun).
Qed.

(** X9: the only status that [oneWire_read_byte], [oneWire_read_uint] and
    [oneWire_read_ulong] ever return is NotEnoughTxFifoSpace, and only with
    wait = false; the object behind [data] and, on hardware where asking
    whether the Tx FIFO is full changes nothing, the hardware are then as
    before the call. Every other run ends without a status. *)
Theorem single_reads_refuse_or_return_nothing (data : Z) (wait : bool) (s s' : S)
        (status : option Z) (data' : Z) :
  run h (oneWire_read_byte data wait) s = Returns (status, data') s'
  \/ run h (oneWire_read_uint data wait) s = Returns (status, data') s'
  \/ run h (oneWire_read_ulong data wait) s = Returns (status, data') s' ->
  status = None
  \/ (status = Some (oneWire_status ONE_WIRE_NOT_ENOUGH_TX_FIFO_SPACE)
      /\ wait = false /\ data' = data /\ s' = s).
Proof.
  intros [Hrun|[Hrun|Hrun]]; revert Hrun; apply guarded_read_run.
  all: cbn [bind call always oneWire_push_read_cmd oneWire_pull_read_data
            Z.gtb Z.ltb Z.compare Pos.compare Pos.compare_cont orb].
  all: intros _ w; unfold shr32; cbn; reflexivity.
Qed.
End SingleReads.

Lemma single_reads_refuse_or_return_nothing_witness :
  Some (oneWire_status ONE_WIRE_NOT_ENOUGH_TX_FIFO_SPACE) = None
  \/ (Some (oneWire_status ONE_WIRE_NOT_ENOUGH_TX_FIFO_SPACE)
      = Some (oneWire_status ONE_WIRE_NOT_ENOUGH_TX_FIFO_SPACE)
      /\ false = false /\ 0xEE = 0xEE /\ mkFifos [1; 2; 3; 4] [] = mkFifos [1; 2; 3; 4] []).
Proof.
  apply (single_reads_refuse_or_return_nothing fifo 0xEE false (mkFifos [1; 2; 3; 4] [])).
  left. reflexivity.
Defined.

(** *** The command words *)

(** X10: the words that the five command functions write to the Tx FIFO
    can be told apart and read back. The low two bits give the operation: 0
    for wait-for-idle, 2 for reset, 1 for a read, 3 for a write. A read of
    [n] bits (1 to 32) holds [n - 1] above them. A write holds the number of
    bits less one (7 or 15) in bits 2 to 5 and the byte or the 16-bit value
    from bit 6 up. Out of the range 1 to 32, [oneWire_push_read_cmd]
    writes nothing and returns IllegalDataSizeReq. *)
Theorem command_words_read_back (data n : Z) :
  oneWire_wait_for_idle true
  = (call (pio_sm_put_blocking 0) ;; Ret (oneWire_status ONE_WIRE_NO_ERROR))
  /\ oneWire_reset true
     = (call (pio_sm_put_blocking 2) ;; Ret (oneWire_status ONE_WIRE_NO_ERROR))
  /\ (exists w,
         oneWire_write_byte data true
         = (call (pio_sm_put_blocking w) ;; Ret (oneWire_status ONE_WIRE_NO_ERROR))
         /\ Z.land w 3 = 3 /\ Z.land (Z.shiftr w 2) 15 = 7 /\ Z.shiftr w 6 = u8 data)
  /\ (exists w,
         oneWire_write_uint data true
         = (call (pio_sm_put_blocking w) ;; Ret (oneWire_status ONE_WIRE_NO_ERROR))
         /\ Z.land w 3 = 3 /\ Z.land (Z.shiftr w 2) 15 = 15 /\ Z.shiftr w 6 = u16 data)
  /\ (1 <= n <= 32 ->
      exists w,
        oneWire_push_read_cmd n
        = (call (pio_sm_put_blocking w) ;; Ret (oneWire_status ONE_WIRE_NO_ERROR))
        /\ Z.land w 3 = 1 /\ Z.shiftr w 2 = n - 1)
  /\ (n < 1 \/ 32 < n ->
      oneWire_push_read_cmd n = Ret (oneWire_status ONE_WIRE_ILLEGAL_DATA_SIZE_REQ)).
Proof.
  assert (forall w, Z.land w 3 = w mod 4) as Hlow.
  { intros w. change 3 with (Z.ones 2). apply Z.land_ones. lia. }
  assert (forall w, Z.land w 15 = w mod 16) as Hcount.
  { intros w. change 15 with (Z.ones 4). apply Z.land_ones. lia. }
  split; [reflexivity|]. split; [reflexivity|]. split; [|split; [|split]].
  - eexists. split; [reflexivity|].
    rewrite Hlow, Hcount, !Z.shiftr_div_pow2, !Z.shiftl_mul_pow2 by lia.
    unfold u32, u8.
    change (2 ^ 6) with 64. change (2 ^ 2) with 4. change (2 ^ 8) with 256.
    change (2 ^ 32) with 4294967296.
    pose proof (Z.mod_pos_bound data 256 ltac:(lia)).
    rewrite (Z.mod_small (_ + _ + _)) by lia.
    repeat split; Z.div_mod_to_equations; lia.
  - eexists. split; [reflexivity|].
    rewrite Hlow, Hcount, !Z.shiftr_div_pow2, !Z.shiftl_mul_pow2 by lia.
    unfold u32, u16.
    change (2 ^ 6) with 64. change (2 ^ 2) with 4. change (2 ^ 16) with 65536.
    change (2 ^ 32) with 4294967296.
    pose proof (Z.mod_pos_bound data 65536 ltac:(lia)).
    rewrite (Z.mod_small (_ + _ + _)) by lia.
    repeat split; Z.div_mod_to_equations; lia.
  - intros Hn. unfold oneWire_push_read_cmd.
    destruct (Z.gtb_spec n 32) as [|_]; [lia|].
    destruct (Z.ltb_spec n 1) as [|_]; [lia|].
    cbn [orb]. eexists. split; [reflexivity|].
    unfold read_cmd.
    rewrite Hlow, !Z.shiftr_div_pow2, !Z.shiftl_mul_pow2 by lia.
    unfold u32. change (2 ^ 2) with 4. change (2 ^ 32) with 4294967296.
    rewrite (Z.mod_small (n - 1)) by lia.
    rewrite (Z.mod_small (_ + _)) by lia.
    split; Z.div_mod_to_equations; lia.
  - intros Hn. unfold oneWire_push_read_cmd.
    destruct Hn as [Hn|Hn].
    + destruct (Z.ltb_spec n 1) as [_|]; [|lia]. rewrite orb_true_r. reflexivity.
    + destruct (Z.gtb_spec n 32) as [_|]; [|lia]. reflexivity.
Qed.

Lemma command_words_read_back_witness :
  exists w,
    oneWire_push_read_cmd 8
    = (call (pio_sm_put_blocking w) ;; Ret (oneWire_status ONE_WIRE_NO_ERROR))
    /\ Z.land w 3 = 1 /\ Z.shiftr w 2 = 8 - 1.
Proof.
  apply (proj1 (proj2 (proj2 (proj2 (proj2 (command_words_read_back 0 8)))))). lia.
Defined.

(** *** The block reads against a state machine at work *)

Lemma push_all_served {A} (ws : list Z) (k : prog pioE A) :
  forall (s r : list Z),
    run machine (push_all ws ;; k) (mkMachine s r) = run machine k (mkMachine (s ++ ws) r).
Proof.
  induction ws as [|w ws IH]; intros s r.
  - cbn [push_all bind]. rewrite app_nil_r. reflexivity.
  - cbn [push_all bind call run machine sent replies].
    specialize (IH (s ++ [w]) r). cbn [bind] in IH. rewrite IH, <- app_assoc. reflexivity.
Qed.

Lemma pull_read_bytes_served (data : list Z) (num : Z) (ws s r : list Z) :
  0 <= num <= 16 ->
  Z.of_nat (length ws) = words_needed num ->
  num <= Z.of_nat (length data) ->
  run machine (oneWire_pull_read_bytes data num true) (mkMachine s (ws ++ r))
  = Returns (crc_status (crc8 (received num ws)),
             received num ws ++ drop (Z.to_nat num) data)
            (mkMachine s r).
Proof.
  intros Hnum Hws Hdata.
  unfold oneWire_pull_read_bytes.
  destruct (Z.gtb_spec num 16) as [|_]; [lia|].
  cbn [negb and_then bind].
  rewrite run_bind.
  cases_between num 0 16.
  all: match type of Hws with _ = ?k => let k' := eval vm_compute in k in change k with k' in Hws end.
  all: repeat (destruct ws as [|? ws]; [cbn [length] in Hws; lia|]; cbn [length] in Hws).
  all: destruct ws; [clear Hws|cbn [length] in Hws; lia].
  all: repeat (destruct data as [|? data]; [cbn [length] in Hdata; lia|];
               cbn [length] in Hdata).
  all: clear Hdata Hnum.
  all: cbn [app].
  all: match goal with
       | |- context [run machine (pull_words ?d ?n) ?m] =>
           let v := eval cbv -[union_byte] in (run machine (pull_words d n) m) in
           change (run machine (pull_words d n) m) with v
       end.
  all: cbv beta iota; cbn [fst snd]; rewrite run_bind.
  all: match goal with
       | |- context [run machine (pull_remainder ?d ?i ?m) ?st] =>
           let v := eval cbv -[union_byte Z.shiftr] in (run machine (pull_remainder d i m) st) in
           change (run machine (pull_remainder d i m) st) with v
       end.
  all: cbv beta iota; rewrite oneWire_CRC_eq by (cbn [length]; lia).
  all: cbn [bind run].
  all: reflexivity.
Qed.

Lemma read_bytes_machine_run (data : list Z) (num : Z) (ws s r : list Z) :
  1 <= num <= 16 ->
  Z.of_nat (length ws) = words_needed num ->
  num <= Z.of_nat (length data) ->
  run machine (oneWire_read_bytes data num) (mkMachine s (ws ++ r))
  = Returns (crc_status (crc8 (received num ws)),
             received num ws ++ drop (Z.to_nat num) data)
            (mkMachine (s ++ read_cmds num) r).
Proof.
  intros Hnum Hws Hdata.
  unfold oneWire_read_bytes.
  rewrite push_read_bytes_cmd_eq by assumption.
  assert (forall (k : Z -> prog pioE (Z * list Z)),
             bind (push_all (read_cmds num) ;; Ret (oneWire_status ONE_WIRE_NO_ERROR)) k
             = (push_all (read_cmds num) ;; k (oneWire_status ONE_WIRE_NO_ERROR))) as Hassoc.
  { intros k. cases_between num 1 16; reflexivity. }
  rewrite Hassoc, push_all_served.
  change (negb (oneWire_status ONE_WIRE_NO_ERROR =? ONE_WIRE_NO_ERROR)) with false.
  cbv iota. apply pull_read_bytes_served; [lia | assumption | assumption].
Qed.

Lemma received_length (num : Z) (ws : list Z) :
  1 <= num <= 16 -> Z.of_nat (length ws) = words_needed num ->
  length (received num ws) = Z.to_nat num.
Proof.
  intros Hnum Hws.
  cases_between num 1 16.
  all: match type of Hws with _ = ?k =>
         let k' := eval vm_compute in k in change k with k' in Hws end.
  all: repeat (destruct ws as [|? ws]; [cbn [length] in Hws; lia|]; cbn [length] in Hws).
  all: destruct ws; [reflexivity|cbn [length] in Hws; lia].
Qed.

(** X15: against a state machine that takes every command and answers
    with the words [ws], [oneWire_read_bytes] for 1 to 16 bytes writes its
    ceil(num/4) read commands, pulls as many response words, leaves their
    [num] bytes at the start of the buffer and the rest of the buffer as it
    was, and returns 0 when the CRC-8 over the [num] bytes is zero,
    ReadCrcFailure otherwise. *)
Theorem read_bytes_served (data : list Z) (num : Z) (ws s r : list Z) :
  1 <= num <= 16 ->
  Z.of_nat (length ws) = words_needed num ->
  num <= Z.of_nat (length data) ->
  run machine (oneWire_read_bytes data num) (mkMachine s (ws ++ r))
  = Returns (crc_status (crc8 (received num ws)),
             received num ws ++ drop (Z.to_nat num) data)
            (mkMachine (s ++ read_cmds num) r)
  /\ length (received num ws) = Z.to_nat num.
Proof.
  intros Hnum Hws Hdata. split.
  - apply read_bytes_machine_run; assumption.
  - apply received_length; assumption.
Qed.

Lemma read_bytes_served_witness :
  run machine (oneWire_read_bytes (replicate 8 0) 8)
      (mkMachine [] ([0x01B81C02; 0xA2000000] ++ []))
  = Returns (crc_status (crc8 (received 8 [0x01B81C02; 0xA2000000])),
             received 8 [0x01B81C02; 0xA2000000] ++ drop (Z.to_nat 8) (replicate 8 0))
            (mkMachine ([] ++ read_cmds 8) []).
Proof.
  apply (proj1 (read_bytes_served (replicate 8 0) 8 [0x01B81C02; 0xA2000000] [] []
                  ltac:(lia) ltac:(reflexivity) ltac:(rewrite length_replicate; lia))).
Defined.
End EngineFacts.

(** ** The discovery engine *)

Module DiscoveryFacts.
Import Discovery DiscoverySpec.

(** *** Bits of 64-bit words *)

Lemma word64_high (x i : Z) : word64 x -> 64 <= i -> Z.testbit x i = false.
Proof.
  intros Hx Hi. rewrite <- (Z.mod_small x (2 ^ 64)) by exact Hx.
  apply Z.mod_pow2_bits_high. lia.
Qed.

Lemma word64_of_bits (x : Z) :
  (forall i, 64 <= i -> Z.testbit x i = false) -> word64 x.
Proof.
  intros Hhigh. unfold word64.
  assert (x mod 2 ^ 64 = x) as <-.
  { apply Z.bits_inj'. intros i Hi.
    destruct (Z.lt_ge_cases i 64).
    - apply Z.mod_pow2_bits_low. lia.
    - rewrite Hhigh by lia. apply Z.mod_pow2_bits_high. lia. }
  apply Z.mod_pos_bound. lia.
Qed.

Lemma bit64_eq (p : nat) : (p < 64)%nat -> bit64 (Z.of_nat p) = 2 ^ Z.of_nat p.
Proof.
  intros Hp. unfold bit64, u64. rewrite Z.shiftl_1_l.
  apply Z.mod_small. split; [lia|].
  apply Z.pow_lt_mono_r; lia.
Qed.

Lemma testbit_bit64 (p : nat) (i : Z) :
  (p < 64)%nat -> 0 <= i ->
  Z.testbit (bit64 (Z.of_nat p)) i = (i =? Z.of_nat p).
Proof.
  intros Hp Hi. rewrite bit64_eq by exact Hp.
  rewrite Z.pow2_bits_eqb by lia. apply Z.eqb_sym.
Qed.

Lemma testbit_not64_bit64 (p : nat) (i : Z) :
  (p < 64)%nat -> 0 <= i ->
  Z.testbit (not64 (bit64 (Z.of_nat p))) i = (i <? 64) && negb (i =? Z.of_nat p).
Proof.
  intros Hp Hi. unfold not64, u64.
  destruct (Z.ltb_spec i 64).
  - rewrite Z.mod_pow2_bits_low by lia.
    rewrite Z.lnot_spec by lia. rewrite testbit_bit64 by assumption. reflexivity.
  - apply Z.mod_pow2_bits_high. lia.
Qed.

Lemma testbit_set_bit (x : Z) (p : nat) (i : Z) :
  (p < 64)%nat -> 0 <= i ->
  Z.testbit (set_bit x p) i = Z.testbit x i || (i =? Z.of_nat p).
Proof.
  intros Hp Hi. unfold set_bit. rewrite Z.lor_spec, testbit_bit64 by assumption.
  reflexivity.
Qed.

Lemma testbit_clear_bit (x : Z) (p : nat) (i : Z) :
  (p < 64)%nat -> 0 <= i ->
  Z.testbit (clear_bit x p) i = Z.testbit x i && ((i <? 64) && negb (i =? Z.of_nat p)).
Proof.
  intros Hp Hi. unfold clear_bit.
  rewrite Z.land_spec, testbit_not64_bit64 by assumption. reflexivity.
Qed.

Lemma tb_set_bit (x : Z) (p q : nat) :
  (p < 64)%nat -> tb (set_bit x p) q = tb x q || (q =? p)%nat.
Proof.
  intros Hp. unfold tb. rewrite testbit_set_bit by lia. f_equal.
  destruct (Nat.eqb_spec q p); [apply Z.eqb_eq | apply Z.eqb_neq]; lia.
Qed.

Lemma tb_clear_bit (x : Z) (p q : nat) :
  (p < 64)%nat -> word64 x -> tb (clear_bit x p) q = tb x q && negb (q =? p)%nat.
Proof.
  intros Hp Hx. unfold tb. rewrite testbit_clear_bit by lia.
  destruct (Z.ltb_spec (Z.of_nat q) 64).
  - cbn [andb]. f_equal. f_equal.
    destruct (Nat.eqb_spec q p); [apply Z.eqb_eq | apply Z.eqb_neq]; lia.
  - rewrite (word64_high x) by (assumption || lia). reflexivity.
Qed.

Lemma word64_set_bit (x : Z) (p : nat) : (p < 64)%nat -> word64 x -> word64 (set_bit x p).
Proof.
  intros Hp Hx. apply word64_of_bits. intros i Hi.
  rewrite testbit_set_bit by lia. rewrite (word64_high x) by assumption.
  apply Z.eqb_neq. lia.
Qed.

Lemma word64_clear_bit (x : Z) (p : nat) : (p < 64)%nat -> word64 (clear_bit x p).
Proof.
  intros Hp. apply word64_of_bits. intros i Hi.
  rewrite testbit_clear_bit by lia.
  destruct (Z.ltb_spec i 64); [lia|]. apply andb_false_r.
Qed.

(** Two 64-bit words with the same 64 bits are equal. *)
Lemma word64_ext (x y : Z) :
  word64 x -> word64 y -> (forall q, (q < 64)%nat -> tb x q = tb y q) -> x = y.
Proof.
  intros Hx Hy Hbits. apply Z.bits_inj'. intros i Hi.
  destruct (Z.lt_ge_cases i 64).
  - specialize (Hbits (Z.to_nat i)). unfold tb in Hbits.
    rewrite Z2Nat.id in Hbits by lia. apply Hbits. lia.
  - rewrite !word64_high by assumption. reflexivity.
Qed.

Lemma flagged_tb (x : Z) (p : nat) : (p < 64)%nat -> flagged x p = tb x p.
Proof.
  intros Hp. unfold flagged, tb.
  destruct (Z.testbit x (Z.of_nat p)) eqn:Hbit.
  - destruct (Z.eqb_spec (Z.land x (bit64 (Z.of_nat p))) 0) as [Hz|]; [|reflexivity].
    exfalso.
    assert (Z.testbit (Z.land x (bit64 (Z.of_nat p))) (Z.of_nat p) = true) as Hone.
    { rewrite Z.land_spec, Hbit, testbit_bit64 by lia. apply Z.eqb_refl. }
    rewrite Hz, Z.bits_0 in Hone. discriminate.
  - assert (Z.land x (bit64 (Z.of_nat p)) = 0) as ->; [|reflexivity].
    apply Z.bits_inj'. intros i Hi.
    rewrite Z.land_spec, testbit_bit64, Z.bits_0 by lia.
    destruct (Z.eqb_spec i (Z.of_nat p)) as [->|]; [|apply andb_false_r].
    rewrite Hbit. reflexivity.
Qed.

Lemma set_bit_same (x : Z) (p : nat) :
  (p < 64)%nat -> word64 x -> tb x p = true -> set_bit x p = x.
Proof.
  intros Hp Hx Hbit. apply word64_ext; [apply word64_set_bit; assumption|assumption|].
  intros q _. rewrite tb_set_bit by assumption.
  destruct (Nat.eqb_spec q p) as [->|]; [rewrite Hbit; reflexivity|apply orb_false_r].
Qed.

Lemma clear_bit_same (x : Z) (p : nat) :
  (p < 64)%nat -> word64 x -> tb x p = false -> clear_bit x p = x.
Proof.
  intros Hp Hx Hbit. apply word64_ext; [apply word64_clear_bit; assumption|assumption|].
  intros q _. rewrite tb_clear_bit by assumption.
  destruct (Nat.eqb_spec q p) as [->|]; [rewrite Hbit; reflexivity|apply andb_true_r].
Qed.

Lemma clear_set_bit (x : Z) (p : nat) :
  (p < 64)%nat -> word64 x -> tb x p = false -> clear_bit (set_bit x p) p = x.
Proof.
  intros Hp Hx Hbit.
  apply word64_ext; [apply word64_clear_bit; assumption|assumption|].
  intros q _. rewrite tb_clear_bit, tb_set_bit by auto using word64_set_bit.
  destruct (Nat.eqb_spec q p) as [->|].
  - rewrite Hbit. reflexivity.
  - rewrite orb_false_r. apply andb_true_r.
Qed.


(** *** Nodes of the trie *)

Lemma filter_all {A} (P : A -> Prop) `{!forall x, Decision (P x)} (l : list A) :
  (forall x, x ∈ l -> P x) -> filter P l = l.
Proof.
  induction l as [|x l IH]; intros Hall; [reflexivity|].
  rewrite filter_cons. destruct (decide (P x)) as [_|Hn].
  - f_equal. apply IH. intros y Hy. apply Hall. right. exact Hy.
  - destruct Hn. apply Hall. left.
Qed.

Lemma filter_none {A} (P : A -> Prop) `{!forall x, Decision (P x)} (l : list A) :
  (forall x, x ∈ l -> ~ P x) -> filter P l = [].
Proof.
  induction l as [|x l IH]; intros Hall; [reflexivity|].
  rewrite filter_cons. destruct (decide (P x)) as [Hp|_].
  - destruct (Hall x); [left|exact Hp].
  - apply IH. intros y Hy. apply Hall. right. exact Hy.
Qed.

Lemma wired_and_true (f : Z -> bool) (node : list Z) :
  wired_and f node = true <-> forall rom, rom ∈ node -> f rom = true.
Proof.
  unfold wired_and. rewrite forallb_forall. split; intros H rom Hin.
  - apply H, list_elem_of_In, Hin.
  - apply H, list_elem_of_In, Hin.
Qed.

Lemma zeros_nil (p : nat) (node : list Z) :
  zeros p node = [] <-> wired_and (fun rom => tb rom p) node = true.
Proof.
  rewrite wired_and_true. unfold zeros. split.
  - intros Hnil rom Hin. destruct (tb rom p) eqn:Hb; [reflexivity|].
    destruct (filter_nil_not_elem_of _ _ rom Hnil Hb Hin).
  - intros Hall. apply filter_none. intros rom Hin Hb.
    rewrite (Hall rom Hin) in Hb. discriminate.
Qed.

Lemma ones_nil (p : nat) (node : list Z) :
  ones p node = [] <-> wired_and (fun rom => negb (tb rom p)) node = true.
Proof.
  rewrite wired_and_true. unfold ones. split.
  - intros Hnil rom Hin. destruct (tb rom p) eqn:Hb; [|reflexivity].
    destruct (filter_nil_not_elem_of _ _ rom Hnil Hb Hin).
  - intros Hall. apply filter_none. intros rom Hin Hb.
    specialize (Hall rom Hin). rewrite Hb in Hall. discriminate.
Qed.

Lemma zeros_nil_ones (p : nat) (node : list Z) : zeros p node = [] -> ones p node = node.
Proof.
  intros Hz. apply filter_all. intros rom Hin.
  destruct (tb rom p) eqn:Hb; [reflexivity|].
  destruct (filter_nil_not_elem_of _ _ rom Hz Hb Hin).
Qed.

Lemma ones_nil_zeros (p : nat) (node : list Z) : ones p node = [] -> zeros p node = node.
Proof.
  intros Ho. apply filter_all. intros rom Hin.
  destruct (tb rom p) eqn:Hb; [|reflexivity].
  destruct (filter_nil_not_elem_of _ _ rom Ho Hb Hin).
Qed.

Lemma reads_at (p : nat) (node : list Z) :
  node <> [] ->
  reads p node (wired_and (fun rom => tb rom p) node)
               (wired_and (fun rom => negb (tb rom p)) node).
Proof.
  intros Hne.
  destruct (wired_and (fun rom => tb rom p) node) eqn:H1;
    destruct (wired_and (fun rom => negb (tb rom p)) node) eqn:H2.
  - exfalso. apply zeros_nil in H1. apply ones_nil in H2.
    apply zeros_nil_ones in H1. congruence.
  - apply zeros_nil in H1. apply AllSet; [exact H1|apply zeros_nil_ones, H1].
  - apply ones_nil in H2. apply AllClear; [exact H2|apply ones_nil_zeros, H2].
  - apply Disagree.
    + intros Ho. apply ones_nil in Ho. congruence.
    + intros Hz. apply zeros_nil in Hz. congruence.
Qed.

Lemma active_at_agree (roms : list Z) (x y : Z) (k : nat) :
  agree_below k x y -> active_at roms x k = active_at roms y k.
Proof.
  induction k as [|k IH]; intros Hxy; [reflexivity|].
  cbn [active_at]. rewrite IH by (intros q Hq; apply Hxy; lia).
  rewrite (Hxy k) by lia. reflexivity.
Qed.

Lemma active_at_S_nonempty (roms : list Z) (x : Z) (k : nat) :
  active_at roms x (S k) <> [] -> active_at roms x k <> [].
Proof. cbn [active_at]. intros Hne Hnil. rewrite Hnil in Hne. exact (Hne eq_refl). Qed.

Lemma active_at_elem (roms : list Z) (x : Z) (k : nat) (rom : Z) :
  rom ∈ active_at roms x k <-> rom ∈ roms /\ agree_below k rom x.
Proof.
  induction k as [|k IH]; cbn [active_at].
  - split; [intros H; split; [exact H|intros q Hq; lia] | intros [H _]; exact H].
  - rewrite list_elem_of_filter, IH. split.
    + intros (Hk & Hin & Hbelow). split; [exact Hin|].
      intros q Hq. destruct (Nat.eq_dec q k) as [->|]; [exact Hk|apply Hbelow; lia].
    + intros (Hin & Hbelow). split; [apply Hbelow; lia|].
      split; [exact Hin|]. intros q Hq. apply Hbelow. lia.
Qed.

Lemma on_path_weaken (roms : list Z) (cur disc : Z) (k : nat) :
  on_path roms cur disc (S k) -> on_path roms cur disc k.
Proof. intros H p Hp. apply H. lia. Qed.

Lemma on_path_agree (roms : list Z) (cur cur' disc disc' : Z) (k : nat) :
  agree_below k cur cur' -> agree_below k disc disc' ->
  on_path roms cur disc k -> on_path roms cur' disc' k.
Proof.
  intros Hc Hd H p Hp. cbv zeta.
  rewrite <- (active_at_agree roms cur cur' p) by (intros q Hq; apply Hc; lia).
  rewrite <- (Hc p), <- (Hd p) by lia. apply H. exact Hp.
Qed.

(** *** One bit of the walk *)

Lemma walk_step_on_path (p : nat) (node : list Z) (cur disc : Z) :
  (p < 64)%nat -> word64 cur -> word64 disc -> node <> [] ->
  (zeros p node = [] -> tb cur p = true /\ tb disc p = false) ->
  (ones p node = [] -> tb cur p = false /\ tb disc p = false) ->
  (ones p node <> [] -> zeros p node <> [] -> tb disc p = true) ->
  walk_step p node cur disc
  = Some (filter (fun rom => tb rom p = tb cur p) node, (cur, disc)).
Proof.
  intros Hp Hcur Hdisc Hne Hset Hclear Hdis. unfold walk_step.
  destruct (reads_at p node Hne) as [Hz Ho|Ho Hz|Ho Hz]; cbn [xorb Bool.eqb andb].
  - destruct (Hset Hz) as [Hc Hd]. rewrite Hc.
    rewrite set_bit_same by assumption.
    rewrite clear_bit_same by assumption. reflexivity.
  - destruct (Hclear Ho) as [Hc Hd]. rewrite Hc.
    rewrite (clear_bit_same cur) by assumption.
    rewrite (clear_bit_same disc) by assumption. reflexivity.
  - rewrite !flagged_tb by assumption. rewrite (Hdis Ho Hz). reflexivity.
Qed.

Lemma walk_step_all_set (p : nat) (node : list Z) (cur disc : Z) :
  (p < 64)%nat -> word64 disc -> tb disc p = false ->
  node <> [] -> zeros p node = [] ->
  walk_step p node cur disc = Some (node, (set_bit cur p, disc)).
Proof.
  intros Hp Hdisc Hd Hne Hz. unfold walk_step.
  destruct (reads_at p node Hne) as [_ Ho|Ho _|_ Hz']; cbn [xorb Bool.eqb andb].
  - fold (ones p node). rewrite Ho, clear_bit_same by assumption. reflexivity.
  - apply zeros_nil_ones in Hz. congruence.
  - contradiction.
Qed.

Lemma walk_step_all_clear (p : nat) (node : list Z) (cur disc : Z) :
  (p < 64)%nat -> word64 disc -> tb disc p = false ->
  node <> [] -> ones p node = [] ->
  walk_step p node cur disc = Some (node, (clear_bit cur p, disc)).
Proof.
  intros Hp Hdisc Hd Hne Ho. unfold walk_step.
  destruct (reads_at p node Hne) as [Hz _|_ Hz|Ho' _]; cbn [xorb Bool.eqb andb].
  - apply zeros_nil_ones in Hz. congruence.
  - fold (zeros p node). rewrite Hz, (clear_bit_same disc) by assumption. reflexivity.
  - contradiction.
Qed.

Lemma walk_step_disagree (p : nat) (node : list Z) (cur disc : Z) :
  (p < 64)%nat -> word64 disc -> tb disc p = false ->
  ones p node <> [] -> zeros p node <> [] ->
  walk_step p node cur disc = Some (ones p node, (set_bit cur p, set_bit disc p)).
Proof.
  intros Hp Hdisc Hd Ho Hz. unfold walk_step.
  assert (node <> []) as Hne by (intros ->; apply Ho; reflexivity).
  destruct (reads_at p node Hne) as [Hz' _|Ho' _|_ _]; cbn [xorb Bool.eqb andb];
    try contradiction.
  rewrite flagged_tb, Hd by assumption. reflexivity.
Qed.

(** A pass walks the bits under [k] as the pass before left them. *)
Lemma walk_prefix (roms : list Z) (cur disc : Z) (k : nat) :
  (k <= 64)%nat -> word64 cur -> word64 disc ->
  on_path roms cur disc k -> active_at roms cur k <> [] ->
  forall n, walk_from (k + n) 0 roms cur disc
            = walk_from n k (active_at roms cur k) cur disc.
Proof.
  intros Hk Hcur Hdisc. induction k as [|k IH]; intros Hpath Hne n; [reflexivity|].
  replace (S k + n)%nat with (k + S n)%nat by lia.
  rewrite IH by (try lia; auto using on_path_weaken, active_at_S_nonempty).
  cbn [walk_from].
  destruct (Hpath k) as (Hset & Hclear & Hdis); [lia|].
  rewrite walk_step_on_path; auto using active_at_S_nonempty; lia.
Qed.

(** *** The loop over the discrepancies *)

Lemma passes_S (fuel : nat) (roms : list Z) (cur disc : Z) :
  passes (S fuel) roms cur disc
  = match walk_from 64 0 roms cur disc with
    | Some (c, d) => option_map (cons c) (finish fuel roms 64 c d)
    | None => None
    end.
Proof.
  cbn [passes]. destruct (walk_from 64 0 roms cur disc) as [[c d]|]; [|reflexivity].
  unfold finish. destruct (settle_from 64 c d) as [[c' d'] [|]]; reflexivity.
Qed.

Lemma finish_skip (fuel : nat) (roms : list Z) (p : nat) (cur disc : Z) :
  (p < 64)%nat -> tb disc p = false ->
  finish fuel roms (S p) cur disc = finish fuel roms p cur disc.
Proof.
  intros Hp Hd. unfold finish. cbn [settle_from].
  rewrite flagged_tb, Hd by assumption. reflexivity.
Qed.

Lemma finish_break (fuel : nat) (roms : list Z) (p : nat) (cur disc : Z) :
  (p < 64)%nat -> tb disc p = true -> tb cur p = true ->
  finish fuel roms (S p) cur disc = passes fuel roms (clear_bit cur p) disc.
Proof.
  intros Hp Hd Hc. unfold finish. cbn [settle_from].
  rewrite !flagged_tb, Hd, Hc by assumption. reflexivity.
Qed.

Lemma finish_resolve (fuel : nat) (roms : list Z) (p : nat) (cur disc : Z) :
  (p < 64)%nat -> tb disc p = true -> tb cur p = false ->
  finish fuel roms (S p) cur disc = finish fuel roms p cur (clear_bit disc p).
Proof.
  intros Hp Hd Hc. unfold finish. cbn [settle_from].
  rewrite !flagged_tb, Hd, Hc by assumption. reflexivity.
Qed.

(** *** Leaves and branch points *)

Lemma leaves_all_set (depth k : nat) (node : list Z) :
  node <> [] -> zeros k node = [] ->
  leaves (S depth) k node = leaves depth (S k) node.
Proof.
  intros Hne Hz. cbn [leaves]. rewrite Hz, (zeros_nil_ones _ _ Hz).
  destruct node; [contradiction|reflexivity].
Qed.

Lemma leaves_all_clear (depth k : nat) (node : list Z) :
  ones k node = [] -> leaves (S depth) k node = leaves depth (S k) node.
Proof.
  intros Ho. cbn [leaves]. rewrite Ho, (ones_nil_zeros _ _ Ho). reflexivity.
Qed.

Lemma leaves_disagree (depth k : nat) (node : list Z) :
  ones k node <> [] -> zeros k node <> [] ->
  leaves (S depth) k node
  = leaves depth (S k) (ones k node) ++ leaves depth (S k) (zeros k node).
Proof.
  intros Ho Hz. cbn [leaves].
  destruct (ones k node); [contradiction|].
  destruct (zeros k node); [contradiction|reflexivity].
Qed.

Lemma branch_points_all_set (depth k : nat) (node : list Z) :
  zeros k node = [] -> branch_points (S depth) k node = branch_points depth (S k) node.
Proof.
  intros Hz. cbn [branch_points]. rewrite Hz.
  destruct (ones k node); reflexivity.
Qed.

Lemma branch_points_all_clear (depth k : nat) (node : list Z) :
  ones k node = [] -> branch_points (S depth) k node = branch_points depth (S k) node.
Proof. intros Ho. cbn [branch_points]. rewrite Ho. reflexivity. Qed.

Lemma branch_points_disagree (depth k : nat) (node : list Z) :
  ones k node <> [] -> zeros k node <> [] ->
  branch_points (S depth) k node
  = (1 + branch_points depth (S k) (ones k node)
     + branch_points depth (S k) (zeros k node))%nat.
Proof.
  intros Ho Hz. cbn [branch_points].
  destruct (ones k node); [contradiction|].
  destruct (zeros k node); [contradiction|reflexivity].
Qed.

(** *** A pass covers a subtree *)

Section Subtree.
Context (roms : list Z) (Hroms : Forall word64 roms).

Lemma leaf_node (cur : Z) :
  word64 cur -> active_at roms cur 64 <> [] -> take 1 (active_at roms cur 64) = [cur].
Proof.
  intros Hcur Hne.
  destruct (active_at roms cur 64) as [|rom rest] eqn:Hnode; [contradiction|].
  cbn [take]. f_equal.
  assert (rom ∈ active_at roms cur 64) as Hin by (rewrite Hnode; left).
  apply active_at_elem in Hin as [Hin Hagree].
  apply word64_ext; [|exact Hcur|exact Hagree].
  rewrite Forall_forall in Hroms. apply Hroms, Hin.
Qed.

Lemma on_path_extend (cur disc : Z) (k : nat) :
  on_path roms cur disc k ->
  (zeros k (active_at roms cur k) = [] -> tb cur k = true /\ tb disc k = false) ->
  (ones k (active_at roms cur k) = [] -> tb cur k = false /\ tb disc k = false) ->
  (ones k (active_at roms cur k) <> [] -> zeros k (active_at roms cur k) <> [] ->
   tb disc k = true) ->
  on_path roms cur disc (S k).
Proof.
  intros Hpath H1 H2 H3 p Hp.
  destruct (Nat.eq_dec p k) as [->|]; [cbv zeta; auto|apply Hpath; lia].
Qed.

Lemma walk_prefix64 (cur disc : Z) (k : nat) :
  (k <= 64)%nat -> word64 cur -> word64 disc ->
  on_path roms cur disc k -> active_at roms cur k <> [] ->
  walk_from 64 0 roms cur disc
  = walk_from (64 - k) k (active_at roms cur k) cur disc.
Proof.
  intros Hk Hcur Hdisc Hpath Hne.
  pose proof (walk_prefix roms cur disc k Hk Hcur Hdisc Hpath Hne (64 - k)) as H.
  replace (k + (64 - k))%nat with 64%nat in H by lia. exact H.
Qed.

Lemma walk_into (cur disc cur2 disc2 : Z) (k : nat) :
  (k < 64)%nat -> word64 cur -> word64 disc -> word64 cur2 -> word64 disc2 ->
  on_path roms cur disc k -> active_at roms cur k <> [] ->
  on_path roms cur2 disc2 (S k) -> active_at roms cur2 (S k) <> [] ->
  walk_step k (active_at roms cur k) cur disc
  = Some (active_at roms cur2 (S k), (cur2, disc2)) ->
  walk_from 64 0 roms cur disc = walk_from 64 0 roms cur2 disc2.
Proof.
  intros Hk Hcur Hdisc Hcur2 Hdisc2 Hpath Hne Hpath2 Hne2 Hstep.
  rewrite (walk_prefix64 cur disc k) by (assumption || lia).
  rewrite (walk_prefix64 cur2 disc2 (S k)) by (assumption || lia).
  replace (64 - k)%nat with (S (64 - S k)) by lia.
  cbn [walk_from]. rewrite Hstep. reflexivity.
Qed.

Lemma passes_same_walk (fuel : nat) (cur disc cur2 disc2 : Z) :
  walk_from 64 0 roms cur disc = walk_from 64 0 roms cur2 disc2 ->
  passes (S fuel) roms cur disc = passes (S fuel) roms cur2 disc2.
Proof. intros H. rewrite !passes_S, H. reflexivity. Qed.

Lemma agree_below_set_bit (x : Z) (k : nat) :
  (k < 64)%nat -> agree_below k x (set_bit x k).
Proof.
  intros Hk q Hq. rewrite tb_set_bit by exact Hk.
  destruct (Nat.eqb_spec q k); [lia|]. symmetry. apply orb_false_r.
Qed.

Lemma agree_below_clear_bit (x : Z) (k : nat) :
  (k < 64)%nat -> word64 x -> agree_below k x (clear_bit x k).
Proof.
  intros Hk Hx q Hq. rewrite tb_clear_bit by assumption.
  destruct (Nat.eqb_spec q k); [lia|]. symmetry. apply andb_true_r.
Qed.

Lemma agree_below_trans (k : nat) (x y z : Z) :
  agree_below k x y -> agree_below k y z -> agree_below k x z.
Proof. intros Hxy Hyz q Hq. rewrite Hxy, Hyz by exact Hq. reflexivity. Qed.

Lemma agree_below_weaken (k : nat) (x y : Z) :
  agree_below (S k) x y -> agree_below k x y.
Proof. intros H q Hq. apply H. lia. Qed.

Lemma tb_set_bit_same (x : Z) (k : nat) : (k < 64)%nat -> tb (set_bit x k) k = true.
Proof. intros Hk. rewrite tb_set_bit, Nat.eqb_refl by exact Hk. apply orb_true_r. Qed.

Lemma tb_clear_bit_same (x : Z) (k : nat) :
  (k < 64)%nat -> word64 x -> tb (clear_bit x k) k = false.
Proof.
  intros Hk Hx. rewrite tb_clear_bit, Nat.eqb_refl by assumption. apply andb_false_r.
Qed.

(** The node below [k] on the side of bit [b], for a [current] with that bit. *)
Lemma active_at_S (cur cur2 : Z) (k : nat) :
  agree_below k cur cur2 ->
  active_at roms cur2 (S k)
  = filter (fun rom => tb rom k = tb cur2 k) (active_at roms cur k).
Proof.
  intros Hagree. cbn [active_at].
  rewrite (active_at_agree roms cur cur2 k Hagree). reflexivity.
Qed.


(** From a state that leads to the node at depth [k] on the way described
    by [current], with no flag at [k] or above, the passes record the
    leaves under that node, one per pass, and the last of them leaves the
    loop over the discrepancies at bit [k] with [discrepancy] as it was. *)
Lemma subtree (depth : nat) :
  forall (k : nat) (cur disc : Z),
    (k + depth = 64)%nat -> word64 cur -> word64 disc ->
    on_path roms cur disc k -> no_flags_from k disc ->
    active_at roms cur k <> [] ->
    exists (cur' : Z) (n : nat),
      word64 cur' /\ agree_below k cur cur'
      /\ length (leaves depth k (active_at roms cur k)) = S n
      /\ forall fuel,
          passes (S n + fuel) roms cur disc
          = option_map (app (leaves depth k (active_at roms cur k)))
                       (finish fuel roms k cur' disc).
Proof.
  induction depth as [|depth IH]; intros k cur disc Hk Hcur Hdisc Hpath Hflags Hne.
  - assert (k = 64)%nat as -> by lia.
    exists cur, 0%nat. cbn [leaves]. rewrite leaf_node by assumption.
    split; [exact Hcur|]. split; [intros q _; reflexivity|]. split; [reflexivity|].
    intros fuel. cbn [Nat.add]. rewrite passes_S.
    rewrite (walk_prefix64 cur disc 64) by (assumption || lia).
    cbn [Nat.sub walk_from]. reflexivity.
  - assert (k < 64)%nat as Hk64 by lia.
    assert (tb disc k = false) as Hd by (apply Hflags; lia).
    set (node := active_at roms cur k) in *.
    destruct (reads_at k node Hne) as [Hz Ho|Ho Hz|Ho Hz].
    + (* every device at the node has the bit set *)
      pose (cur2 := set_bit cur k).
      assert (word64 cur2) as Hcur2 by (apply word64_set_bit; assumption).
      assert (agree_below k cur cur2) as Hagree by (apply agree_below_set_bit; assumption).
      assert (tb cur2 k = true) as Hbit by (apply tb_set_bit_same; assumption).
      assert (active_at roms cur2 (S k) = node) as Hnode2.
      { rewrite (active_at_S cur cur2 k Hagree), Hbit. exact Ho. }
      assert (on_path roms cur2 disc (S k)) as Hpath2.
      { apply on_path_extend.
        - apply (on_path_agree roms cur cur2 disc disc k Hagree); [intros q _; reflexivity|exact Hpath].
        - intros _. split; assumption.
        - rewrite <- (active_at_agree roms cur cur2 k Hagree). fold node.
          rewrite Ho. intros ->. contradiction.
        - rewrite <- (active_at_agree roms cur cur2 k Hagree). fold node.
          intros _ Hz'. contradiction. }
      destruct (IH (S k) cur2 disc) as (cur' & n & Hcur' & Hagree' & Hlen & Hpasses);
        try assumption; try lia.
      { intros p Hp Hp64. apply Hflags; lia. }
      { rewrite Hnode2. exact Hne. }
      rewrite Hnode2 in Hlen, Hpasses.
      exists cur', n. rewrite leaves_all_set by assumption.
      split; [exact Hcur'|].
      split; [exact (agree_below_trans k _ _ _ Hagree (agree_below_weaken _ _ _ Hagree'))|].
      split; [exact Hlen|].
      intros fuel. rewrite <- finish_skip by assumption. rewrite <- Hpasses.
      apply passes_same_walk.
      apply (walk_into cur disc cur2 disc k); try assumption.
      { rewrite Hnode2. exact Hne. }
      rewrite Hnode2. fold node. apply walk_step_all_set; assumption.
    + (* every device at the node has the bit clear *)
      pose (cur2 := clear_bit cur k).
      assert (word64 cur2) as Hcur2 by (apply word64_clear_bit; assumption).
      assert (agree_below k cur cur2) as Hagree by (apply agree_below_clear_bit; assumption).
      assert (tb cur2 k = false) as Hbit by (apply tb_clear_bit_same; assumption).
      assert (active_at roms cur2 (S k) = node) as Hnode2.
      { rewrite (active_at_S cur cur2 k Hagree), Hbit. exact Hz. }
      assert (on_path roms cur2 disc (S k)) as Hpath2.
      { apply on_path_extend.
        - apply (on_path_agree roms cur cur2 disc disc k Hagree); [intros q _; reflexivity|exact Hpath].
        - rewrite <- (active_at_agree roms cur cur2 k Hagree). fold node.
          rewrite Hz. intros ->. contradiction.
        - intros _. split; assumption.
        - rewrite <- (active_at_agree roms cur cur2 k Hagree). fold node.
          intros Ho' _. contradiction. }
      destruct (IH (S k) cur2 disc) as (cur' & n & Hcur' & Hagree' & Hlen & Hpasses);
        try assumption; try lia.
      { intros p Hp Hp64. apply Hflags; lia. }
      { rewrite Hnode2. exact Hne. }
      rewrite Hnode2 in Hlen, Hpasses.
      exists cur', n. rewrite leaves_all_clear by assumption.
      split; [exact Hcur'|].
      split; [exact (agree_below_trans k _ _ _ Hagree (agree_below_weaken _ _ _ Hagree'))|].
      split; [exact Hlen|].
      intros fuel. rewrite <- finish_skip by assumption. rewrite <- Hpasses.
      apply passes_same_walk.
      apply (walk_into cur disc cur2 disc k); try assumption.
      { rewrite Hnode2. exact Hne. }
      rewrite Hnode2. fold node. apply walk_step_all_clear; assumption.
    + (* a branch point: the side with the bit set, then the other side *)
      pose (cur2 := set_bit cur k). pose (disc2 := set_bit disc k).
      assert (word64 cur2) as Hcur2 by (apply word64_set_bit; assumption).
      assert (word64 disc2) as Hdisc2 by (apply word64_set_bit; assumption).
      assert (agree_below k cur cur2) as Hagree by (apply agree_below_set_bit; assumption).
      assert (agree_below k disc disc2) as Hagreed by (apply agree_below_set_bit; assumption).
      assert (tb disc2 k = true) as Hflag by (apply tb_set_bit_same; assumption).
      assert (no_flags_from (S k) disc2) as Hflags2.
      { intros p Hp Hp64. unfold disc2. rewrite tb_set_bit by assumption.
        rewrite Hflags by lia. destruct (Nat.eqb_spec p k); [lia|reflexivity]. }
      assert (forall c, agree_below k cur c -> on_path roms c disc2 (S k)) as Hpath2.
      { intros c Hc. apply on_path_extend.
        - apply (on_path_agree roms cur c disc disc2 k Hc Hagreed Hpath).
        - rewrite <- (active_at_agree roms cur c k Hc). fold node. intros Hz'. contradiction.
        - rewrite <- (active_at_agree roms cur c k Hc). fold node. intros Ho'. contradiction.
        - intros _ _. exact Hflag. }
      (* the side with the bit set *)
      assert (tb cur2 k = true) as Hbit by (apply tb_set_bit_same; assumption).
      assert (active_at roms cur2 (S k) = ones k node) as Hnode1.
      { rewrite (active_at_S cur cur2 k Hagree), Hbit. reflexivity. }
      destruct (IH (S k) cur2 disc2) as (cur1 & n1 & Hcur1 & Hagree1 & Hlen1 & Hpasses1);
        try assumption; try lia; auto.
      { rewrite Hnode1. exact Ho. }
      rewrite Hnode1 in Hlen1, Hpasses1.
      (* the other side *)
      pose (cur3 := clear_bit cur1 k).
      assert (tb cur1 k = true) as Hbit1 by (rewrite <- (Hagree1 k) by lia; exact Hbit).
      assert (word64 cur3) as Hcur3 by (apply word64_clear_bit; assumption).
      assert (agree_below k cur cur3) as Hagree3.
      { apply (agree_below_trans k _ cur2); [exact Hagree|].
        apply (agree_below_trans k _ cur1); [exact (agree_below_weaken _ _ _ Hagree1)|].
        apply agree_below_clear_bit; assumption. }
      assert (tb cur3 k = false) as Hbit3 by (apply tb_clear_bit_same; assumption).
      assert (active_at roms cur3 (S k) = zeros k node) as Hnode0.
      { rewrite (active_at_S cur cur3 k Hagree3), Hbit3. reflexivity. }
      destruct (IH (S k) cur3 disc2) as (cur0 & n0 & Hcur0 & Hagree0 & Hlen0 & Hpasses0);
        try assumption; try lia; auto.
      { rewrite Hnode0. exact Hz. }
      rewrite Hnode0 in Hlen0, Hpasses0.
      assert (tb cur0 k = false) as Hbit0 by (rewrite <- (Hagree0 k) by lia; exact Hbit3).
      exists cur0, (n1 + S n0)%nat. rewrite leaves_disagree by assumption.
      split; [exact Hcur0|].
      split; [exact (agree_below_trans k _ _ _ Hagree3 (agree_below_weaken _ _ _ Hagree0))|].
      split; [rewrite length_app, Hlen1, Hlen0; lia|].
      intros fuel.
      replace (S (n1 + S n0) + fuel)%nat with (S n1 + (S n0 + fuel))%nat by lia.
      transitivity (passes (S n1 + (S n0 + fuel)) roms cur2 disc2).
      { apply passes_same_walk.
        apply (walk_into cur disc cur2 disc2 k); try assumption; auto.
        { rewrite Hnode1. exact Ho. }
        rewrite Hnode1. fold node. apply walk_step_disagree; assumption. }
      rewrite Hpasses1, finish_break by assumption. fold cur3.
      rewrite Hpasses0, finish_resolve by assumption.
      unfold disc2. rewrite clear_set_bit by assumption.
      destruct (finish fuel roms k cur0 disc) as [found|]; [|reflexivity].
      cbn [option_map]. rewrite app_assoc. reflexivity.
Qed.
End Subtree.

(** *** The pin against the line *)

Lemma for_loop_exit {E St R} (fuel : nat) (cond : St -> bool) (step : St -> St)
      (body : St -> prog E (ctl St R)) (st : St) :
  cond st = false -> for_loop fuel cond step body st = Ret (inl st).
Proof. intros H. destruct fuel; cbn [for_loop]; rewrite H; reflexivity. Qed.

Section Line.
Context (population : nat -> list Z).

(** A low pulse of [t] microseconds, from the released line. *)
Lemma low_pulse_run {A} (t : Z) (rest : prog gpioE A) (lvl : bool) (ph : bus_phase) (r : nat) :
  run (bus population)
      (call (gpio_set_dir ONE_WIRE_GPIO GPIO_OUT) ;;
       call (busy_wait_us_32 t) ;;
       call (gpio_set_dir ONE_WIRE_GPIO GPIO_IN) ;;
       rest)
      (mkBus false None lvl ph r)
  = run (bus population) rest
        (end_of_low_pulse population (t + 0) (mkBus false (Some (t + 0)) lvl ph r)).
Proof. reflexivity. Qed.

Lemma poll_presence_run (lvl : bool) (ph : bus_phase) (r : nat) :
  run (bus population) poll_presence (mkBus false None lvl ph r)
  = Returns (inl (if lvl then (8, false) else (0, true))) (mkBus false None lvl ph r).
Proof. destruct lvl; reflexivity. Qed.

Lemma resetBB_run (lvl : bool) (ph : bus_phase) (r : nat) :
  run (bus population) oneWire_resetBB (mkBus false None lvl ph r)
  = Returns (presence_pulse (population r))
            (mkBus false None (negb (presence_pulse (population r)))
                   (Command [] (population r)) (S r)).
Proof.
  unfold oneWire_resetBB. rewrite low_pulse_run.
  change (end_of_low_pulse population (ONE_WIRE_RESET_PULSE + 0)
            (mkBus false (Some (ONE_WIRE_RESET_PULSE + 0)) lvl ph r))
    with (mkBus false None (negb (presence_pulse (population r)))
                (Command [] (population r)) (S r)).
  rewrite run_bind.
  change (run (bus population) (call (busy_wait_us_32 ONE_WIRE_PRESENCE_CT))
              (mkBus false None (negb (presence_pulse (population r)))
                     (Command [] (population r)) (S r)))
    with (Returns tt (mkBus false None (negb (presence_pulse (population r)))
                            (Command [] (population r)) (S r))).
  cbv beta iota. rewrite run_bind, poll_presence_run.
  destruct (presence_pulse (population r)); reflexivity.
Qed.


Lemma write_byteBB_search_run (lvl : bool) (present : list Z) (r : nat) :
  run (bus population) (oneWire_write_byteBB 0xF0) (mkBus false None lvl (Command [] present) r)
  = Returns true (walking 0 present r).
Proof. reflexivity. Qed.

Lemma read_bitBB_first_run (lvl : bool) (bit : Z) (active : list Z) (r : nat) :
  run (bus population) oneWire_read_bitBB
      (mkBus false None lvl (Searching bit SendBit active) r)
  = Returns (wired_and (fun rom => Z.testbit rom bit) active)
            (mkBus false None (wired_and (fun rom => Z.testbit rom bit) active)
                   (Searching bit SendComplement active) r).
Proof. reflexivity. Qed.

Lemma read_bitBB_second_run (lvl : bool) (bit : Z) (active : list Z) (r : nat) :
  run (bus population) oneWire_read_bitBB
      (mkBus false None lvl (Searching bit SendComplement active) r)
  = Returns (wired_and (fun rom => negb (Z.testbit rom bit)) active)
            (mkBus false None (wired_and (fun rom => negb (Z.testbit rom bit)) active)
                   (Searching bit TakeDirection active) r).
Proof. reflexivity. Qed.

Lemma write_bitBB_run (b lvl : bool) (bit : Z) (active : list Z) (r : nat) :
  run (bus population) (oneWire_write_bitBB b)
      (mkBus false None lvl (Searching bit TakeDirection active) r)
  = Returns tt
            (mkBus false None true
                   (if bit + 1 <? 64
                    then Searching (bit + 1) SendBit
                                   (filter (fun rom => Z.testbit rom bit = b) active)
                    else Idle)
                   r).
Proof. destruct b; reflexivity. Qed.

Lemma walking_S (p : nat) (active : list Z) (r : nat) :
  mkBus false None true
        (if Z.of_nat p + 1 <? 64 then Searching (Z.of_nat p + 1) SendBit active else Idle) r
  = walking (S p) active r.
Proof. unfold walking. rewrite Nat2Z.inj_succ, <- Z.add_1_r. reflexivity. Qed.

Lemma walk_bit_run (p : nat) (active active' : list Z) (cur disc cur' disc' : Z) (r : nat) :
  (p < 64)%nat ->
  walk_step p active cur disc = Some (active', (cur', disc')) ->
  run (bus population) (walk_bit (Z.of_nat p, (cur, disc))) (walking p active r)
  = Returns (Continue (Z.of_nat p, (cur', disc'))) (walking (S p) active' r).
Proof.
  intros Hp Hstep. unfold walking at 1.
  destruct (Z.ltb_spec (Z.of_nat p) 64) as [_|]; [|lia].
  unfold walk_bit. rewrite run_bind, read_bitBB_first_run. cbv beta iota.
  rewrite run_bind, read_bitBB_second_run. cbv beta iota.
  unfold walk_step, tb in Hstep.
  destruct (wired_and (fun rom => Z.testbit rom (Z.of_nat p)) active);
    destruct (wired_and (fun rom => negb (Z.testbit rom (Z.of_nat p))) active);
    cbn [xorb Bool.eqb andb] in *; try discriminate Hstep.
  - injection Hstep as <- <- <-.
    rewrite run_bind, write_bitBB_run, walking_S. reflexivity.
  - injection Hstep as <- <- <-.
    rewrite run_bind, write_bitBB_run, walking_S. reflexivity.
  - unfold flagged, tb in Hstep.
    destruct (negb (Z.land disc (bit64 (Z.of_nat p)) =? 0)).
    + injection Hstep as <- <- <-.
      rewrite run_bind, write_bitBB_run, walking_S. reflexivity.
    + injection Hstep as <- <- <-.
      rewrite run_bind, write_bitBB_run, walking_S. reflexivity.
Qed.

Lemma walk_loop_run (n p : nat) (active : list Z) (cur disc cur' disc' : Z) (r : nat) :
  (p + n = 64)%nat ->
  walk_from n p active cur disc = Some (cur', disc') ->
  run (bus population)
      (for_loop n (fun st => fst st <? 64) (fun '(bit, cd) => (bit + 1, cd)) walk_bit
                (Z.of_nat p, (cur, disc)))
      (walking p active r)
  = Returns (inl (64, (cur', disc'))) (mkBus false None true Idle r).
Proof.
  revert p active cur disc. induction n as [|n IH]; intros p active cur disc Hp Hwalk.
  - assert (p = 64)%nat as -> by lia. injection Hwalk as <- <-. reflexivity.
  - cbn [walk_from] in Hwalk.
    destruct (walk_step p active cur disc) as [[active1 [cur1 disc1]]|] eqn:Hstep;
      [|discriminate].
    rewrite for_loop_S. cbn [fst].
    destruct (Z.ltb_spec (Z.of_nat p) 64) as [_|]; [|lia].
    rewrite run_bind, (walk_bit_run p active active1 cur disc cur1 disc1) by (lia || assumption).
    cbv beta iota.
    replace (Z.of_nat p + 1) with (Z.of_nat (S p)) by lia.
    apply IH; [lia|exact Hwalk].
Qed.

Lemma walk_run (roms : list Z) (cur disc cur' disc' : Z) (r : nat) :
  walk_from 64 0 roms cur disc = Some (cur', disc') ->
  run (bus population) (walk cur disc) (walking 0 roms r)
  = Returns (inl (64, (cur', disc'))) (mkBus false None true Idle r).
Proof. intros Hwalk. apply (walk_loop_run 64 0); [reflexivity|exact Hwalk]. Qed.

Lemma settle_loop (n : nat) (cur disc : Z) :
  exists bit,
    (bit <? 0) = snd (settle_from n cur disc)
    /\ for_loop n (fun st => fst st >=? 0) (fun '(bit, cd) => (bit - 1, cd))
                (fun st => @Ret gpioE _ (settle_bit st))
                (Z.of_nat n - 1, (cur, disc))
       = Ret (inl (bit, fst (settle_from n cur disc))).
Proof.
  revert cur disc. induction n as [|n IH]; intros cur disc.
  - exists (-1). split; reflexivity.
  - rewrite for_loop_S. cbn [fst].
    destruct (Z.geb_spec (Z.of_nat (S n) - 1) 0) as [_|]; [|lia].
    replace (Z.of_nat (S n) - 1) with (Z.of_nat n) by lia.
    cbn [bind settle_bit settle_from]. unfold flagged.
    destruct (negb (Z.land disc (bit64 (Z.of_nat n)) =? 0)).
    + destruct (negb (Z.land cur (bit64 (Z.of_nat n)) =? 0)).
      * exists (Z.of_nat n). split; [|reflexivity].
        cbn [snd]. apply Z.ltb_ge. lia.
      * apply IH.
    + apply IH.
Qed.

Lemma settle_run (cur disc : Z) (b : Bus) :
  exists bit,
    (bit <? 0) = snd (settle_from 64 cur disc)
    /\ run (bus population) (settle cur disc) b
       = Returns (inl (bit, fst (settle_from 64 cur disc))) b.
Proof.
  destruct (settle_loop 64 cur disc) as (bit & Hbit & Hloop).
  exists bit. split; [exact Hbit|].
  unfold settle. change 63 with (Z.of_nat 64 - 1). rewrite Hloop. reflexivity.
Qed.

Lemma search_pass_run (nd : nat) (cur disc c1 d1 : Z) (dn : bool) (devs : list Z)
      (lvl : bool) (ph : bus_phase) (r : nat) :
  presence_pulse (population r) = true ->
  walk_from 64 0 (population r) cur disc = Some (c1, d1) ->
  (nd < length devs)%nat ->
  run (bus population) (search_pass (mkSearch (Z.of_nat nd) cur disc dn devs))
      (mkBus false None lvl ph r)
  = Returns (Continue (mkSearch (Z.of_nat nd + 1)
                                (fst (fst (settle_from 64 c1 d1)))
                                (snd (fst (settle_from 64 c1 d1)))
                                (if snd (settle_from 64 c1 d1) then true else dn)
                                (<[nd := c1]> devs)))
            (mkBus false None true Idle (S r)).
Proof.
  intros Hpresent Hwalk Hnd. unfold search_pass.
  rewrite run_bind, resetBB_run, Hpresent. cbn [negb].
  rewrite run_bind, write_byteBB_search_run. cbn [current discrepancy].
  rewrite run_bind, (walk_run _ _ _ _ _ _ Hwalk). cbv beta iota.
  cbn [Discovery.devs nextdev].
  rewrite run_bind. unfold store.
  destruct (Z.ltb_spec (Z.of_nat nd) 0) as [|_]; [lia|].
  rewrite Nat2Z.id.
  destruct (lookup_lt_is_Some_2 devs nd Hnd) as [old Hold]. rewrite Hold.
  cbn [run]. rewrite run_bind.
  destruct (settle_run c1 d1 (mkBus false None true Idle (S r))) as (bit & Hbit & Hrun).
  rewrite Hrun. cbn [exit_state].
  destruct (settle_from 64 c1 d1) as [[c2 d2] fin]. cbn [fst snd] in *.
  rewrite Hbit. reflexivity.
Qed.
End Line.

(** *** The passes on the pin *)

Lemma record_app (found devs : list Z) (nd : nat) :
  (nd + length found <= length devs)%nat ->
  record devs nd found = take nd devs ++ found ++ drop (nd + length found) devs.
Proof.
  revert devs nd. induction found as [|rom found IH]; intros devs nd Hlen.
  - cbn [record length app]. rewrite Nat.add_0_r, take_drop. reflexivity.
  - cbn [record length] in *. rewrite IH by (rewrite length_insert; lia).
    destruct (lookup_lt_is_Some_2 devs nd) as [old Hold]; [lia|].
    rewrite (take_S_r (<[nd:=rom]> devs) nd rom)
      by (apply list_lookup_insert_eq; apply lookup_lt_Some in Hold; exact Hold).
    rewrite take_insert_ge by lia. rewrite drop_insert_lt by lia.
    rewrite <- app_assoc. cbn [app].
    replace (S nd + length found)%nat with (nd + S (length found))%nat by lia.
    reflexivity.
Qed.

Lemma search_loop_run (roms : list Z) (fuel : nat) :
  roms <> [] ->
  forall (cur disc : Z) (found : list Z) (nd : nat) (devs : list Z)
         (lvl : bool) (ph : bus_phase) (r : nat),
    passes fuel roms cur disc = Some found ->
    (nd + length found <= length devs)%nat ->
    exists cur' disc',
      run (bus (static roms))
          (search_loop fuel (mkSearch (Z.of_nat nd) cur disc false devs))
          (mkBus false None lvl ph r)
      = Returns (inl (mkSearch (Z.of_nat (nd + length found)) cur' disc' true
                               (record devs nd found)))
                (mkBus false None true Idle (r + length found)).
Proof.
  intros Hne. induction fuel as [|fuel IH];
    intros cur disc found nd devs lvl ph r Hpasses Hlen; [discriminate|].
  cbn [passes] in Hpasses.
  destruct (walk_from 64 0 roms cur disc) as [[c1 d1]|] eqn:Hwalk; [|discriminate].
  assert (presence_pulse (static roms r) = true) as Hpresent
    by (unfold static; destruct roms; [contradiction|reflexivity]).
  unfold search_loop. rewrite for_loop_S. cbn [done negb].
  assert (nd < length devs)%nat as Hnd.
  { destruct (settle_from 64 c1 d1) as [[c2 d2] [|]].
    - injection Hpasses as <-. cbn [length] in Hlen. lia.
    - destruct (passes fuel roms c2 d2); [|discriminate].
      injection Hpasses as <-. cbn [length] in Hlen. lia. }
  rewrite run_bind, (search_pass_run (static roms) nd cur disc c1 d1) by assumption.
  cbv beta iota.
  destruct (settle_from 64 c1 d1) as [[c2 d2] [|]]; cbn [fst snd].
  - injection Hpasses as <-.
    rewrite for_loop_exit by reflexivity.
    exists c2, d2. cbn [run record length].
    replace (Z.of_nat nd + 1) with (Z.of_nat (nd + 1)) by lia.
    replace (r + 1)%nat with (S r) by lia. reflexivity.
  - destruct (passes fuel roms c2 d2) as [found'|] eqn:Hrest; [|discriminate].
    injection Hpasses as <-. cbn [length] in Hlen.
    replace (Z.of_nat nd + 1) with (Z.of_nat (S nd)) by lia.
    destruct (IH c2 d2 found' (S nd) (<[nd:=c1]> devs) true Idle (S r) Hrest)
      as (cur' & disc' & Hrun).
    { rewrite length_insert. lia. }
    exists cur', disc'. fold (search_loop fuel (mkSearch (Z.of_nat (S nd)) c2 d2 false (<[nd:=c1]> devs))).
    rewrite Hrun. cbn [record length].
    replace (nd + S (length found'))%nat with (S nd + length found')%nat by lia.
    replace (r + S (length found'))%nat with (S r + length found')%nat by lia.
    reflexivity.
Qed.

(** *** The trie *)

Lemma leaves_length (depth k : nat) (node : list Z) :
  node <> [] -> length (leaves depth k node) = S (branch_points depth k node).
Proof.
  revert k node. induction depth as [|depth IH]; intros k node Hne.
  - destruct node; [contradiction|reflexivity].
  - destruct (reads_at k node Hne) as [Hz Ho|Ho Hz|Ho Hz].
    + rewrite leaves_all_set, branch_points_all_set by assumption. apply IH, Hne.
    + rewrite leaves_all_clear, branch_points_all_clear by assumption. apply IH, Hne.
    + rewrite leaves_disagree, branch_points_disagree by assumption.
      rewrite length_app, !IH by assumption. lia.
Qed.

Lemma ones_zeros_perm (k : nat) (node : list Z) : ones k node ++ zeros k node ≡ₚ node.
Proof.
  unfold ones, zeros.
  rewrite <- (filter_app_complement (fun rom => tb rom k = true) node) at 3.
  f_equiv.
  rewrite (list_filter_iff (fun rom => tb rom k = false) (fun rom => tb rom k <> true));
    [reflexivity|].
  intros rom. destruct (tb rom k); split; congruence.
Qed.

Lemma Forall_filter_sub {A} (P Q : A -> Prop) `{!forall x, Decision (Q x)} (l : list A) :
  Forall P l -> Forall P (filter Q l).
Proof.
  rewrite !Forall_forall. intros Hall x Hx.
  apply list_elem_of_filter in Hx as [_ Hx]. apply Hall, Hx.
Qed.

Lemma leaves_nil (depth k : nat) : leaves depth k [] = [].
Proof.
  revert k. induction depth as [|depth IH]; intros k; [reflexivity|].
  cbn [leaves]. change (ones k []) with (@nil Z). change (zeros k []) with (@nil Z).
  apply IH.
Qed.

Lemma leaves_perm (depth k : nat) (node : list Z) :
  (k + depth = 64)%nat -> NoDup node -> Forall word64 node ->
  (forall x y, x ∈ node -> y ∈ node -> agree_below k x y) ->
  leaves depth k node ≡ₚ node.
Proof.
  revert k node. induction depth as [|depth IH]; intros k node Hk Hnd Hw Hagree.
  - assert (k = 64)%nat as -> by lia. cbn [leaves].
    destruct node as [|x [|y rest]]; [reflexivity|reflexivity|exfalso].
    apply NoDup_cons in Hnd as [Hx _]. apply Hx.
    assert (x = y) as ->; [|left].
    rewrite Forall_forall in Hw.
    apply word64_ext.
    + apply Hw. left.
    + apply Hw. right. left.
    + apply Hagree; [left|right; left].
  - destruct (decide (node = [])) as [->|Hne]; [rewrite leaves_nil; reflexivity|].
    assert (forall sub, sub = ones k node \/ sub = zeros k node ->
                        leaves depth (S k) sub ≡ₚ sub) as Hsub.
    { intros sub Hsub. apply IH; [lia| | |].
      - destruct Hsub as [->| ->]; apply NoDup_filter, Hnd.
      - destruct Hsub as [->| ->]; apply Forall_filter_sub, Hw.
      - intros x y Hx Hy q Hq.
        destruct Hsub as [->| ->];
          apply list_elem_of_filter in Hx as [Hbx Hx];
          apply list_elem_of_filter in Hy as [Hby Hy];
          (destruct (Nat.eq_dec q k) as [->|]; [congruence|apply Hagree; [| |lia]; assumption]). }
    destruct (reads_at k node Hne) as [Hz Ho|Ho Hz|Ho Hz].
    + rewrite leaves_all_set by assumption.
      rewrite <- Ho at 1 2. apply Hsub. left. reflexivity.
    + rewrite leaves_all_clear by assumption.
      rewrite <- Hz at 1 2. apply Hsub. right. reflexivity.
    + rewrite leaves_disagree by assumption.
      rewrite (Hsub (ones k node)), (Hsub (zeros k node)) by auto.
      apply ones_zeros_perm.
Qed.

(** The passes from the initial state record the leaves of the trie. *)
Lemma passes_leaves (roms : list Z) (fuel : nat) :
  Forall word64 roms -> roms <> [] ->
  (length (leaves 64 0 roms) <= fuel)%nat ->
  passes fuel roms 0 0 = Some (leaves 64 0 roms).
Proof.
  intros Hw Hne Hfuel.
  assert (word64 0) as H0 by (unfold word64; lia).
  destruct (subtree roms Hw 64 0%nat 0 0) as (cur' & n & _ & _ & Hlen & Hpasses);
    try assumption; try reflexivity.
  { intros p Hp. lia. }
  { intros p _ _. unfold tb. apply Z.bits_0. }
  cbn [active_at] in Hlen, Hpasses.
  replace fuel with (S n + (fuel - S n))%nat by lia.
  rewrite Hpasses. unfold finish. cbn [settle_from option_map].
  rewrite app_nil_r. reflexivity.
Qed.

(** *** The whole search *)

Lemma search_rom_run (population : nat -> list Z) (fuel : nat) (devs : list Z) :
  run (bus population) (oneWire_search_rom fuel devs) power_up
  = match run (bus population) (search_loop fuel (mkSearch 0 0 0 false devs)) power_up with
    | Returns (inl st) b => Returns (nextdev st, Discovery.devs st) b
    | Returns (inr r) b => Returns r b
    | Aborts r => Aborts r
    | Blocks b => Blocks b
    end.
Proof.
  unfold oneWire_search_rom.
  change (run (bus population)
              (init_OneWireBB ;; call (busy_wait_us_32 100) ;;
               r <- search_loop fuel (mkSearch 0 0 0 false devs) ;;
               match r with
               | inl st => Ret (nextdev st, Discovery.devs st)
               | inr r => Ret r
               end) power_up)
    with (run (bus population)
              (r <- search_loop fuel (mkSearch 0 0 0 false devs) ;;
               match r with
               | inl st => Ret (nextdev st, Discovery.devs st)
               | inr r => Ret r
               end) power_up).
  rewrite run_bind.
  destruct (run (bus population) (search_loop fuel (mkSearch 0 0 0 false devs)) power_up)
    as [[st|r] b|r|b]; reflexivity.
Qed.

(** On a line with the devices [roms], fuel for the passes and room in the
    caller's array, the search returns the number of leaves of the trie,
    leaves them at the front of the array, and has reset the line once per
    leaf. *)
Lemma search_rom_static (roms devs : list Z) (fuel : nat) :
  roms <> [] -> Forall word64 roms ->
  (length (leaves 64 0 roms) <= fuel)%nat ->
  (length (leaves 64 0 roms) <= length devs)%nat ->
  run (bus (static roms)) (oneWire_search_rom fuel devs) power_up
  = Returns (Z.of_nat (length (leaves 64 0 roms)),
             leaves 64 0 roms ++ drop (length (leaves 64 0 roms)) devs)
            (mkBus false None true Idle (length (leaves 64 0 roms))).
Proof.
  intros Hne Hw Hfuel Hroom. rewrite search_rom_run.
  destruct (search_loop_run roms fuel Hne 0 0 (leaves 64 0 roms) 0 devs true Idle 0)
    as (cur' & disc' & Hrun).
  { apply passes_leaves; assumption. }
  { lia. }
  change (Z.of_nat 0) with 0 in Hrun. fold power_up in Hrun.
  rewrite Hrun. cbn [nextdev Discovery.devs Nat.add].
  rewrite record_app by lia. change (take 0 devs) with (@nil Z).
  rewrite app_nil_l. reflexivity.
Qed.

(** A pass that starts on a line without presence pulse ends the search:
    the function returns 0 and the caller's array stays as the passes
    before left it. *)
Lemma search_loop_no_presence (population : nat -> list Z) (fuel : nat)
      (st : search_state) (lvl : bool) (ph : bus_phase) (r : nat) :
  done st = false -> population r = [] ->
  run (bus population) (search_loop (S fuel) st) (mkBus false None lvl ph r)
  = Returns (inr (0, Discovery.devs st)) (mkBus false None true (Command [] []) (S r)).
Proof.
  intros Hdone Hgone. unfold search_loop. rewrite for_loop_S, Hdone. cbn [negb].
  rewrite run_bind. unfold search_pass.
  rewrite run_bind, resetBB_run, Hgone. reflexivity.
Qed.

(** The first [k] passes, none of which ends the search, on a line that has
    the devices [roms] at their resets. *)
Lemma search_loop_prefix (population : nat -> list Z) (roms : list Z) (k : nat) :
  roms <> [] ->
  forall (fuel : nat) (cur disc c d : Z) (found : list Z) (nd : nat) (devs : list Z) (r : nat),
    (forall j, (j < k)%nat -> population (r + j)%nat = roms) ->
    unfinished k roms cur disc = Some (c, d, found) ->
    (nd + k <= length devs)%nat ->
    length found = k
    /\ run (bus population)
           (search_loop (k + fuel) (mkSearch (Z.of_nat nd) cur disc false devs))
           (mkBus false None true Idle r)
       = run (bus population)
             (search_loop fuel (mkSearch (Z.of_nat (nd + k)) c d false (record devs nd found)))
             (mkBus false None true Idle (r + k)).
Proof.
  intros Hne. induction k as [|k IH];
    intros fuel cur disc c d found nd devs r Hpop Hunf Hroom.
  - injection Hunf as <- <- <-. rewrite !Nat.add_0_r. split; reflexivity.
  - cbn [unfinished] in Hunf.
    destruct (walk_from 64 0 roms cur disc) as [[c1 d1]|] eqn:Hwalk; [|discriminate].
    destruct (settle_from 64 c1 d1) as [[c2 d2] [|]] eqn:Hsettle; [discriminate|].
    destruct (unfinished k roms c2 d2) as [[[c' d'] found']|] eqn:Hrest; [|discriminate].
    injection Hunf as <- <- <-.
    assert (population r = roms) as Hr by (rewrite <- (Hpop 0%nat) by lia; f_equal; lia).
    destruct (IH fuel c2 d2 c' d' found' (S nd) (<[nd:=c1]> devs) (S r)) as [Hlen Hrun].
    { intros j Hj. rewrite <- (Hpop (S j)) by lia. f_equal. lia. }
    { exact Hrest. }
    { rewrite length_insert. lia. }
    split; [cbn [length]; lia|].
    cbn [Nat.add]. unfold search_loop at 1. rewrite for_loop_S. cbn [done negb].
    rewrite run_bind, (search_pass_run population nd cur disc c1 d1).
    + rewrite Hsettle. cbn [fst snd]. cbv beta iota.
      replace (Z.of_nat nd + 1) with (Z.of_nat (S nd)) by lia.
      fold (search_loop (k + fuel) (mkSearch (Z.of_nat (S nd)) c2 d2 false (<[nd:=c1]> devs))).
      rewrite Hrun. cbn [record].
      replace (S nd + k)%nat with (nd + S k)%nat by lia.
      replace (S r + k)%nat with (r + S k)%nat by lia. reflexivity.
    + rewrite Hr. destruct roms; [contradiction|reflexivity].
    + rewrite Hr. exact Hwalk.
    + lia.
Qed.

(** C8: on a line with a fixed, non-empty set of devices with distinct
    64-bit ROM codes, where what the processor samples in each read slot is
    the wired AND of the bits (then of the complements) sent by the devices
    still taking part, [oneWire_search_rom], given room in the caller's
    array, returns the number of devices and leaves in the array a
    permutation of their ROM codes: each device once. The line is reset
    once per pass, and the number of passes is the number of branch points of
    the trie of the ROM codes plus one. In particular two devices whose
    codes differ in exactly one bit are found in exactly two passes. *)
Theorem search_rom_enumerates_devices :
  (forall (roms devs : list Z) (fuel : nat),
      roms <> [] -> NoDup roms -> Forall word64 roms ->
      (length roms <= length devs)%nat -> (length roms <= fuel)%nat ->
      exists (found : list Z) (line : Bus),
        run (bus (static roms)) (oneWire_search_rom fuel devs) power_up
        = Returns (Z.of_nat (length roms), found ++ drop (length roms) devs) line
        /\ found ≡ₚ roms
        /\ resets line = S (branch_points 64 0 roms))
  /\ (forall (a b : Z) (k : nat) (devs : list Z) (fuel : nat),
         word64 a -> word64 b -> (k < 64)%nat ->
         (forall q, (q < 64)%nat -> tb a q <> tb b q <-> q = k) ->
         (2 <= length devs)%nat -> (2 <= fuel)%nat ->
         exists (found : list Z) (line : Bus),
           run (bus (static [a; b])) (oneWire_search_rom fuel devs) power_up
           = Returns (2, found ++ drop 2 devs) line
           /\ found ≡ₚ [a; b]
           /\ resets line = 2%nat).
Proof.
  assert (forall (roms devs : list Z) (fuel : nat),
             roms <> [] -> NoDup roms -> Forall word64 roms ->
             (length roms <= length devs)%nat -> (length roms <= fuel)%nat ->
             exists (found : list Z) (line : Bus),
               run (bus (static roms)) (oneWire_search_rom fuel devs) power_up
               = Returns (Z.of_nat (length roms), found ++ drop (length roms) devs) line
               /\ found ≡ₚ roms
               /\ resets line = S (branch_points 64 0 roms)
               /\ resets line = length roms) as Hgeneral.
  { intros roms devs fuel Hne Hnd Hw Hroom Hfuel.
    assert (leaves 64 0 roms ≡ₚ roms) as Hperm.
    { apply leaves_perm; [reflexivity|assumption|assumption|].
      intros x y _ _ q Hq. lia. }
    assert (length (leaves 64 0 roms) = length roms) as Hlen
      by (rewrite Hperm; reflexivity).
    exists (leaves 64 0 roms), (mkBus false None true Idle (length (leaves 64 0 roms))).
    rewrite search_rom_static by (assumption || lia).
    rewrite Hlen at 1 2. split; [reflexivity|]. split; [exact Hperm|].
    cbn [resets]. split; [apply leaves_length, Hne|exact Hlen]. }
  split.
  - intros roms devs fuel Hne Hnd Hw Hroom Hfuel.
    destruct (Hgeneral roms devs fuel Hne Hnd Hw Hroom Hfuel)
      as (found & line & Hrun & Hperm & Hpasses & _).
    exists found, line. auto.
  - intros a b k devs fuel Ha Hb Hk Hdiff Hroom Hfuel.
    destruct (Hgeneral [a; b] devs fuel) as (found & line & Hrun & Hperm & _ & Hpasses);
      try assumption.
    + discriminate.
    + apply NoDup_cons. split; [|apply NoDup_singleton].
      intros Hin. apply list_elem_of_singleton in Hin as ->.
      destruct (Hdiff k Hk) as [_ Hne]. apply Hne; reflexivity.
    + constructor; [exact Ha|]. constructor; [exact Hb|]. constructor.
    + exists found, line. auto.
Qed.

Lemma search_rom_enumerates_devices_witness :
  exists (found : list Z) (line : Bus),
    run (bus (static [5; 7])) (oneWire_search_rom 2 [0; 0; 0]) power_up
    = Returns (Z.of_nat (length [5; 7]), found ++ drop (length [5; 7]) [0; 0; 0]) line
    /\ found ≡ₚ [5; 7]
    /\ resets line = S (branch_points 64 0 [5; 7]).
Proof.
  apply (proj1 search_rom_enumerates_devices [5; 7] [0; 0; 0] 2%nat).
  - discriminate.
  - apply NoDup_cons. split; [|apply NoDup_singleton].
    intros Hin. apply list_elem_of_singleton in Hin. discriminate.
  - constructor; [unfold word64; lia|]. constructor; [unfold word64; lia|]. constructor.
  - cbn. lia.
  - cbn. lia.
Defined.

(** C9: when no device answers the first reset, [oneWire_search_rom]
    returns 0, which is none of the error codes (they are negative), and
    leaves the caller's array as it was. *)
Theorem search_rom_empty_bus (population : nat -> list Z) (devs : list Z) (fuel : nat) :
  population 0%nat = [] ->
  run (bus population) (oneWire_search_rom (S fuel) devs) power_up
  = Returns (0, devs) (mkBus false None true (Command [] []) 1)
  /\ (0 ∉ error_codes)
  /\ Forall (fun code => code < 0) error_codes.
Proof.
  intros Hempty. split; [|split].
  - rewrite search_rom_run. unfold power_up.
    rewrite search_loop_no_presence by (reflexivity || assumption). reflexivity.
  - unfold error_codes. intros Hin.
    repeat (apply elem_of_cons in Hin as [Hin|Hin]; [discriminate|]).
    inversion Hin.
  - unfold error_codes. repeat (constructor; [reflexivity|]). constructor.
Qed.

Lemma search_rom_empty_bus_witness :
  run (bus (static [])) (oneWire_search_rom 1 [0; 0; 0]) power_up
  = Returns (0, [0; 0; 0]) (mkBus false None true (Command [] []) 1).
Proof.
  exact (proj1 (search_rom_empty_bus (static []) [0; 0; 0] 0%nat eq_refl)).
Defined.

(** C10: when the line answers the first [k] resets with the devices [roms]
    and [k] passes are made none of which ends the search, and no device
    answers the next reset, [oneWire_search_rom] returns 0, not [k] and not
    an error code, while the [k] ROM codes recorded by those passes are in
    the caller's array. *)
Theorem search_rom_presence_lost (population : nat -> list Z) (roms devs : list Z)
        (k fuel : nat) (c d : Z) (found : list Z) :
  roms <> [] ->
  (forall j, (j < k)%nat -> population j = roms) ->
  population k = [] ->
  unfinished k roms 0 0 = Some (c, d, found) ->
  (k <= length devs)%nat ->
  run (bus population) (oneWire_search_rom (k + S fuel) devs) power_up
  = Returns (0, found ++ drop k devs) (mkBus false None true (Command [] []) (S k))
  /\ length found = k
  /\ (0 ∉ error_codes).
Proof.
  intros Hne Hpop Hgone Hunf Hroom.
  destruct (search_loop_prefix population roms k Hne (S fuel) 0 0 c d found 0 devs 0)
    as [Hlen Hrun]; [exact Hpop|exact Hunf|lia|].
  split; [|split; [exact Hlen|]].
  - rewrite search_rom_run. unfold power_up.
    change 0 with (Z.of_nat 0) at 1. rewrite Hrun.
    rewrite search_loop_no_presence by (reflexivity || assumption).
    cbn [Discovery.devs Nat.add]. rewrite record_app by lia.
    change (take 0 devs) with (@nil Z). rewrite app_nil_l, Hlen. reflexivity.
  - unfold error_codes. intros Hin.
    repeat (apply elem_of_cons in Hin as [Hin|Hin]; [discriminate|]).
    inversion Hin.
Qed.

Lemma search_rom_presence_lost_witness :
  run (bus (fun n => match n with O => [5; 7] | _ => [] end))
      (oneWire_search_rom 2 [0; 0; 0]) power_up
  = Returns (0, [7; 0; 0]) (mkBus false None true (Command [] []) 2).
Proof.
  apply (proj1 (search_rom_presence_lost
                  (fun n => match n with O => [5; 7] | _ => [] end)
                  [5; 7] [0; 0; 0] 1 0 5 2 [7]
                  ltac:(discriminate)
                  ltac:(intros [|j] Hj; [reflexivity|lia])
                  eq_refl
                  ltac:(vm_compute; reflexivity)
                  ltac:(cbn; lia))).
Defined.

(** *** The order in which the devices are found *)

Lemma leaves_elem (depth : nat) :
  forall (k : nat) (node : list Z) (x : Z), x ∈ leaves depth k node -> x ∈ node.
Proof.
  induction depth as [|depth IH]; intros k node x Hx.
  - cbn [leaves] in Hx. eapply subseteq_take, Hx.
  - destruct (decide (node = [])) as [->|Hne]; [rewrite leaves_nil in Hx; exact Hx|].
    destruct (reads_at k node Hne) as [Hz Ho|Ho Hz|Ho Hz].
    + rewrite leaves_all_set in Hx by assumption. eapply IH, Hx.
    + rewrite leaves_all_clear in Hx by assumption. eapply IH, Hx.
    + rewrite leaves_disagree in Hx by assumption.
      apply elem_of_app in Hx as [Hx|Hx]; apply IH in Hx;
        apply list_elem_of_filter in Hx as [_ Hx]; exact Hx.
Qed.

Lemma agree_below_S (k : nat) (x y : Z) :
  agree_below k x y -> tb x k = tb y k -> agree_below (S k) x y.
Proof.
  intros Hagree Hk q Hq. destruct (Nat.eq_dec q k) as [->|]; [exact Hk|].
  apply Hagree. lia.
Qed.

Lemma leaves_sorted (depth : nat) :
  forall (k : nat) (node : list Z),
    (k + depth = 64)%nat ->
    (forall x y, x ∈ node -> y ∈ node -> agree_below k x y) ->
    StronglySorted before (leaves depth k node).
Proof.
  induction depth as [|depth IH]; intros k node Hk Hagree.
  - cbn [leaves]. destruct node as [|x node]; cbn [take]; repeat constructor.
  - destruct (decide (node = [])) as [->|Hne]; [rewrite leaves_nil; constructor|].
    assert (forall b sub, sub = filter (fun rom => tb rom k = b) node ->
                          forall x y, x ∈ sub -> y ∈ sub -> agree_below (S k) x y) as Hsub.
    { intros b sub -> x y Hx Hy.
      apply list_elem_of_filter in Hx as [Hbx Hx].
      apply list_elem_of_filter in Hy as [Hby Hy].
      apply agree_below_S; [apply Hagree; assumption | congruence]. }
    destruct (reads_at k node Hne) as [Hz Ho|Ho Hz|Ho Hz].
    + rewrite leaves_all_set by assumption.
      apply IH; [lia|]. apply (Hsub true). symmetry. exact Ho.
    + rewrite leaves_all_clear by assumption.
      apply IH; [lia|]. apply (Hsub false). symmetry. exact Hz.
    + rewrite leaves_disagree by assumption.
      apply StronglySorted_app. split; [|split].
      * intros a b Ha Hb.
        apply leaves_elem, list_elem_of_filter in Ha as [Hta Ha].
        apply leaves_elem, list_elem_of_filter in Hb as [Htb Hb].
        exists k. split; [lia|]. split; [apply Hagree; assumption|]. split; assumption.
      * apply IH; [lia|]. apply (Hsub true). reflexivity.
      * apply IH; [lia|]. apply (Hsub false). reflexivity.
Qed.

Lemma leaves_of_permutation (depth : nat) :
  forall (k : nat) (node node' : list Z),
    (k + depth = 64)%nat -> NoDup node -> Forall word64 node ->
    (forall x y, x ∈ node -> y ∈ node -> agree_below k x y) ->
    node ≡ₚ node' ->
    leaves depth k node = leaves depth k node'.
Proof.
  induction depth as [|depth IH]; intros k node node' Hk Hnd Hw Hagree Hperm.
  - assert (k = 64)%nat as -> by lia. cbn [leaves].
    destruct node as [|x [|y rest]].
    + apply Permutation_nil_l in Hperm as ->. reflexivity.
    + apply Permutation_singleton_l in Hperm as ->. reflexivity.
    + exfalso. apply NoDup_cons in Hnd as [Hx _]. apply Hx.
      assert (x = y) as ->; [|left].
      rewrite Forall_forall in Hw.
      apply word64_ext; [apply Hw; left | apply Hw; right; left |].
      apply Hagree; [left|right; left].
  - destruct (decide (node = [])) as [->|Hne].
    { apply Permutation_nil_l in Hperm as ->. reflexivity. }
    assert (node' <> []) as Hne'.
    { intros ->. apply Hne, Permutation_nil_r. exact Hperm. }
    assert (forall b, filter (fun rom => tb rom k = b) node
                      ≡ₚ filter (fun rom => tb rom k = b) node') as Hfilter.
    { intros b. rewrite Hperm. reflexivity. }
    assert (forall b, leaves depth (S k) (filter (fun rom => tb rom k = b) node)
                      = leaves depth (S k) (filter (fun rom => tb rom k = b) node')) as Hsub.
    { intros b. apply IH; [lia| | | |apply Hfilter].
      - apply NoDup_filter, Hnd.
      - apply Forall_filter_sub, Hw.
      - intros x y Hx Hy.
        apply list_elem_of_filter in Hx as [Hbx Hx].
        apply list_elem_of_filter in Hy as [Hby Hy].
        apply agree_below_S; [apply Hagree; assumption | congruence]. }
    assert (forall b, filter (fun rom => tb rom k = b) node = []
                      <-> filter (fun rom => tb rom k = b) node' = []) as Hnil.
    { intros b. split; intros Hb.
      - apply Permutation_nil_r. rewrite <- Hb. symmetry. apply Hfilter.
      - apply Permutation_nil_r. rewrite <- Hb. apply Hfilter. }
    destruct (reads_at k node Hne) as [Hz Ho|Ho Hz|Ho Hz].
    + rewrite leaves_all_set by assumption.
      rewrite (leaves_all_set depth k node' Hne') by (apply (Hnil false), Hz).
      rewrite <- Ho at 1.
      assert (ones k node' = node') as <-.
      { apply filter_all. intros x Hx.
        destruct (tb x k) eqn:Hb; [reflexivity|exfalso].
        assert (x ∈ zeros k node') as Hin by (apply list_elem_of_filter; auto).
        unfold zeros in Hin. rewrite (proj1 (Hnil false) Hz) in Hin. inversion Hin. }
      apply (Hsub true).
    + rewrite leaves_all_clear by assumption.
      rewrite (leaves_all_clear depth k node') by (apply (Hnil true), Ho).
      rewrite <- Hz at 1.
      assert (zeros k node' = node') as <-.
      { apply filter_all. intros x Hx.
        destruct (tb x k) eqn:Hb; [exfalso|reflexivity].
        assert (x ∈ ones k node') as Hin by (apply list_elem_of_filter; auto).
        unfold ones in Hin. rewrite (proj1 (Hnil true) Ho) in Hin. inversion Hin. }
      apply (Hsub false).
    + rewrite leaves_disagree by assumption.
      assert (ones k node' <> []) as Ho' by (intros Hb; apply Ho, (Hnil true), Hb).
      assert (zeros k node' <> []) as Hz' by (intros Hb; apply Hz, (Hnil false), Hb).
      rewrite (leaves_disagree depth k node' Ho' Hz').
      unfold ones, zeros. rewrite (Hsub true), (Hsub false). reflexivity.
Qed.

(** X11: the devices are found in a fixed order, whatever their places on
    the line: a device comes before another when it has the 1 at the first
    bit where their ROM codes differ. The array that [oneWire_search_rom]
    fills is sorted in that order, and is the same for any rearrangement of
    the same devices. *)
Theorem search_rom_order (roms roms' devs : list Z) (fuel : nat) :
  roms <> [] -> NoDup roms -> Forall word64 roms -> roms ≡ₚ roms' ->
  (length roms <= length devs)%nat -> (length roms <= fuel)%nat ->
  exists (found : list Z) (line : Bus),
    run (bus (static roms)) (oneWire_search_rom fuel devs) power_up
    = Returns (Z.of_nat (length roms), found ++ drop (length roms) devs) line
    /\ StronglySorted before found
    /\ run (bus (static roms')) (oneWire_search_rom fuel devs) power_up
       = Returns (Z.of_nat (length roms), found ++ drop (length roms) devs) line.
Proof.
  intros Hne Hnd Hw Hperm Hdevs Hfuel.
  assert (forall x y, x ∈ roms -> y ∈ roms -> agree_below 0 x y) as Hagree.
  { intros x y _ _ q Hq. lia. }
  assert (length (leaves 64 0 roms) = length roms) as Hlen.
  { apply Permutation_length, leaves_perm; auto. }
  assert (leaves 64 0 roms = leaves 64 0 roms') as Hsame.
  { apply leaves_of_permutation; auto. }
  assert (roms' <> []) as Hne'.
  { intros ->. apply Hne, Permutation_nil_r. exact Hperm. }
  assert (Forall word64 roms') as Hw' by (rewrite <- Hperm; exact Hw).
  exists (leaves 64 0 roms), (mkBus false None true Idle (length roms)).
  split; [|split].
  - rewrite search_rom_static by (rewrite ?Hlen; assumption).
    rewrite Hlen. reflexivity.
  - apply leaves_sorted; [reflexivity | exact Hagree].
  - rewrite search_rom_static by (rewrite <- ?Hsame, ?Hlen; assumption).
    rewrite <- Hsame, Hlen. reflexivity.
Qed.

Lemma search_rom_order_witness :
  exists (found : list Z) (line : Bus),
    run (bus (static [5; 7; 2])) (oneWire_search_rom 3 [0; 0; 0]) power_up
    = Returns (Z.of_nat (length [5; 7; 2]), found ++ drop (length [5; 7; 2]) [0; 0; 0]) line
    /\ StronglySorted before found
    /\ run (bus (static [2; 5; 7])) (oneWire_search_rom 3 [0; 0; 0]) power_up
       = Returns (Z.of_nat (length [5; 7; 2]), found ++ drop (length [5; 7; 2]) [0; 0; 0]) line.
Proof.
  apply (search_rom_order [5; 7; 2] [2; 5; 7] [0; 0; 0] 3).
  - discriminate.
  - exact (bool_decide_eq_true_1 (NoDup [5; 7; 2]) eq_refl).
  - repeat (constructor; [unfold word64; lia|]). constructor.
  - symmetry. apply (Permutation_cons_append [5; 7] 2).
  - cbn; lia.
  - cbn; lia.
Defined.

(** *** An array too small for the devices on the line *)

Lemma search_pass_overrun (population : nat -> list Z) (nd : nat) (cur disc c1 d1 : Z)
      (dn : bool) (devs : list Z) (lvl : bool) (ph : bus_phase) (r : nat) :
  presence_pulse (population r) = true ->
  walk_from 64 0 (population r) cur disc = Some (c1, d1) ->
  (length devs <= nd)%nat ->
  run (bus population) (search_pass (mkSearch (Z.of_nat nd) cur disc dn devs))
      (mkBus false None lvl ph r)
  = Aborts UndefinedBehaviour.
Proof.
  intros Hpresent Hwalk Hnd. unfold search_pass.
  rewrite run_bind, resetBB_run, Hpresent. cbn [negb].
  rewrite run_bind, write_byteBB_search_run. cbn [current discrepancy].
  rewrite run_bind, (walk_run _ _ _ _ _ _ _ Hwalk). cbv beta iota.
  cbn [Discovery.devs nextdev].
  rewrite run_bind. unfold store.
  destruct (Z.ltb_spec (Z.of_nat nd) 0) as [|_]; [lia|].
  rewrite Nat2Z.id, (lookup_ge_None_2 devs nd) by lia.
  reflexivity.
Qed.

Lemma search_loop_overrun (roms : list Z) (fuel : nat) :
  roms <> [] ->
  forall (cur disc : Z) (found : list Z) (nd : nat) (devs : list Z)
         (lvl : bool) (ph : bus_phase) (r : nat),
    passes fuel roms cur disc = Some found ->
    (length devs < nd + length found)%nat ->
    run (bus (static roms))
        (search_loop fuel (mkSearch (Z.of_nat nd) cur disc false devs))
        (mkBus false None lvl ph r)
    = Aborts UndefinedBehaviour.
Proof.
  intros Hne. induction fuel as [|fuel IH];
    intros cur disc found nd devs lvl ph r Hpasses Hlen; [discriminate|].
  cbn [passes] in Hpasses.
  destruct (walk_from 64 0 roms cur disc) as [[c1 d1]|] eqn:Hwalk; [|discriminate].
  assert (presence_pulse (static roms r) = true) as Hpresent
    by (unfold static; destruct roms; [contradiction|reflexivity]).
  unfold search_loop. rewrite for_loop_S. cbn [done negb].
  destruct (Nat.lt_ge_cases nd (length devs)) as [Hnd|Hnd].
  - rewrite run_bind, (search_pass_run (static roms) nd cur disc c1 d1) by assumption.
    cbv beta iota.
    destruct (settle_from 64 c1 d1) as [[c2 d2] [|]]; cbn [fst snd].
    + injection Hpasses as <-. cbn [length] in Hlen. lia.
    + destruct (passes fuel roms c2 d2) as [found'|] eqn:Hrest; [|discriminate].
      injection Hpasses as <-. cbn [length] in Hlen.
      replace (Z.of_nat nd + 1) with (Z.of_nat (S nd)) by lia.
      fold (search_loop fuel (mkSearch (Z.of_nat (S nd)) c2 d2 false (<[nd:=c1]> devs))).
      apply (IH c2 d2 found' (S nd)); [exact Hrest|].
      rewrite length_insert. lia.
  - rewrite run_bind, (search_pass_overrun (static roms) nd cur disc c1 d1) by assumption.
    reflexivity.
Qed.

(** X12: [oneWire_search_rom] has no bound on the caller's array: on a
    line with more devices than the array has entries it fills the array
    and writes the next ROM code past its end. *)
Theorem search_rom_overruns_small_array (roms devs : list Z) (fuel : nat) :
  roms <> [] -> NoDup roms -> Forall word64 roms ->
  (length devs < length roms)%nat -> (length roms <= fuel)%nat ->
  run (bus (static roms)) (oneWire_search_rom fuel devs) power_up
  = Aborts UndefinedBehaviour.
Proof.
  intros Hne Hnd Hw Hsmall Hfuel.
  assert (length (leaves 64 0 roms) = length roms) as Hlen.
  { apply Permutation_length, leaves_perm; auto. intros x y _ _ q Hq. lia. }
  rewrite search_rom_run.
  pose proof (search_loop_overrun roms fuel Hne 0 0 (leaves 64 0 roms) 0 devs true Idle 0)
    as Hrun.
  change (Z.of_nat 0) with 0 in Hrun. fold power_up in Hrun.
  rewrite Hrun; [reflexivity | | lia].
  apply passes_leaves; [assumption | assumption | lia].
Qed.

Lemma search_rom_overruns_small_array_witness :
  run (bus (static [5; 7; 2])) (oneWire_search_rom 3 [0; 0]) power_up
  = Aborts UndefinedBehaviour.
Proof.
  apply (search_rom_overruns_small_array [5; 7; 2] [0; 0] 3).
  - discriminate.
  - exact (bool_decide_eq_true_1 (NoDup [5; 7; 2]) eq_refl).
  - repeat (constructor; [unfold word64; lia|]). constructor.
  - cbn; lia.
  - cbn; lia.
Defined.


(** *** The byte on the line *)

Lemma write_bitBB_turn {A B} (bit : bool) (v : Z) (k : Z -> prog gpioE A)
      (g : A -> prog gpioE B) :
  bind (bind (bind (if bit then write_1_sequence else write_0_sequence) (fun _ => Ret v)) k) g
  = bind (oneWire_write_bitBB bit) (fun _ => bind (k v) g).
Proof. destruct bit; reflexivity. Qed.

Lemma write_byteBB_turns (c : Z -> bool) :
  (for_each 8 (fun b => b <=? 128) (fun b => Z.shiftl b 1)
            (fun b => (if c b then write_1_sequence else write_0_sequence) ;; Ret b) 1 ;;
   Ret true)
  = fold_right (fun b rest => oneWire_write_bitBB (c b) ;; rest) (Ret true)
               [1; 2; 4; 8; 16; 32; 64; 128].
Proof.
  cbn [fold_right].
  rewrite for_each_S. change (1 <=? 128) with true. cbv iota.
  rewrite write_bitBB_turn. change (Z.shiftl 1 1) with 2.
  apply (f_equal (fun r => bind (oneWire_write_bitBB (c 1)) (fun _ => r))).
  rewrite for_each_S. change (2 <=? 128) with true. cbv iota.
  rewrite write_bitBB_turn. change (Z.shiftl 2 1) with 4.
  apply (f_equal (fun r => bind (oneWire_write_bitBB (c 2)) (fun _ => r))).
  rewrite for_each_S. change (4 <=? 128) with true. cbv iota.
  rewrite write_bitBB_turn. change (Z.shiftl 4 1) with 8.
  apply (f_equal (fun r => bind (oneWire_write_bitBB (c 4)) (fun _ => r))).
  rewrite for_each_S. change (8 <=? 128) with true. cbv iota.
  rewrite write_bitBB_turn. change (Z.shiftl 8 1) with 16.
  apply (f_equal (fun r => bind (oneWire_write_bitBB (c 8)) (fun _ => r))).
  rewrite for_each_S. change (16 <=? 128) with true. cbv iota.
  rewrite write_bitBB_turn. change (Z.shiftl 16 1) with 32.
  apply (f_equal (fun r => bind (oneWire_write_bitBB (c 16)) (fun _ => r))).
  rewrite for_each_S. change (32 <=? 128) with true. cbv iota.
  rewrite write_bitBB_turn. change (Z.shiftl 32 1) with 64.
  apply (f_equal (fun r => bind (oneWire_write_bitBB (c 32)) (fun _ => r))).
  rewrite for_each_S. change (64 <=? 128) with true. cbv iota.
  rewrite write_bitBB_turn. change (Z.shiftl 64 1) with 128.
  apply (f_equal (fun r => bind (oneWire_write_bitBB (c 64)) (fun _ => r))).
  rewrite for_each_S. change (128 <=? 128) with true. cbv iota.
  rewrite write_bitBB_turn. change (Z.shiftl 128 1) with 256.
  apply (f_equal (fun r => bind (oneWire_write_bitBB (c 128)) (fun _ => r))).
  reflexivity.
Qed.

Lemma bit_of_byte (data : Z) (k : Z) :
  0 <= k < 8 -> negb (Z.land (2 ^ k) (u8 data) =? 0) = Z.testbit data k.
Proof.
  intros Hk.
  assert (Z.land (2 ^ k) (u8 data) = Z.b2z (Z.testbit data k) * 2 ^ k) as ->.
  { apply Z.bits_inj'. intros i Hi.
    rewrite Z.land_spec, Z.pow2_bits_eqb by lia.
    unfold u8. destruct (Z.eqb_spec k i) as [->|Hne].
    - rewrite Z.mod_pow2_bits_low by lia.
      destruct (Z.testbit data i); cbn [Z.b2z andb].
      + rewrite Z.mul_1_l, Z.pow2_bits_true by lia. reflexivity.
      + rewrite Z.mul_0_l, Z.bits_0. reflexivity.
    - cbn [andb]. destruct (Z.testbit data k); cbn [Z.b2z].
      + rewrite Z.mul_1_l, Z.pow2_bits_false by lia. reflexivity.
      + rewrite Z.mul_0_l, Z.bits_0. reflexivity. }
  destruct (Z.testbit data k); cbn [Z.b2z].
  - rewrite Z.mul_1_l. assert (0 < 2 ^ k) by (apply Z.pow_pos_nonneg; lia).
    destruct (Z.eqb_spec (2 ^ k) 0); [lia|reflexivity].
  - reflexivity.
Qed.

(** X13: [oneWire_write_byteBB] sends the eight bits of its argument, the
    least significant first, each one the way [oneWire_write_bitBB] sends
    it, makes no other call, and returns true. *)
Theorem write_byteBB_sends_bits (data : Z) :
  oneWire_write_byteBB data
  = fold_right (fun k rest => oneWire_write_bitBB (Z.testbit data k) ;; rest) (Ret true)
               [0; 1; 2; 3; 4; 5; 6; 7].
Proof.
  unfold oneWire_write_byteBB.
  rewrite (write_byteBB_turns (fun b => negb (Z.land b (u8 data) =? 0))).
  cbn [fold_right].
  rewrite <- (bit_of_byte data 0), <- (bit_of_byte data 1), <- (bit_of_byte data 2),
    <- (bit_of_byte data 3), <- (bit_of_byte data 4), <- (bit_of_byte data 5),
    <- (bit_of_byte data 6), <- (bit_of_byte data 7) by lia.
  reflexivity.
Qed.

(** *** What the search returns on any line *)

Lemma walk_bit_returns (st : Z * (Z * Z)) :
  always (fun c => match c with
                   | Return r => r = ONE_WIRE_SEARCH_ROM_FAILURE
                   | _ => True
                   end) (walk_bit st).
Proof.
  destruct st as [bit [cur disc]]. unfold walk_bit.
  apply always_bind_any. intros wo1. apply always_bind_any. intros wo2.
  destruct wo1, wo2; cbn [xorb Bool.eqb andb].
  - exact eq_refl.
  - apply always_bind_any. intros _. exact I.
  - apply always_bind_any. intros _. exact I.
  - destruct (negb (Z.land disc (bit64 bit) =? 0)); apply always_bind_any; intros _; exact I.
Qed.

Lemma walk_returns (cur disc : Z) :
  always (fun w => match w with
                   | inl _ => True
                   | inr r => r = ONE_WIRE_SEARCH_ROM_FAILURE
                   end) (walk cur disc).
Proof.
  unfold walk. apply (for_loop_always (fun _ => True)); [| |exact I].
  - intros st _ _. eapply always_weaken; [|apply walk_bit_returns].
    intros [st'|st'|r] Hr; auto.
  - intros st _ _. exact I.
Qed.

(** X14: whatever the line does, [oneWire_search_rom], when it returns,
    returns SearchRomFailure or a count from 0 to the number of entries of
    the caller's array, never another error code; and the array has the
    length it had. *)
Theorem search_rom_returns (fuel : nat) (devs : list Z) :
  always (fun '(r, devs') =>
            length devs' = length devs
            /\ (r = ONE_WIRE_SEARCH_ROM_FAILURE \/ 0 <= r <= Z.of_nat (length devs)))
         (oneWire_search_rom fuel devs).
Proof.
  unfold oneWire_search_rom.
  apply always_bind_any. intros _. apply always_bind_any. intros _.
  apply always_bind. unfold search_loop.
  eapply always_weaken;
    [|apply (for_loop_always
               (fun st => length (Discovery.devs st) = length devs
                          /\ 0 <= nextdev st <= Z.of_nat (length devs))
               (fun r => match r with
                         | inl st => length (Discovery.devs st) = length devs
                                     /\ 0 <= nextdev st <= Z.of_nat (length devs)
                         | inr (r, devs') =>
                             length devs' = length devs
                             /\ (r = ONE_WIRE_SEARCH_ROM_FAILURE
                                 \/ 0 <= r <= Z.of_nat (length devs))
                         end))].
  - intros [st|[r devs']] Hpost; cbn [always]; [|exact Hpost].
    destruct Hpost as [Hlen Hnext]. split; [exact Hlen | right; exact Hnext].
  - intros st [Hlen Hnext] _. unfold search_pass.
    apply always_bind_any. intros found.
    destruct found; cbn [negb].
    + apply always_bind_any. intros _.
      apply always_bind. eapply always_weaken; [|apply walk_returns].
      intros [[bit [cur disc]]|r] Hw.
      * unfold store.
        destruct (nextdev st <? 0); [exact I|].
        destruct (Discovery.devs st !! Z.to_nat (nextdev st)) as [old|] eqn:Hold; [|exact I].
        apply lookup_lt_Some in Hold.
        cbn [bind]. apply always_bind_any. intros s.
        destruct (exit_state s) as [bit' [cur' disc']].
        cbn [always Discovery.devs nextdev]. rewrite length_insert. lia.
      * cbn [always]. subst r. split; [exact Hlen | left; reflexivity].
    + cbn [always]. split; [exact Hlen | right; lia].
  - intros st Hst _. exact Hst.
  - cbn [Discovery.devs nextdev]. split; [reflexivity | lia].
Qed.
End DiscoveryFacts.

(** ** The thermometer program *)

Module DS18B20Facts.
Import Engine Discovery DS18B20 EngineSpec DiscoverySpec DS18B20Spec EngineFacts DiscoveryFacts.

(** *** The bytes of a ROM code *)

Lemma union_byte_spec (l k i : Z) :
  0 <= k -> 0 <= i ->
  Z.testbit (union_byte l k) i = (i <? 8) && Z.testbit l (i + 8 * k).
Proof.
  intros Hk Hi. unfold union_byte.
  change 255 with (Z.ones 8).
  rewrite Z.land_spec, Z.shiftr_spec, Z.testbit_ones_nonneg by lia.
  destruct (Z.ltb_spec i 8).
  - rewrite andb_true_r. reflexivity.
  - rewrite andb_false_r. reflexivity.
Qed.

Lemma union_byte_range (l k : Z) : byte (union_byte l k).
Proof.
  unfold byte, union_byte. change 255 with (Z.ones 8).
  rewrite Z.land_ones by lia. apply Z.mod_pos_bound. reflexivity.
Qed.

Lemma serial_byte (rom k : Z) :
  1 <= k <= 6 ->
  union_byte (u64 (Z.shiftl (Z.land (Z.shiftr rom 8) 0xFFFFFFFFFFFF) 8)) k = union_byte rom k.
Proof.
  intros Hk. apply Z.bits_inj'. intros i Hi.
  rewrite !union_byte_spec by lia.
  destruct (Z.ltb_spec i 8); [|reflexivity]. cbn [andb].
  unfold u64. rewrite Z.mod_pow2_bits_low by lia.
  rewrite Z.shiftl_spec by lia.
  change 0xFFFFFFFFFFFF with (Z.ones 48).
  rewrite Z.land_spec, Z.shiftr_spec, Z.testbit_ones_nonneg by lia.
  replace (i + 8 * k - 8 + 8) with (i + 8 * k) by lia.
  destruct (Z.ltb_spec (i + 8 * k - 8) 48); [|lia].
  apply andb_true_r.
Qed.

Lemma first_byte (rom : Z) : u8 (u16 (Z.land rom 0xFF)) = union_byte rom 0.
Proof.
  unfold union_byte. rewrite Z.shiftr_0_r.
  pose proof (union_byte_range rom 0) as Hb. unfold byte, union_byte in Hb.
  rewrite Z.shiftr_0_r in Hb.
  unfold u8, u16. rewrite (Z.mod_small _ (2 ^ 16)) by lia. apply Z.mod_small. lia.
Qed.

Lemma last_byte (rom : Z) : u8 (u16 (Z.land (Z.shiftr rom 56) 0xFF)) = union_byte rom 7.
Proof.
  unfold union_byte.
  pose proof (union_byte_range rom 7) as Hb. unfold byte, union_byte in Hb.
  change (8 * 7) with 56 in *.
  unfold u8, u16. rewrite (Z.mod_small _ (2 ^ 16)) by lia. apply Z.mod_small. lia.
Qed.

Lemma pair_of_bytes (lo hi : Z) :
  byte lo -> byte hi -> u16 (Z.shiftl (u16 hi) 8 + lo) = lo + 256 * hi.
Proof.
  unfold byte, u16. intros Hlo Hhi.
  rewrite (Z.mod_small hi) by lia.
  rewrite Z.shiftl_mul_pow2 by lia. rewrite Z.mod_small; lia.
Qed.


(** *** Addressing a device *)

Lemma match_words_run (pairf : Z -> Z -> Z) (first : Z) (cmd : Z -> Z)
      (b0 b1 b2 b3 b4 b5 b6 b7 f c : Z) (s r : list Z) :
  run machine
      (u_a <- store [b0; b1; b2; b3; b4; b5; b6; b7] 0 f ;;
       u_a <- store u_a 7 c ;;
       call (pio_sm_put_blocking first) ;;
       for_each 4
         (fun i => i <? 8)
         (fun i => i + 2)
         (fun i =>
            hi <- load u_a (i + 1) ;;
            lo <- load u_a i ;;
            call (pio_sm_put_blocking (cmd (pairf hi lo))) ;;
            Ret i)
         0 ;;
       Ret tt)
      (mkMachine s r)
  = Returns tt (mkMachine (s ++ [first; cmd (pairf b1 f); cmd (pairf b3 b2);
                                 cmd (pairf b5 b4); cmd (pairf c b6)]) r).
Proof.
  match goal with
  | |- run machine ?p ?m = _ =>
      let v := eval cbv -[app] in (run machine p m) in
      change (run machine p m) with v
  end.
  rewrite <- !app_assoc. reflexivity.
Qed.

Lemma match_rom_run (dev : DS18B20dev_t) (s r : list Z) :
  run machine (send_DS18_match_rom dev) (mkMachine s r)
  = Returns tt (mkMachine (s ++ match_rom_cmds (dev_bytes dev)) r).
Proof.
  unfold send_DS18_match_rom, union_a, dev_bytes, match_rom_cmds.
  change (seqZ 0 8) with [0; 1; 2; 3; 4; 5; 6; 7].
  change (seqZ 1 6) with [1; 2; 3; 4; 5; 6].
  cbn [map app].
  generalize (u64 (Z.shiftl (serial_num dev) 8)). intros d.
  pose proof (union_byte_range d 1). pose proof (union_byte_range d 2).
  pose proof (union_byte_range d 3). pose proof (union_byte_range d 4).
  pose proof (union_byte_range d 5). pose proof (union_byte_range d 6).
  assert (byte (u8 (family_code dev))) by (apply Z.mod_pos_bound; reflexivity).
  assert (byte (u8 (rom_crc dev))) by (apply Z.mod_pos_bound; reflexivity).
  revert H H0 H1 H2 H3 H4 H5 H6.
  generalize (union_byte d 0) (union_byte d 1) (union_byte d 2) (union_byte d 3)
             (union_byte d 4) (union_byte d 5) (union_byte d 6) (union_byte d 7)
             (u8 (family_code dev)) (u8 (rom_crc dev)).
  intros b0 b1 b2 b3 b4 b5 b6 b7 f c H1 H2 H3 H4 H5 H6 Hf Hc.
  cbn [lookup_total list_lookup_total Nat.mul Nat.add].
  rewrite <- !pair_of_bytes by assumption.
  exact (match_words_run (fun hi lo => u16 (Z.shiftl (u16 hi) 8 + lo))
                         (write_byte_cmd 0x55) write_uint_cmd
                         b0 b1 b2 b3 b4 b5 b6 b7 f c s r).
Qed.

Lemma rom_fields_bytes (rom : Z) (dev : DS18B20dev_t) :
  dev_bytes (rom_fields rom dev) = rom_bytes rom.
Proof.
  unfold dev_bytes, rom_fields, rom_bytes. cbn [family_code rom_crc serial_num].
  change (seqZ 0 8) with [0; 1; 2; 3; 4; 5; 6; 7].
  change (seqZ 1 6) with [1; 2; 3; 4; 5; 6].
  cbn [map app].
  rewrite first_byte, last_byte, !serial_byte by lia. reflexivity.
Qed.

Lemma union_d_rom_bytes (rom : Z) : word64 rom -> union_d (rom_bytes rom) = rom.
Proof.
  unfold word64. intros Hrom.
  unfold rom_bytes, union_d, union_byte.
  change (seqZ 0 8) with [0; 1; 2; 3; 4; 5; 6; 7]. cbn [map fold_right].
  change 255 with (Z.ones 8).
  rewrite !Z.land_ones, !Z.shiftr_div_pow2 by lia.
  change (2 ^ (8 * 0)) with 1. change (2 ^ (8 * 1)) with (256 ^ 1).
  change (2 ^ (8 * 2)) with (256 ^ 2). change (2 ^ (8 * 3)) with (256 ^ 3).
  change (2 ^ (8 * 4)) with (256 ^ 4). change (2 ^ (8 * 5)) with (256 ^ 5).
  change (2 ^ (8 * 6)) with (256 ^ 6). change (2 ^ (8 * 7)) with (256 ^ 7).
  change (2 ^ 8) with 256. change (2 ^ 64) with (256 ^ 8) in Hrom.
  rewrite Z.div_1_r.
  assert (forall k, 0 <= k -> rom / 256 ^ k = rom / 256 ^ k mod 256 + 256 * (rom / 256 ^ (k + 1)))
    as Hstep.
  { intros k Hk. rewrite Z.pow_add_r, Z.pow_1_r by lia.
    rewrite <- Z.div_div by (try apply Z.pow_pos_nonneg; lia).
    rewrite (Z.div_mod (rom / 256 ^ k) 256) at 1 by lia. lia. }
  assert (rom / 256 ^ 8 = 0) as Hend by (apply Z.div_small; lia).
  pose proof (Hstep 0 ltac:(lia)) as H0. rewrite Z.pow_0_r, Z.div_1_r in H0.
  pose proof (Hstep 1 ltac:(lia)) as H1. pose proof (Hstep 2 ltac:(lia)) as H2.
  pose proof (Hstep 3 ltac:(lia)) as H3. pose proof (Hstep 4 ltac:(lia)) as H4.
  pose proof (Hstep 5 ltac:(lia)) as H5. pose proof (Hstep 6 ltac:(lia)) as H6.
  pose proof (Hstep 7 ltac:(lia)) as H7.
  change (0 + 1) with 1 in *. change (1 + 1) with 2 in *. change (2 + 1) with 3 in *.
  change (3 + 1) with 4 in *. change (4 + 1) with 5 in *. change (5 + 1) with 6 in *.
  change (6 + 1) with 7 in *. change (7 + 1) with 8 in *.
  rewrite Hend in H7.
  generalize dependent (rom / 256 ^ 1). generalize dependent (rom / 256 ^ 2).
  generalize dependent (rom / 256 ^ 3). generalize dependent (rom / 256 ^ 4).
  generalize dependent (rom / 256 ^ 5). generalize dependent (rom / 256 ^ 6).
  generalize dependent (rom / 256 ^ 7).
  intros. lia.
Qed.

(** X16: for a device whose fields [search_DS18_rom] has set from a ROM
    code, [send_DS18_match_rom] sends the Match ROM command and then the
    eight bytes of that ROM code, low byte first, two to a 16-bit write,
    five commands in all; for a 64-bit code these bytes make up the code
    again. *)
Theorem match_rom_sends_rom (rom : Z) (dev : DS18B20dev_t) (s r : list Z) :
  run machine (send_DS18_match_rom (rom_fields rom dev)) (mkMachine s r)
  = Returns tt (mkMachine (s ++ match_rom_cmds (rom_bytes rom)) r)
  /\ length (match_rom_cmds (rom_bytes rom)) = 5%nat
  /\ (word64 rom -> union_d (rom_bytes rom) = rom).
Proof.
  split; [|split].
  - rewrite match_rom_run, rom_fields_bytes. reflexivity.
  - reflexivity.
  - apply union_d_rom_bytes.
Qed.

Lemma match_rom_sends_rom_witness :
  union_d (rom_bytes 0xA2000000B81C0228) = 0xA2000000B81C0228.
Proof.
  apply (proj2 (proj2 (match_rom_sends_rom 0xA2000000B81C0228
                         (mkDev 0 0 0 0 0 0 0) [] []))).
  unfold word64. lia.
Defined.

(** *** Reading the ROM code of a single device *)

Lemma write_byte_served {A} (data : Z) (k : Z -> prog pioE A) (s r : list Z) :
  run machine (bind (oneWire_write_byte data true) k) (mkMachine s r)
  = run machine (k (oneWire_status ONE_WIRE_NO_ERROR))
        (mkMachine (s ++ [write_byte_cmd data]) r).
Proof. reflexivity. Qed.

Lemma crc_status_ok (c : Z) :
  negb (crc_status c =? ONE_WIRE_NO_ERROR) = negb (c =? 0).
Proof. unfold crc_status. destruct (c =? 0); reflexivity. Qed.

Lemma union_d_bytes (b0 b1 b2 b3 b4 b5 b6 b7 : Z) :
  byte b0 -> byte b1 -> byte b2 -> byte b3 -> byte b4 -> byte b5 -> byte b6 -> byte b7 ->
  rom_bytes (union_d [b0; b1; b2; b3; b4; b5; b6; b7]) = [b0; b1; b2; b3; b4; b5; b6; b7]
  /\ word64 (union_d [b0; b1; b2; b3; b4; b5; b6; b7]).
Proof.
  unfold byte, word64. intros H0 H1 H2 H3 H4 H5 H6 H7.
  unfold rom_bytes, union_d, union_byte.
  change (seqZ 0 8) with [0; 1; 2; 3; 4; 5; 6; 7]. cbn [map fold_right].
  change 255 with (Z.ones 8).
  rewrite !Z.land_ones, !Z.shiftr_div_pow2 by lia.
  change (2 ^ (8 * 0)) with 1. change (2 ^ (8 * 1)) with 256.
  change (2 ^ (8 * 2)) with 65536. change (2 ^ (8 * 3)) with 16777216.
  change (2 ^ (8 * 4)) with 4294967296. change (2 ^ (8 * 5)) with 1099511627776.
  change (2 ^ (8 * 6)) with 281474976710656. change (2 ^ (8 * 7)) with 72057594037927936.
  change (2 ^ 8) with 256. change (2 ^ 64) with 18446744073709551616.
  split; [|lia].
  repeat (apply (f_equal2 cons); [Z.div_mod_to_equations; lia|]). reflexivity.
Qed.

Lemma received_8 (ws : list Z) :
  length ws = 2%nat ->
  exists b0 b1 b2 b3 b4 b5 b6 b7,
    received 8 ws = [b0; b1; b2; b3; b4; b5; b6; b7]
    /\ byte b0 /\ byte b1 /\ byte b2 /\ byte b3
    /\ byte b4 /\ byte b5 /\ byte b6 /\ byte b7.
Proof.
  intros Hws. destruct ws as [|w0 [|w1 [|? ?]]]; try discriminate Hws.
  exists (union_byte w0 0), (union_byte w0 1), (union_byte w0 2), (union_byte w0 3),
         (union_byte w1 0), (union_byte w1 1), (union_byte w1 2), (union_byte w1 3).
  split; [reflexivity|]. repeat split; apply union_byte_range.
Qed.

Lemma get_DS18_rom_run (u_a : list Z) (dev : DS18B20dev_t) (ws s r : list Z) :
  length u_a = 8%nat -> length ws = 2%nat ->
  run machine (get_DS18_rom u_a dev) (mkMachine s (ws ++ r))
  = Returns (let ok := (crc8 (received 8 ws) =? 0) && (received 8 ws !!! 0%nat =? 0x28) in
             (ok,
              if ok then rom_fields (union_d (received 8 ws)) dev
              else mkDev 0 (rom_crc dev) (serial_num dev) (temperature dev)
                         (alarm_th dev) (alarm_tl dev) (config dev)))
            (mkMachine (s ++ [write_byte_cmd 0x33; read_cmd 32; read_cmd 32]) r).
Proof.
  intros Hu Hws. unfold get_DS18_rom.
  rewrite write_byte_served, run_bind.
  rewrite read_bytes_machine_run by (rewrite ?Hu, ?Hws; try reflexivity; lia).
  rewrite <- app_assoc. change ([write_byte_cmd 51] ++ read_cmds 8)
    with [write_byte_cmd 0x33; read_cmd 32; read_cmd 32].
  rewrite (drop_ge u_a) by (rewrite Hu; cbn; lia). rewrite app_nil_r.
  destruct (received_8 ws Hws)
    as (b0 & b1 & b2 & b3 & b4 & b5 & b6 & b7 & -> & H0 & H1 & H2 & H3 & H4 & H5 & H6 & H7).
  cbv beta iota zeta. rewrite crc_status_ok.
  change ([b0; b1; b2; b3; b4; b5; b6; b7] !!! 0%nat) with b0.
  destruct (crc8 [b0; b1; b2; b3; b4; b5; b6; b7] =? 0); cbn [negb andb bind run];
    [|reflexivity].
  change (load [b0; b1; b2; b3; b4; b5; b6; b7] 0) with (@Ret pioE Z b0).
  cbn [bind].
  destruct (Z.eqb_spec b0 0x28) as [Hfam|Hfam]; cbn [negb run]; [|reflexivity].
  change (load [b0; b1; b2; b3; b4; b5; b6; b7] 7) with (@Ret pioE Z b7).
  cbn [bind run]. unfold rom_fields.
  destruct (union_d_bytes b0 b1 b2 b3 b4 b5 b6 b7) as [Hbytes _]; try assumption.
  unfold rom_bytes in Hbytes.
  change (seqZ 0 8) with [0; 1; 2; 3; 4; 5; 6; 7] in Hbytes. cbn [map] in Hbytes.
  injection Hbytes as Hb0 _ _ _ _ _ _ Hb7.
  unfold union_byte in Hb0, Hb7.
  change (8 * 0) with 0 in Hb0. rewrite Z.shiftr_0_r in Hb0.
  change (8 * 7) with 56 in Hb7.
  unfold union_d in *. cbn [fold_right] in *.
  rewrite Hb0, Hb7, Hfam. reflexivity.
Qed.

Lemma get_DS18_rom_always (u_a : list Z) (dev : DS18B20dev_t) :
  always (fun '(ok, dev') =>
            if ok : bool then family_code dev' = 0x28
            else dev' = mkDev 0 (rom_crc dev) (serial_num dev) (temperature dev)
                              (alarm_th dev) (alarm_tl dev) (config dev))
         (get_DS18_rom u_a dev).
Proof.
  unfold get_DS18_rom.
  apply always_bind_any. intros _. apply always_bind_any. intros [stat a].
  apply always_bind_any. intros [|]; [reflexivity|].
  apply always_bind_any. intros a7. reflexivity.
Qed.

(** X17: [get_DS18_rom] sends the Read ROM command and reads eight bytes.
    Against a state machine that answers with two words, it returns true
    exactly when the CRC-8 over the eight bytes is zero and the first byte
    is the family code 0x28; the fields of the device are then the ones
    [search_DS18_rom] sets for the ROM code made of the eight bytes, so that
    [send_DS18_match_rom] sends these bytes back. Otherwise the family code
    is set to 0 and the other fields are left. On any hardware, a device
    for which it returns true has family code 0x28, and one for which it
    returns false has family code 0 and its other fields as before. *)
Theorem get_DS18_rom_served (u_a : list Z) (dev : DS18B20dev_t) (ws s r : list Z) :
  length u_a = 8%nat -> length ws = 2%nat ->
  let block := received 8 ws in
  let ok := (crc8 block =? 0) && (block !!! 0%nat =? 0x28) in
  run machine (get_DS18_rom u_a dev) (mkMachine s (ws ++ r))
  = Returns (ok,
             if ok then rom_fields (union_d block) dev
             else mkDev 0 (rom_crc dev) (serial_num dev) (temperature dev)
                        (alarm_th dev) (alarm_tl dev) (config dev))
            (mkMachine (s ++ [write_byte_cmd 0x33; read_cmd 32; read_cmd 32]) r)
  /\ dev_bytes (rom_fields (union_d block) dev) = block
  /\ always (fun '(ok, dev') =>
               if ok : bool then family_code dev' = 0x28
               else dev' = mkDev 0 (rom_crc dev) (serial_num dev) (temperature dev)
                                 (alarm_th dev) (alarm_tl dev) (config dev))
            (get_DS18_rom u_a dev).
Proof.
  intros Hu Hws block ok. split; [|split].
  - apply get_DS18_rom_run; assumption.
  - subst block. rewrite rom_fields_bytes.
    destruct (received_8 ws Hws)
      as (b0 & b1 & b2 & b3 & b4 & b5 & b6 & b7 & -> & H0 & H1 & H2 & H3 & H4 & H5 & H6 & H7).
    apply union_d_bytes; assumption.
  - apply get_DS18_rom_always.
Qed.

Lemma get_DS18_rom_served_witness :
  run machine (get_DS18_rom (replicate 8 0) (mkDev 0 0 0 0 0 0 0))
      (mkMachine [] ([0xB81C0228; 0xA0000000] ++ []))
  = Returns (true, rom_fields 0xA0000000B81C0228 (mkDev 0 0 0 0 0 0 0))
            (mkMachine ([] ++ [write_byte_cmd 0x33; read_cmd 32; read_cmd 32]) []).
Proof.
  exact (proj1 (get_DS18_rom_served (replicate 8 0) (mkDev 0 0 0 0 0 0 0)
                  [0xB81C0228; 0xA0000000] [] [] eq_refl eq_refl)).
Defined.

(** *** Reading the scratchpad *)

Lemma temperature_value (lo hi : Z) :
  byte lo -> byte hi -> u16 (Z.lor (Z.shiftl hi 8) lo) = lo + 256 * hi.
Proof.
  unfold byte. intros Hlo Hhi.
  assert (Z.land (Z.shiftl hi 8) lo = 0) as Hdisjoint.
  { apply Z.bits_inj'. intros i Hi.
    rewrite Z.land_spec, Z.bits_0.
    destruct (Z.lt_ge_cases i 8).
    - rewrite Z.shiftl_spec_low by lia. reflexivity.
    - rewrite (Z.bits_above_log2 lo i); [apply andb_false_r|lia|].
      destruct (Z.eq_dec lo 0) as [->|]; [cbn; lia|].
      assert (Z.log2 lo < 8) by (apply Z.log2_lt_pow2; lia). lia. }
  rewrite <- Z.lxor_lor, <- Z.add_nocarry_lxor by exact Hdisjoint.
  rewrite Z.shiftl_mul_pow2 by lia. unfold u16. rewrite Z.mod_small; lia.
Qed.

Lemma received_9 (ws : list Z) :
  length ws = 3%nat ->
  exists b0 b1 b2 b3 b4 b5 b6 b7 b8,
    received 9 ws = [b0; b1; b2; b3; b4; b5; b6; b7; b8]
    /\ byte b0 /\ byte b1 /\ byte b2 /\ byte b3 /\ byte b4.
Proof.
  intros Hws. destruct ws as [|w0 [|w1 [|w2 [|? ?]]]]; try discriminate Hws.
  exists (union_byte w0 0), (union_byte w0 1), (union_byte w0 2), (union_byte w0 3),
         (union_byte w1 0), (union_byte w1 1), (union_byte w1 2), (union_byte w1 3),
         (union_byte (Z.shiftr w2 24) 0).
  split; [reflexivity|]. repeat split; apply union_byte_range.
Qed.

Lemma get_DS18_scratch_run (u_a : list Z) (dev : DS18B20dev_t) (ws s r : list Z) :
  length u_a = 12%nat -> length ws = 3%nat ->
  run machine (get_DS18_scratch u_a dev) (mkMachine s (ws ++ r))
  = Returns (let block := received 9 ws in
             let ok := crc8 block =? 0 in
             (ok,
              if ok
              then mkDev (family_code dev) (rom_crc dev) (serial_num dev)
                         (block !!! 0%nat + 256 * block !!! 1%nat)
                         (block !!! 2%nat) (block !!! 3%nat) (block !!! 4%nat)
              else dev))
            (mkMachine (s ++ match_rom_cmds (dev_bytes dev)
                          ++ [write_byte_cmd 0xBE; read_cmd 32; read_cmd 32; read_cmd 8]) r).
Proof.
  intros Hu Hws. unfold get_DS18_scratch.
  rewrite run_bind, match_rom_run, write_byte_served, run_bind.
  rewrite read_bytes_machine_run by (rewrite ?Hu, ?Hws; try reflexivity; lia).
  rewrite <- !app_assoc. change ([write_byte_cmd 190] ++ read_cmds 9)
    with [write_byte_cmd 0xBE; read_cmd 32; read_cmd 32; read_cmd 8].
  destruct (received_9 ws Hws)
    as (b0 & b1 & b2 & b3 & b4 & b5 & b6 & b7 & b8 & -> & H0 & H1 & H2 & H3 & H4).
  cbv beta iota zeta. rewrite crc_status_ok.
  destruct (crc8 [b0; b1; b2; b3; b4; b5; b6; b7; b8] =? 0); cbn [negb];
    [|reflexivity].
  cbn [app].
  change (load (b0 :: b1 :: b2 :: b3 :: b4 :: b5 :: b6 :: b7 :: b8 :: drop (Z.to_nat 9) u_a) 1)
    with (@Ret pioE Z b1).
  change (load (b0 :: b1 :: b2 :: b3 :: b4 :: b5 :: b6 :: b7 :: b8 :: drop (Z.to_nat 9) u_a) 0)
    with (@Ret pioE Z b0).
  change (load (b0 :: b1 :: b2 :: b3 :: b4 :: b5 :: b6 :: b7 :: b8 :: drop (Z.to_nat 9) u_a) 2)
    with (@Ret pioE Z b2).
  change (load (b0 :: b1 :: b2 :: b3 :: b4 :: b5 :: b6 :: b7 :: b8 :: drop (Z.to_nat 9) u_a) 3)
    with (@Ret pioE Z b3).
  change (load (b0 :: b1 :: b2 :: b3 :: b4 :: b5 :: b6 :: b7 :: b8 :: drop (Z.to_nat 9) u_a) 4)
    with (@Ret pioE Z b4).
  cbn [bind run lookup_total list_lookup_total].
  rewrite temperature_value by assumption.
  unfold byte, u8 in *. rewrite !Z.mod_small by lia. reflexivity.
Qed.

Lemma get_DS18_scratch_always (u_a : list Z) (dev : DS18B20dev_t) :
  always (fun '(ok, dev') =>
            if ok : bool
            then family_code dev' = family_code dev /\ rom_crc dev' = rom_crc dev
                 /\ serial_num dev' = serial_num dev
            else dev' = dev)
         (get_DS18_scratch u_a dev).
Proof.
  unfold get_DS18_scratch.
  apply always_bind_any. intros _. apply always_bind_any. intros _.
  apply always_bind_any. intros [stat a].
  destruct (negb (stat =? ONE_WIRE_NO_ERROR)); [reflexivity|].
  do 5 (apply always_bind_any; intros ?). cbn [always family_code rom_crc serial_num].
  auto.
Qed.

(** X18: [get_DS18_scratch] addresses the device with Match ROM, sends the
    Read Scratchpad command and reads nine bytes. Against a state machine
    that answers with three words it returns true exactly when the CRC-8
    over the nine bytes is zero, and then the temperature is the first two
    bytes, low byte first, and the two alarm bytes and the configuration are
    bytes 2, 3 and 4; on a CRC failure the device is left as it was. On any
    hardware the call leaves the family code, the ROM CRC and the serial
    number alone, and leaves every field alone when it returns false. *)
Theorem get_DS18_scratch_served (u_a : list Z) (dev : DS18B20dev_t) (ws s r : list Z) :
  length u_a = 12%nat -> length ws = 3%nat ->
  let block := received 9 ws in
  let ok := crc8 block =? 0 in
  run machine (get_DS18_scratch u_a dev) (mkMachine s (ws ++ r))
  = Returns (ok,
             if ok
             then mkDev (family_code dev) (rom_crc dev) (serial_num dev)
                        (block !!! 0%nat + 256 * block !!! 1%nat)
                        (block !!! 2%nat) (block !!! 3%nat) (block !!! 4%nat)
             else dev)
            (mkMachine (s ++ match_rom_cmds (dev_bytes dev)
                          ++ [write_byte_cmd 0xBE; read_cmd 32; read_cmd 32; read_cmd 8]) r)
  /\ always (fun '(ok, dev') =>
               if ok : bool
               then family_code dev' = family_code dev /\ rom_crc dev' = rom_crc dev
                    /\ serial_num dev' = serial_num dev
               else dev' = dev)
            (get_DS18_scratch u_a dev).
Proof.
  intros Hu Hws block ok. split.
  - apply get_DS18_scratch_run; assumption.
  - apply get_DS18_scratch_always.
Qed.

Lemma get_DS18_scratch_served_witness :
  run machine (get_DS18_scratch (replicate 12 0) (mkDev 0x28 0xA0 0xB81C02 0 0 0 0))
      (mkMachine [] ([0x464B0550; 0x100CFF7F; 0x1C000000] ++ []))
  = Returns (true, mkDev 0x28 0xA0 0xB81C02 0x0550 0x4B 0x46 0x7F)
            (mkMachine ([] ++ match_rom_cmds (dev_bytes (mkDev 0x28 0xA0 0xB81C02 0 0 0 0))
                           ++ [write_byte_cmd 0xBE; read_cmd 32; read_cmd 32; read_cmd 8]) []).
Proof.
  exact (proj1 (get_DS18_scratch_served (replicate 12 0) (mkDev 0x28 0xA0 0xB81C02 0 0 0 0)
                  [0x464B0550; 0x100CFF7F; 0x1C000000] [] [] eq_refl eq_refl)).
Defined.

(** *** Starting a conversion *)

(** X19: [convert_DS18_temp] returns true on every hardware and for either
    value of [wait], which it does not use. It sends Skip ROM and Convert T,
    waits 100 us, and ends on the wait-for-idle command; it pulls nothing
    from the Rx FIFO. *)
Theorem convert_DS18_temp_returns_true (wait : bool) :
  always (fun ok => ok = true) (convert_DS18_temp wait)
  /\ convert_DS18_temp wait = convert_DS18_temp (negb wait)
  /\ (forall (T : Type) (g : handler gpioE T) (t t' : T) (s r : list Z),
         g _ (busy_wait_us_32 100) t = Some (tt, t') ->
         run (handle_both machine g) (convert_DS18_temp wait) (mkMachine s r, t)
         = Returns true
                   (mkMachine (s ++ [write_byte_cmd 0xCC; write_byte_cmd 0x44; 0]) r, t')).
Proof.
  split; [|split].
  - unfold convert_DS18_temp.
    do 4 (apply always_bind_any; intros ?). reflexivity.
  - reflexivity.
  - intros T g t t' s r Hwait. unfold convert_DS18_temp.
    rewrite run_bind, run_translate_l.
    change (run machine send_DS18_skip_rom (mkMachine s r))
      with (@Returns Machine unit tt (mkMachine (s ++ [write_byte_cmd 0xCC]) r)).
    cbv beta iota. rewrite run_bind, run_translate_l.
    change (run machine (oneWire_write_byte 68 true) (mkMachine (s ++ [write_byte_cmd 0xCC]) r))
      with (@Returns Machine Z (oneWire_status ONE_WIRE_NO_ERROR)
              (mkMachine ((s ++ [write_byte_cmd 0xCC]) ++ [write_byte_cmd 0x44]) r)).
    cbv beta iota. rewrite run_bind.
    cbn [call run handle_both fst snd]. rewrite Hwait.
    rewrite run_bind, run_translate_l.
    change (run machine (oneWire_wait_for_idle true)
              (mkMachine ((s ++ [write_byte_cmd 0xCC]) ++ [write_byte_cmd 0x44]) r))
      with (@Returns Machine Z (oneWire_status ONE_WIRE_NO_ERROR)
              (mkMachine (((s ++ [write_byte_cmd 0xCC]) ++ [write_byte_cmd 0x44]) ++ [0]) r)).
    cbv beta iota. cbn [run]. rewrite <- !app_assoc. reflexivity.
Qed.

Lemma convert_DS18_temp_returns_true_witness :
  run (handle_both machine (bus (static []))) (convert_DS18_temp true)
      (mkMachine [] [], power_up)
  = Returns true (mkMachine ([] ++ [write_byte_cmd 0xCC; write_byte_cmd 0x44; 0]) [], power_up).
Proof.
  apply (proj2 (proj2 (convert_DS18_temp_returns_true true))). reflexivity.
Defined.

(** *** Finding the devices *)

Lemma store_at_in_bounds {E T} (a : list T) (i : nat) (v : T) :
  (i < length a)%nat -> @store_at E T a (Z.of_nat i) v = Ret (<[i := v]> a).
Proof.
  intros Hi. unfold store_at.
  destruct (Z.ltb_spec (Z.of_nat i) 0) as [|_]; [lia|].
  rewrite Nat2Z.id.
  destruct (lookup_lt_is_Some_2 a i Hi) as [x ->]. reflexivity.
Qed.

Lemma load_at (a : list Z) (i : nat) (x : Z) :
  a !! i = Some x -> @load (sumE gpioE heapE) a (Z.of_nat i) = Ret x.
Proof.
  intros Hx. unfold load.
  destruct (Z.ltb_spec (Z.of_nat i) 0) as [|_]; [lia|].
  rewrite Nat2Z.id, Hx. reflexivity.
Qed.







Lemma allocate_loop_overrun (population : nat -> list Z) (roms : list Z) (num : nat)
      (line : Bus) (m : nat) :
  forall (k fuel : nat) (devs heap_objs : list (option DS18B20dev_t)),
    (length devs - k = m)%nat -> (k <= length devs)%nat -> (length devs < num)%nat ->
    (num <= length roms)%nat -> (num - k <= fuel)%nat ->
    run (handle_both (bus population) heap)
        (for_each fuel
           (fun '(i, devs) => i <? Z.of_nat num)
           (fun '(i, devs) => (i + 1, devs))
           (new_dev roms) (Z.of_nat k, devs))
        (line, heap_objs)
    = Aborts UndefinedBehaviour.
Proof.
  induction m as [|m IH]; intros k fuel devs heap_objs Hm Hk Hsmall Hroms Hfuel.
  all: destruct fuel as [|fuel]; [lia|].
  all: rewrite for_each_S.
  all: destruct (Z.ltb_spec (Z.of_nat k) (Z.of_nat num)) as [_|]; [|lia].
  all: rewrite run_bind; unfold new_dev at 1.
  all: cbn [bind call run handle_both heap fst snd].
  - assert (devs !! k = None) as Hout by (apply lookup_ge_None_2; lia).
    destruct heap_objs as [|p heap_objs]; unfold store_at;
      (destruct (Z.ltb_spec (Z.of_nat k) 0) as [|_]; [lia|]);
      rewrite Nat2Z.id, Hout; reflexivity.
  - destruct heap_objs as [|[obj|] heap_objs].
    + rewrite store_at_in_bounds by lia. reflexivity.
    + rewrite store_at_in_bounds by lia. cbn [bind].
      destruct (lookup_lt_is_Some_2 roms k) as [rom Hrom]; [lia|].
      rewrite (load_at roms k rom Hrom). cbn [bind].
      rewrite store_at_in_bounds by (rewrite length_insert; lia).
      cbn [bind run].
      replace (Z.of_nat k + 1) with (Z.of_nat (S k)) by lia.
      apply IH; rewrite ?length_insert; lia.
    + rewrite store_at_in_bounds by lia. reflexivity.
Qed.

(** X21: [search_DS18_rom] has no bound on the caller's array of pointers:
    on a line with more devices than the array has entries it fills the
    entries there are and stores the next pointer past the end of the
    array, whatever the heap holds. *)
Theorem search_DS18_rom_overruns_small_array (roms buf : list Z)
        (devs heap_objs : list (option DS18B20dev_t)) (fuel : nat) :
  length buf = 16%nat ->
  roms <> [] -> NoDup roms -> Forall word64 roms ->
  (length roms <= 16)%nat -> (length devs < length roms)%nat ->
  (length roms <= fuel)%nat ->
  run (handle_both (bus (static roms)) heap) (search_DS18_rom fuel buf devs)
      (power_up, heap_objs)
  = Aborts UndefinedBehaviour.
Proof.
  intros Hbuf Hne Hnd Hw H16 Hsmall Hfuel.
  assert (length (leaves 64 0 roms) = length roms) as Hlen.
  { apply Permutation_length, leaves_perm; auto. intros x y _ _ q Hq. lia. }
  unfold search_DS18_rom.
  rewrite run_bind, run_translate_l, search_rom_static by (rewrite ?Hlen, ?Hbuf; assumption).
  cbv beta iota. rewrite Nat2Z.id, run_bind.
  change (0, devs) with (Z.of_nat 0, devs).
  rewrite (allocate_loop_overrun (static roms) _ (length (leaves 64 0 roms)) _ (length devs));
    [reflexivity | lia | lia | lia | rewrite length_app, length_drop; lia | lia].
Qed.

Lemma search_DS18_rom_overruns_small_array_witness :
  run (handle_both (bus (static [5; 7])) heap)
      (search_DS18_rom 2 (replicate 16 0) [None])
      (power_up, [Some (mkDev 0 0 0 0 0 0 0); Some (mkDev 0 0 0 0 0 0 0)])
  = Aborts UndefinedBehaviour.
Proof.
  apply (search_DS18_rom_overruns_small_array [5; 7] (replicate 16 0) [None]
           [Some (mkDev 0 0 0 0 0 0 0); Some (mkDev 0 0 0 0 0 0 0)] 2 eq_refl).
  - discriminate.
  - exact (bool_decide_eq_true_1 (NoDup [5; 7]) eq_refl).
  - repeat (constructor; [unfold word64; lia|]). constructor.
  - cbn; lia.
  - cbn; lia.
  - cbn; lia.
Defined.
End DS18B20Facts.
